(** * Verification of the cross-region import reconciler, its concurrency
      limiter, and two construct validations of the CDK library.

    Sources embedded here:
    - the bundled custom-resource handler (queue class [d], limiter factory
      [z], handler [M], fan-outs [w] and [x], difference [P]);
    - [GlueStartJobRun.constructor] (aws-stepfunctions-tasks/lib/glue/start-job-run.ts);
    - [RecordSet.constructor] (aws-route53 record-set). *)

From Stdlib Require Import ZArith QArith Qround String Ascii Bool Lia List.
From Stdlib Require Import Floats.SpecFloat DecimalString.
From Stdlib Require Import Permutation.
Import ListNotations.

Close Scope Q_scope.
Open Scope string_scope.
Open Scope list_scope.

(* ===================================================================== *)
(** ** JavaScript values and numbers *)
(* ===================================================================== *)

Module JS.

(** A JavaScript number is an IEEE-754 double: a signed zero, a signed
    infinity, NaN, or a finite [(-1)^s * m * 2^e]. *)
Definition number := spec_float.

Definition Infinity : number := S754_infinity false.
Definition NaN : number := S754_nan.
Definition of_pos (p : positive) : number := S754_finite false p 0.
Definition zero : number := S754_zero false.

(** The real number a finite double stands for. *)
Definition real (x : number) : option Q :=
  match x with
  | S754_zero _ => Some 0%Q
  | S754_finite s m e =>
      let a := (inject_Z (Zpos m) * Qpower 2 e)%Q in
      Some (if s then Qopp a else a)
  | S754_infinity _ | S754_nan => None
  end.

(** IEEE comparison: [None] when one side is NaN (unordered). *)
Definition compare (x y : number) : option comparison :=
  match x, y with
  | S754_nan, _ | _, S754_nan => None
  | S754_infinity sx, S754_infinity sy =>
      Some (match sx, sy with
            | true, false => Lt | false, true => Gt | _, _ => Eq end)
  | S754_infinity s, _ => Some (if s then Lt else Gt)
  | _, S754_infinity s => Some (if s then Gt else Lt)
  | _, _ =>
      match real x, real y with
      | Some a, Some b => Some (Qcompare a b)
      | _, _ => None
      end
  end.

(** [x < y], [x > y] and [x === y] on numbers. *)
Definition lt (x y : number) : bool :=
  match compare x y with Some Lt => true | _ => false end.
Definition gt (x y : number) : bool := lt y x.
Definition strict_eq (x y : number) : bool :=
  match compare x y with Some Eq => true | _ => false end.

(** [Number.isInteger]: finite, and equal to its own floor. *)
Definition isInteger (x : number) : bool :=
  match real x with
  | Some q => Qeq_bool q (inject_Z (Qfloor q))
  | None => false
  end.

(** ToBoolean on a number: [+0], [-0] and [NaN] are falsy. *)
Definition truthy (x : number) : bool :=
  match x with
  | S754_zero _ | S754_nan => false
  | _ => true
  end.

(** ToBoolean on a string: only the empty string is falsy. *)
Definition truthy_string (s : string) : bool :=
  match s with EmptyString => false | _ => true end.

(** The values a caller can hand to a function expecting a number. *)
Inductive value :=
| VUndefined
| VNull
| VBoolean (b : bool)
| VNumber (x : number)
| VString (s : string)
| VObject.

(** [Number.isInteger(v)] is false on anything that is not a number. *)
Definition value_isInteger (v : value) : bool :=
  match v with VNumber x => isInteger x | _ => false end.

(** [v === Infinity]. *)
Definition value_is_Infinity (v : value) : bool :=
  match v with VNumber x => strict_eq x Infinity | _ => false end.

(** Thrown errors: the constructor used and the message. *)
Inductive error :=
| TypeError (message : string)
| Error (message : string).

Definition message (e : error) : string :=
  match e with TypeError m | Error m => m end.

End JS.

(* ===================================================================== *)
(** ** The queue class [d] and the limiter factory [z] *)
(* ===================================================================== *)

(** The concurrency value once validated: a positive integer or [Infinity]. *)
Inductive Limit :=
| Finite (n : Z)
| Unbounded.

(** [t < r] for the counter [t] and the validated concurrency [r]. *)
Definition below (t : Z) (r : Limit) : bool :=
  match r with Finite n => (t <? n)%Z | Unbounded => true end.

Definition within (t : Z) (r : Limit) : Prop :=
  match r with Finite n => (t <= n)%Z | Unbounded => True end.

Section Queue.
Context {T : Type}.

(** The linked list of class [d], as the list of its values from [_head]
    to [_tail]. *)
Definition Queue := list T.

Definition enqueue (e : T) (q : Queue) : Queue := q ++ [e].

Definition dequeue (q : Queue) : option T * Queue :=
  match q with
  | [] => (None, [])
  | e :: rest => (Some e, rest)
  end.

Definition clear (_ : Queue) : Queue := [].

Definition size (q : Queue) : Z := Z.of_nat (List.length q).

End Queue.

(** The closure variables of one limiter: [r], the queue [e] and the
    counter [t]. *)
Record Limiter (T : Type) := mkLimiter {
  concurrency : Limit;
  queue : @Queue T;
  activeCount : Z
}.
Arguments mkLimiter {T}.
Arguments concurrency {T}.
Arguments queue {T}.
Arguments activeCount {T}.

Definition pendingCount {T} (l : Limiter T) : Z := size (queue l).

(** The guard of [z]: [(Number.isInteger(r) || r === 1/0) && r > 0].
    Off numbers both disjuncts are false and [&&] never evaluates [r > 0]. *)
Definition concurrency_ok (r : JS.value) : bool :=
  match r with
  | JS.VNumber x => (JS.isInteger x || JS.strict_eq x JS.Infinity) && JS.gt x JS.zero
  | _ => JS.value_isInteger r || JS.value_is_Infinity r
  end.

(** The number that passed the guard, as the bound [t < r] compares with. *)
Definition limit_of (r : JS.value) : Limit :=
  match r with
  | JS.VNumber x =>
      match JS.real x with
      | Some q => Finite (Qfloor q)
      | None => Unbounded
      end
  | _ => Unbounded
  end.

Definition z_message : string :=
  "Expected `concurrency` to be a number from 1 and up".

(** [z(r)]: throws the TypeError, or returns a limiter with an empty queue
    and a zero counter. *)
Definition z {T} (r : JS.value) : JS.error + Limiter T :=
  if negb (concurrency_ok r) then inl (JS.TypeError z_message)
  else inr (mkLimiter (limit_of r) [] 0%Z).

(* ===================================================================== *)
(** ** Event-loop semantics of one limiter *)
(* ===================================================================== *)

Inductive Outcome (V E : Type) :=
| Fulfilled (v : V)
| Rejected (e : E).
Arguments Fulfilled {V E}.
Arguments Rejected {V E}.

Section LimiterSemantics.
Context {A V E : Type}.

(** A queued entry [s.bind(null, n, c, ...a)]: the operation [n] and the
    resolver [c] of the future that the generator [u] returned, named by
    the rank of that future among those created. *)
Record Item := mkItem { ticket : nat; operation : A }.

(** One limiter together with the pending work of the event loop around it. *)
Record World := mkWorld {
  limiter : Limiter Item;
  ticks : nat;                          (* admission turns scheduled by [i] *)
  running : list Item;                  (* invoked, promise [m] pending *)
  resuming : list Item;                 (* [m] settled, [s] not yet past [await m] *)
  futures : list (Item * Outcome V E);  (* settled futures, latest first *)
  submitted : list Item                 (* every future created, in order *)
}.

Inductive Event :=
| Invoked (it : Item)
| Settled (it : Item) (o : Outcome V E).

Definition set_limiter (l : Limiter Item) (w : World) : World :=
  mkWorld l (ticks w) (running w) (resuming w) (futures w) (submitted w).

(** [s]: [t++], then the operation is invoked and [c(m)] ties the future to
    its promise. *)
Definition s (it : Item) (w : World) : World * list Event :=
  let l := limiter w in
  (mkWorld (mkLimiter (concurrency l) (queue l) (activeCount l + 1)%Z)
           (ticks w) (it :: running w) (resuming w) (futures w) (submitted w),
   [Invoked it]).

(** [e.dequeue()()], reached only behind [e.size > 0]. *)
Definition dequeue_call (w : World) : World * list Event :=
  let l := limiter w in
  match dequeue (queue l) with
  | (Some it, rest) =>
      s it (set_limiter (mkLimiter (concurrency l) rest (activeCount l)) w)
  | (None, _) => (w, [])
  end.

(** The first half of [o]: [t--]. *)
Definition decrement (w : World) : World :=
  let l := limiter w in
  set_limiter (mkLimiter (concurrency l) (queue l) (activeCount l - 1)%Z) w.

(** [o]: [t--, e.size > 0 && e.dequeue()()]. *)
Definition o (w : World) : World * list Event :=
  let w1 := decrement w in
  if (size (queue (limiter w1)) >? 0)%Z then dequeue_call w1 else (w1, []).

(** The turn scheduled by [i]:
    [t < r && e.size > 0 && e.dequeue()()]. *)
Definition admission_turn (w : World) : World * list Event :=
  let l := limiter w in
  if below (activeCount l) (concurrency l) && (size (queue l) >? 0)%Z
  then dequeue_call w else (w, []).

(** [u(n, ...c)] followed by [i]: a new future, the entry enqueued, and one
    admission turn scheduled behind [await Promise.resolve()]. *)
Definition u (n : A) (w : World) : World :=
  let l := limiter w in
  let it := mkItem (List.length (submitted w)) n in
  mkWorld (mkLimiter (concurrency l) (enqueue it (queue l)) (activeCount l))
          (S (ticks w)) (running w) (resuming w) (futures w)
          (submitted w ++ [it]).

(** [clearQueue]. *)
Definition clearQueue (w : World) : World :=
  let l := limiter w in
  set_limiter (mkLimiter (concurrency l) (clear (queue l)) (activeCount l)) w.

Definition has_ticket (k : nat) (it : Item) : bool := Nat.eqb (ticket it) k.

Definition remove_ticket (k : nat) (l : list Item) : list Item :=
  filter (fun it => negb (has_ticket k it)) l.

Definition settlement (k : nat) (futs : list (Item * Outcome V E)) : option (Outcome V E) :=
  match find (fun p => has_ticket k (fst p)) futs with
  | Some (_, r) => Some r
  | None => None
  end.

(** The state of the future of entry [k]: [None] while it is pending. *)
Definition future_of (k : nat) (w : World) : option (Outcome V E) :=
  settlement k (futures w).

(** What can happen next around a limiter. *)
Inductive Action :=
| Submit (n : A)                       (* the caller runs [u(n)] *)
| Turn                                 (* a scheduled admission turn runs *)
| Settle (k : nat) (r : Outcome V E)   (* the promise [m] of entry [k] settles *)
| Resume (k : nat)                     (* [s] continues after [await m]: [o()] *)
| Clear.                               (* the caller runs [clearQueue()] *)

Definition step (w : World) (a : Action) : option (World * list Event) :=
  match a with
  | Submit n => Some (u n w, [])
  | Turn =>
      match ticks w with
      | O => None
      | S n =>
          Some (admission_turn
                  (mkWorld (limiter w) n (running w) (resuming w)
                           (futures w) (submitted w)))
      end
  | Settle k r =>
      match find (has_ticket k) (running w) with
      | Some it =>
          Some (mkWorld (limiter w) (ticks w) (remove_ticket k (running w))
                        (it :: resuming w) ((it, r) :: futures w) (submitted w),
                [Settled it r])
      | None => None
      end
  | Resume k =>
      match find (has_ticket k) (resuming w) with
      | Some _ =>
          Some (o (mkWorld (limiter w) (ticks w) (running w)
                           (remove_ticket k (resuming w))
                           (futures w) (submitted w)))
      | None => None
      end
  | Clear => Some (clearQueue w, [])
  end.

(** Events are collected latest first. *)
Fixpoint exec (w : World) (acts : list Action) : option (World * list Event) :=
  match acts with
  | [] => Some (w, [])
  | a :: rest =>
      match step w a with
      | Some (w1, ev1) =>
          match exec w1 rest with
          | Some (w2, ev2) => Some (w2, ev2 ++ ev1)
          | None => None
          end
      | None => None
      end
  end.

(** The world right after [z] returned the limiter [l]. *)
Definition fresh (l : Limiter Item) : World := mkWorld l 0 [] [] [] [].

(** [Promise.all] over the futures created so far: the first rejection in
    settling order if there is one, else fulfilled once all are. *)
Definition first_rejection (w : World) : option E :=
  match find (fun p => match snd p with Rejected _ => true | _ => false end)
             (rev (futures w)) with
  | Some (_, Rejected e) => Some e
  | _ => None
  end.

Definition all_fulfilled (w : World) : bool :=
  forallb (fun it => match future_of (ticket it) w with
                     | Some (Fulfilled _) => true
                     | _ => false
                     end) (submitted w).

End LimiterSemantics.

Arguments Item : clear implicits.
Arguments World : clear implicits.
Arguments Event : clear implicits.
Arguments Action : clear implicits.

(* ===================================================================== *)
(** ** The handler [M] and its fan-outs [w] and [x] *)
(* ===================================================================== *)

Inductive request_type := Create | Update | Delete.

(** The [imports] object: its own properties, in [Object.keys] order. *)
Definition ImportSet := list (string * string).

Record ReaderProps := mkReaderProps {
  imports : ImportSet;
  prefix : string;
  region : string
}.

(** [ResourceProperties] and [OldResourceProperties] stand for their
    [ReaderProps] member; the old ones are absent outside an update. *)
Record Request := mkRequest {
  RequestType : request_type;
  ResourceProperties : ReaderProps;
  OldResourceProperties : option ReaderProps
}.

Definition Object_keys (t : ImportSet) : list string := map fst t.
Definition Object_values (t : ImportSet) : list string := map snd t.

Definition includes (e : list string) (t : string) : bool :=
  existsb (String.eqb t) e.

(** [P(r, e) = r.filter(t => !e.includes(t))]. *)
Definition P (r e : list string) : list string :=
  filter (fun t => negb (includes e t)) r.

(** The inputs of the two SSM commands the handler sends. *)
Inductive Command :=
| addTagsToResource (ResourceId ResourceType : string) (Tags : list (string * string))
| removeTagsFromResource (TagKeys : list string) (ResourceType ResourceId : string).

Definition resource_id (c : Command) : string :=
  match c with
  | addTagsToResource s _ _ => s
  | removeTagsFromResource _ _ s => s
  end.

Definition is_add (c : Command) : bool :=
  match c with addTagsToResource _ _ _ => true | _ => false end.

(** What the client rejects with: a service exception of the SDK, an
    error object with a [name] and a [message]. The SDK does not reject
    with [null] or [undefined], on which reading [i.name] would throw. *)
Record SdkError := mkSdkError { name : string; sdk_message : string }.

(** [`${i}`] on an error object ([Error.prototype.toString]). *)
Definition to_string (i : SdkError) : string :=
  if String.eqb (name i) "" then sdk_message i
  else if String.eqb (sdk_message i) "" then name i
  else (name i ++ ": " ++ sdk_message i)%string.

Inductive RemoteOutcome :=
| Responded
| Failed (i : SdkError).

(** What an operation submitted to the limiter resolves with: the
    command output of [return await ...], or nothing after a bare [return]. *)
Inductive OpValue := Output | Nothing.

Definition OpOutcome := Outcome OpValue JS.error.

(** The operation [w] submits for the reference [s]. *)
Definition tag_operation (s : string) (ro : RemoteOutcome) : OpOutcome :=
  match ro with
  | Responded => Fulfilled Output
  | Failed i =>
      Rejected (JS.Error ("Error importing " ++ s ++ ": " ++ to_string i)%string)
  end.

(** The operation [x] submits for the reference [s]. *)
Definition untag_operation (s : string) (ro : RemoteOutcome) : OpOutcome :=
  match ro with
  | Responded => Fulfilled Output
  | Failed i =>
      if String.eqb (name i) "InvalidResourceId" then Fulfilled Nothing
      else Rejected (JS.Error ("Error releasing import " ++ s ++ ": " ++ to_string i)%string)
  end.

(** The outcome of the operation that sends the command [c]. *)
Definition operation_outcome (c : Command) (ro : RemoteOutcome) : OpOutcome :=
  match c with
  | addTagsToResource s _ _ => tag_operation s ro
  | removeTagsFromResource _ _ s => untag_operation s ro
  end.

Definition FanOut := World Command OpValue JS.error.

Definition ten : JS.value := JS.VNumber (JS.of_pos 10).

(** [let o = S(10); e.map(s => o(...))], up to the [await Promise.all]. *)
Definition fan_out (cmds : list Command) : JS.error + FanOut :=
  match z ten with
  | inl err => inl err
  | inr l => inr (fold_left (fun wd c => u c wd) cmds (fresh l))
  end.

Definition w_commands (e : list string) (t : string) : list Command :=
  map (fun s => addTagsToResource s "Parameter" [(t, "true")]) e.

Definition x_commands (e : list string) (t : string) : list Command :=
  map (fun s => removeTagsFromResource [t] "Parameter" s) e.

Definition w (e : list string) (t : string) := fan_out (w_commands e t).
Definition x (e : list string) (t : string) := fan_out (x_commands e t).

(** [`aws-cdk:strong-ref:${e.prefix}`]. *)
Definition tag_key (e : ReaderProps) : string :=
  ("aws-cdk:strong-ref:" ++ prefix e)%string.

(** The handler's return value: [{Data: t}], or [undefined]. *)
Inductive Response :=
| Data (t : ImportSet)
| Undefined.

Inductive Phase := Releasing | Tagging | Finished.

Inductive HEvent :=
| Call (c : Command)
| Return (c : Command) (ro : RemoteOutcome).

(** One invocation: where [M] is suspended, the limiters of the fan-outs
    created so far, the remote traffic so far (latest first) and the
    settlement of the promise [M] returned. *)
Record Invocation := mkInvocation {
  phase : Phase;
  releasing : option FanOut;
  tagging : option FanOut;
  trace : list HEvent;
  result : option (Outcome Response JS.error)
}.

Definition finish (r : Outcome Response JS.error) (st : Invocation) : Invocation :=
  mkInvocation Finished (releasing st) (tagging st) (trace st) (Some r).

(** [await w(i, c, s)] reached: the tag fan-out is created and [M] suspends. *)
Definition start_tagging (c : list string) (s : string) (st : Invocation) : Invocation :=
  match w c s with
  | inl err => finish (Rejected err) st
  | inr wd => mkInvocation Tagging (releasing st) (Some wd) (trace st) None
  end.

Definition start_releasing (a : list string) (s : string) (st : Invocation) : Invocation :=
  match x a s with
  | inl err => finish (Rejected err) st
  | inr wd => mkInvocation Releasing (Some wd) (tagging st) (trace st) None
  end.

Definition idle : Invocation := mkInvocation Finished None None [] None.

Definition old_imports_error : JS.error :=
  JS.TypeError "Cannot read properties of undefined (reading 'ReaderProps')".

(** [M] from its entry to its first suspension. *)
Definition M_begin (r : Request) : Invocation :=
  let e := ResourceProperties r in
  let t := imports e in
  let o := Object_keys t in
  let s := tag_key e in
  match RequestType r with
  | Create => start_tagging o s idle
  | Update =>
      match OldResourceProperties r with
      | None => finish (Rejected old_imports_error) idle
      | Some old =>
          let n := imports old in
          let c := P o (Object_keys n) in
          let a := P (Object_keys n) o in
          if (0 <? List.length a)%nat then start_releasing a s idle
          else start_tagging c s idle
      end
  | Delete => start_releasing o s idle
  end.

(** [M] resumed after [await x(...)] or [await w(...)] settled. *)
Definition M_resume (r : Request) (st : Invocation) : option Invocation :=
  let e := ResourceProperties r in
  let t := imports e in
  let o := Object_keys t in
  let s := tag_key e in
  match phase st with
  | Releasing =>
      match releasing st with
      | None => None
      | Some wd =>
          match first_rejection wd with
          | Some err => Some (finish (Rejected err) st)
          | None =>
              if all_fulfilled wd then
                match RequestType r, OldResourceProperties r with
                | Update, Some old =>
                    Some (start_tagging (P o (Object_keys (imports old))) s st)
                | Delete, _ => Some (finish (Fulfilled Undefined) st)
                | _, _ => None
                end
              else None
          end
      end
  | Tagging =>
      match tagging st with
      | None => None
      | Some wd =>
          match first_rejection wd with
          | Some err => Some (finish (Rejected err) st)
          | None =>
              if all_fulfilled wd then Some (finish (Fulfilled (Data t)) st)
              else None
          end
      end
  | Finished => None
  end.

(** What can happen next during an invocation. *)
Inductive HAction :=
| HTurn (tag : bool)                                  (* admission turn of a limiter *)
| HSettle (tag : bool) (k : nat) (ro : RemoteOutcome) (* the remote call of entry [k] returns *)
| HResume (tag : bool) (k : nat)                      (* entry [k] of a limiter runs [o()] *)
| HAwait.                                             (* [M] resumes after its [await] *)

Definition fan (tag : bool) (st : Invocation) : option FanOut :=
  if tag then tagging st else releasing st.

Definition set_fan (tag : bool) (wd : FanOut) (st : Invocation) (evs : list HEvent) : Invocation :=
  if tag then mkInvocation (phase st) (releasing st) (Some wd) (evs ++ trace st) (result st)
  else mkInvocation (phase st) (Some wd) (tagging st) (evs ++ trace st) (result st).

Definition remote_event (ro : RemoteOutcome) (ev : Event Command OpValue JS.error) : HEvent :=
  match ev with
  | Invoked it => Call (operation it)
  | Settled it _ => Return (operation it) ro
  end.

Definition limiter_action (wd : FanOut) (a : HAction) : option (Action Command OpValue JS.error * RemoteOutcome) :=
  match a with
  | HTurn _ => Some (Turn, Responded)
  | HSettle _ k ro =>
      match find (has_ticket k) (running wd) with
      | Some it => Some (Settle k (operation_outcome (operation it) ro), ro)
      | None => None
      end
  | HResume _ k => Some (Resume k, Responded)
  | HAwait => None
  end.

Definition which (a : HAction) : bool :=
  match a with
  | HTurn b | HSettle b _ _ | HResume b _ => b
  | HAwait => false
  end.

Definition hstep (r : Request) (st : Invocation) (a : HAction) : option Invocation :=
  match a with
  | HAwait => M_resume r st
  | _ =>
      match fan (which a) st with
      | None => None
      | Some wd =>
          match limiter_action wd a with
          | None => None
          | Some (la, ro) =>
              match step wd la with
              | Some (wd', evs) =>
                  Some (set_fan (which a) wd' st (map (remote_event ro) evs))
              | None => None
              end
          end
      end
  end.

Fixpoint hexec (r : Request) (st : Invocation) (acts : list HAction) : option Invocation :=
  match acts with
  | [] => Some st
  | a :: rest =>
      match hstep r st a with
      | Some st1 => hexec r st1 rest
      | None => None
      end
  end.

(** The states one invocation with request [r] can be in. *)
Definition reachable (r : Request) (st : Invocation) : Prop :=
  exists acts, hexec r (M_begin r) acts = Some st.

(* ===================================================================== *)
(** ** [GlueStartJobRun.constructor] *)
(* ===================================================================== *)

Module Glue.

Inductive IntegrationPattern := REQUEST_RESPONSE | RUN_JOB | WAIT_FOR_TASK_TOKEN.

Definition pattern_eqb (a b : IntegrationPattern) : bool :=
  match a, b with
  | REQUEST_RESPONSE, REQUEST_RESPONSE
  | RUN_JOB, RUN_JOB
  | WAIT_FOR_TASK_TOKEN, WAIT_FOR_TASK_TOKEN => true
  | _, _ => false
  end.

(** The properties the constructor itself reads. *)
Record GlueStartJobRunProps := mkProps {
  glueJobName : string;
  integrationPattern : option IntegrationPattern;
  numberOfWorkers : option JS.number
}.

Definition SUPPORTED_INTEGRATION_PATTERNS : list IntegrationPattern :=
  [REQUEST_RESPONSE; RUN_JOB].

Definition unsupported_message : string :=
  "Unsupported service integration pattern".

(** [validatePatternSupported] is imported from [../private/task-utils];
    as its call site and the test "Task throws if WAIT_FOR_TASK_TOKEN is
    supplied as service integration pattern" have it, it throws unless the
    pattern is one of the supported ones. *)
Definition validatePatternSupported (p : IntegrationPattern)
    (supported : list IntegrationPattern) : option JS.error :=
  if existsb (pattern_eqb p) supported then None
  else Some (JS.Error unsupported_message).

Definition workers_message : string :=
  "`numberOfWorkers` must be an integer greater than 0".

Definition one : JS.number := JS.of_pos 1.

Record GlueStartJobRun := mkTask {
  task_props : GlueStartJobRunProps;
  task_integrationPattern : IntegrationPattern
}.

Section Constructor.
(** [Token.isUnresolved] on a number, from the core package. *)
Variable isUnresolved : JS.number -> bool.

(** The condition of the [if] at lines 90-94. *)
Definition workers_invalid (props : GlueStartJobRunProps) : bool :=
  match numberOfWorkers props with
  | None => false
  | Some n =>
      JS.truthy n && negb (isUnresolved n)
      && (negb (JS.isInteger n) || JS.lt n one)
  end.

(** The constructor up to the [throw] at line 95, the base-class
    constructor taken to return. *)
Definition constructor (props : GlueStartJobRunProps) : JS.error + GlueStartJobRun :=
  let pattern :=
    match integrationPattern props with
    | Some p => p
    | None => REQUEST_RESPONSE
    end in
  match validatePatternSupported pattern SUPPORTED_INTEGRATION_PATTERNS with
  | Some err => inl err
  | None =>
      if workers_invalid props then inl (JS.Error workers_message)
      else inr (mkTask props pattern)
  end.

End Constructor.

End Glue.

(* ===================================================================== *)
(** ** [RecordSet.constructor] *)
(* ===================================================================== *)

Module Route53.

Record GeoLocation := mkGeoLocation {
  continentCode : option string;
  countryCode : option string;
  subdivisionCode : option string
}.

Record CidrRoutingConfig := mkCidrRoutingConfig {
  cidrList : option (list string);
  locationName : string;
  collectionName : option string
}.

(** An alias target, by the DNS name it binds to. *)
Record AliasRecordTarget := mkAlias { dnsName : string }.

Record RecordTarget := mkTarget {
  values : option (list string);
  aliasTarget : option AliasRecordTarget
}.

(** The properties read by the validations that open the constructor. *)
Record RecordSetProps := mkRecordSetProps {
  target : RecordTarget;
  geoLocation : option GeoLocation;
  weight : option JS.number;
  cidrRoutingConfig : option CidrRoutingConfig;
  region : option string;
  multiValueAnswer : option bool;
  setIdentifier : option string
}.

(** ToBoolean on an optional property. *)
Definition truthy_opt {X} (t : X -> bool) (v : option X) : bool :=
  match v with Some x => t x | None => false end.

Definition is_defined {X} (v : option X) : bool :=
  match v with Some _ => true | None => false end.

Definition render_nat (n : nat) : string :=
  DecimalString.NilEmpty.string_of_uint (Nat.to_uint n).

Definition only_one_message : string :=
  "Only one of region, weight, multiValueAnswer, cidrRoutingConfig or geoLocation can be defined".

(** [[geoLocation, region, weight, multiValueAnswer, cidrRoutingConfig]
     .filter((variable) => variable !== undefined).length]. *)
Definition nonSimpleRoutingPolicies (props : RecordSetProps) : nat :=
  List.length
    (filter (fun defined : bool => defined)
       [is_defined (geoLocation props);
        is_defined (region props);
        is_defined (weight props);
        is_defined (multiValueAnswer props);
        is_defined (cidrRoutingConfig props)]).

Section Constructor.
(** [`${n}`] on a number. *)
Variable Number_toString : JS.number -> string.

Definition max_weight : JS.number := JS.of_pos 255.

Definition weight_check (props : RecordSetProps) : option JS.error :=
  match weight props with
  | Some wt =>
      if JS.truthy wt && (JS.lt wt JS.zero || JS.gt wt max_weight)
      then Some (JS.Error ("weight must be between 0 and 255 inclusive, got: "
                           ++ Number_toString wt)%string)
      else None
  | None => None
  end.

Definition setIdentifier_length_check (props : RecordSetProps) : option JS.error :=
  match setIdentifier props with
  | Some id =>
      if JS.truthy_string id
         && ((String.length id <? 1)%nat || (128 <? String.length id)%nat)
      then Some (JS.Error ("setIdentifier must be between 1 and 128 characters long, got: "
                           ++ render_nat (String.length id))%string)
      else None
  | None => None
  end.

Definition setIdentifier_policy_check (props : RecordSetProps) : option JS.error :=
  if truthy_opt JS.truthy_string (setIdentifier props)
     && negb (is_defined (weight props))
     && negb (truthy_opt (fun _ => true) (geoLocation props))
     && negb (truthy_opt JS.truthy_string (region props))
     && negb (truthy_opt (fun b : bool => b) (multiValueAnswer props))
     && negb (truthy_opt (fun _ => true) (cidrRoutingConfig props))
  then Some (JS.Error "setIdentifier can only be specified for non-simple routing policies")
  else None.

Definition multiValue_alias_check (props : RecordSetProps) : option JS.error :=
  if truthy_opt (fun b : bool => b) (multiValueAnswer props)
     && truthy_opt (fun _ => true) (aliasTarget (target props))
  then Some (JS.Error "multiValueAnswer cannot be specified for alias record")
  else None.

(** The four validations ahead of the routing-policy count. *)
Definition earlier_checks (props : RecordSetProps) : option JS.error :=
  match weight_check props with
  | Some err => Some err
  | None =>
      match setIdentifier_length_check props with
      | Some err => Some err
      | None =>
          match setIdentifier_policy_check props with
          | Some err => Some err
          | None => multiValue_alias_check props
          end
      end
  end.

(** The constructor through line 380: the error it throws there, or
    [None] when control goes on to the assignments. *)
Definition constructor_checks (props : RecordSetProps) : option JS.error :=
  match earlier_checks props with
  | Some err => Some err
  | None =>
      if (1 <? nonSimpleRoutingPolicies props)%nat
      then Some (JS.Error only_one_message)
      else None
  end.

End Constructor.

End Route53.


(* ===================================================================== *)
(** ** The queue class [d] on its linked nodes *)
(* ===================================================================== *)

Module LinkedQueue.
Section Heap.
Context {T : Type}.

(** An object of class [l]: [{value, next}]. *)
Record Node := mkNode { value : T; next : option nat }.

(** The objects of class [l] created so far, by address (the rank of
    their creation), and the fields of one object of class [d]. *)
Record State := mkState {
  heap : list Node;
  _head : option nat;
  _tail : option nat;
  _size : Z
}.

(** [this._head = void 0, this._tail = void 0, this._size = 0]. *)
Definition clear (s : State) : State := mkState (heap s) None None 0%Z.

(** [new d()]: the constructor runs [this.clear()]. *)
Definition new : State := clear (mkState [] None None 0%Z).

(** [node.next = t] on the object at address [a]. *)
Fixpoint set_next (a : nat) (t : nat) (h : list Node) : list Node :=
  match h, a with
  | [], _ => []
  | nd :: rest, O => mkNode (value nd) (Some t) :: rest
  | nd :: rest, S a' => nd :: set_next a' t rest
  end.

(** [enqueue(e)]; [None] stands for the TypeError of [this._tail.next = t]
    on an undefined [_tail]. *)
Definition enqueue (e : T) (s : State) : option State :=
  let t := List.length (heap s) in
  let h := heap s ++ [mkNode e None] in
  match _head s with
  | Some _ =>
      match _tail s with
      | Some tl => Some (mkState (set_next tl t h) (_head s) (Some t) (_size s + 1)%Z)
      | None => None
      end
  | None => Some (mkState h (Some t) (Some t) (_size s + 1)%Z)
  end.

(** [dequeue()]: the value of the head, or [undefined] on an empty queue;
    [_tail] is left as it is. *)
Definition dequeue (s : State) : option T * State :=
  match _head s with
  | Some e =>
      match nth_error (heap s) e with
      | Some nd => (Some (value nd), mkState (heap s) (next nd) (_tail s) (_size s - 1)%Z)
      | None => (None, s)
      end
  | None => (None, s)
  end.

Definition size (s : State) : Z := _size s.

(** The iterator: [let e = this._head; for (; e;) yield e.value, e = e.next],
    the values it yields within [fuel] rounds. *)
Fixpoint iterate (fuel : nat) (h : list Node) (e : option nat) : option (list T) :=
  match e with
  | None => Some []
  | Some a =>
      match fuel with
      | O => None
      | S fuel' =>
          match nth_error h a with
          | Some nd => option_map (cons (value nd)) (iterate fuel' h (next nd))
          | None => None
          end
      end
  end.

Definition to_list (s : State) : option (list T) :=
  iterate (List.length (heap s)) (heap s) (_head s).

(** The calls a user of the class can make, and what they return. *)
Inductive Op :=
| Enqueue (e : T)
| Dequeue
| Clear
| Size.

Inductive Ret :=
| Returned (v : option T)
| SizeIs (n : Z).

Definition apply_linked (op : Op) (s : State) : option (State * Ret) :=
  match op with
  | Enqueue e =>
      match enqueue e s with
      | Some s' => Some (s', Returned None)
      | None => None
      end
  | Dequeue => let (v, s') := dequeue s in Some (s', Returned v)
  | Clear => Some (clear s, Returned None)
  | Size => Some (s, SizeIs (size s))
  end.

Fixpoint run_linked (ops : list Op) (s : State) : option (State * list Ret) :=
  match ops with
  | [] => Some (s, [])
  | op :: rest =>
      match apply_linked op s with
      | Some (s1, r) =>
          match run_linked rest s1 with
          | Some (s2, rs) => Some (s2, r :: rs)
          | None => None
          end
      | None => None
      end
  end.

(** From address [a] the [next] links spell the values [l] and end at
    address [tl]; links go from older to newer objects. *)
Inductive chain (h : list Node) : nat -> list T -> nat -> Prop :=
| chain_one a nd :
    nth_error h a = Some nd -> next nd = None ->
    chain h a [value nd] a
| chain_cons a nd b l tl :
    nth_error h a = Some nd -> next nd = Some b -> (a < b)%nat ->
    chain h b l tl ->
    chain h a (value nd :: l) tl.

(** The object [s] holds the values [l], first in first. *)
Definition repr (s : State) (l : list T) : Prop :=
  _size s = Z.of_nat (List.length l)
  /\ match l with
     | [] => _head s = None
     | _ => exists a tl, _head s = Some a /\ _tail s = Some tl
                         /\ chain (heap s) a l tl
     end.

End Heap.
Arguments Node : clear implicits.
Arguments State : clear implicits.
Arguments Op : clear implicits.
Arguments Ret : clear implicits.
End LinkedQueue.

(** The same calls on the list of values. *)
Definition apply_list {T} (op : LinkedQueue.Op T) (q : @Queue T) : @Queue T * LinkedQueue.Ret T :=
  match op with
  | LinkedQueue.Enqueue e => (enqueue e q, LinkedQueue.Returned None)
  | LinkedQueue.Dequeue => let (v, q') := dequeue q in (q', LinkedQueue.Returned v)
  | LinkedQueue.Clear => (clear q, LinkedQueue.Returned None)
  | LinkedQueue.Size => (q, LinkedQueue.SizeIs (size q))
  end.

Fixpoint run_list {T} (ops : list (LinkedQueue.Op T)) (q : @Queue T) : @Queue T * list (LinkedQueue.Ret T) :=
  match ops with
  | [] => (q, [])
  | op :: rest =>
      let (q1, r) := apply_list op q in
      let (q2, rs) := run_list rest q1 in
      (q2, r :: rs)
  end.


(* ===================================================================== *)
(** ** [GlueStartJobRun.getPolicies] *)
(* ===================================================================== *)

Module GluePolicies.

(** What [getPolicies] puts into its [iam.PolicyStatement]. *)
Record PolicyStatement := mkStatement {
  resources : list string;
  actions : option (list string)
}.

Section Policies.
(** [Stack.of(this).formatArn({service, resource, resourceName})]. *)
Variable formatArn : string -> string -> string -> string.

Definition iamActions (p : Glue.IntegrationPattern) : option (list string) :=
  if Glue.pattern_eqb p Glue.REQUEST_RESPONSE then Some ["glue:StartJobRun"]
  else if Glue.pattern_eqb p Glue.RUN_JOB then
    Some ["glue:StartJobRun"; "glue:GetJobRun"; "glue:GetJobRuns";
          "glue:BatchStopJobRun"]
  else None.

Definition getPolicies (this : Glue.GlueStartJobRun) : list PolicyStatement :=
  [mkStatement
     [formatArn "glue" "job" (Glue.glueJobName (Glue.task_props this))]
     (iamActions (Glue.task_integrationPattern this))].

End Policies.

End GluePolicies.

(* ===================================================================== *)
(** ** Record sets: identifiers, TXT values, delegations *)
(* ===================================================================== *)

Module Records.





Section Identifier.
Variable Number_toString : JS.number -> string.
(** [Names.uniqueResourceName(this, { maxLength })]. *)
Variable uniqueResourceName : Z -> string.




End Identifier.

(** *** The validations of [cidrRoutingConfig] *)

(** A character of the class [[0-9A-Za-z_\-]]. *)
Definition name_char (c : ascii) : bool :=
  let n := nat_of_ascii c in
  ((48 <=? n) && (n <=? 57) || (65 <=? n) && (n <=? 90)
   || (97 <=? n) && (n <=? 122) || (n =? 95) || (n =? 45))%nat.

Fixpoint all_chars (p : ascii -> bool) (s : string) : bool :=
  match s with
  | EmptyString => true
  | String c rest => p c && all_chars p rest
  end.

(** [/^[0-9A-Za-z_\-]+$/.test(s)]: one character of the class or more,
    and nothing else. *)
Definition name_pattern_test (s : string) : bool :=
  JS.truthy_string s && all_chars name_char s.

(** A [CfnCidrCollection] passed in as [collection]; the validations
    only look at whether there is one. *)
Record CfnCidrCollection := mkCollection {
  name : string;
  locations : option (list (option (list string) * string))
}.

Definition locationName_length_check (cfg : Route53.CidrRoutingConfig) : option JS.error :=
  let locationName := Route53.locationName cfg in
  if JS.truthy_string locationName
     && ((String.length locationName <? 1)%nat || (16 <? String.length locationName)%nat)
  then Some (JS.Error ("locationName must be between 1 and 16 characters long, got: "
                       ++ Route53.render_nat (String.length locationName))%string)
  else None.

Definition default_cidrList_check (cfg : Route53.CidrRoutingConfig) : option JS.error :=
  if String.eqb (Route53.locationName cfg) "*" && Route53.is_defined (Route53.cidrList cfg)
  then Some (JS.Error "cidrList can only be specified for non-default locations")
  else None.

Definition default_collection_check (cfg : Route53.CidrRoutingConfig)
    (collection : option CfnCidrCollection) : option JS.error :=
  if String.eqb (Route53.locationName cfg) "*" && Route53.is_defined collection
  then Some (JS.Error "Default location cannot be specified when using an existing CIDR collection")
  else None.

Definition locationName_pattern_check (cfg : Route53.CidrRoutingConfig) : option JS.error :=
  let locationName := Route53.locationName cfg in
  if JS.truthy_string locationName && negb (name_pattern_test locationName)
     && negb (String.eqb locationName "*")
  then Some (JS.Error ("locationName must only contain alphanumeric characters, underscores, and hyphens, or only '*', got: "
                       ++ locationName)%string)
  else None.

Definition cidrList_length_check (cfg : Route53.CidrRoutingConfig) : option JS.error :=
  match Route53.cidrList cfg with
  | Some cidrList =>
      if (List.length cidrList <? 1)%nat || (1000 <? List.length cidrList)%nat
      then Some (JS.Error ("cidrList must contain between 1 and 1000 elements, got: "
                           ++ Route53.render_nat (List.length cidrList))%string)
      else None
  | None => None
  end.

Definition collectionName_length_check (cfg : Route53.CidrRoutingConfig) : option JS.error :=
  match Route53.collectionName cfg with
  | Some collectionName =>
      if JS.truthy_string collectionName
         && ((String.length collectionName <? 1)%nat
             || (64 <? String.length collectionName)%nat)
      then Some (JS.Error ("collectionName must be between 1 and 64 characters long, got: "
                           ++ Route53.render_nat (String.length collectionName))%string)
      else None
  | None => None
  end.

Definition collectionName_pattern_check (cfg : Route53.CidrRoutingConfig) : option JS.error :=
  match Route53.collectionName cfg with
  | Some collectionName =>
      if JS.truthy_string collectionName && negb (name_pattern_test collectionName)
      then Some (JS.Error ("collectionName must only contain alphanumeric characters, underscores, and hyphens, got: "
                           ++ collectionName)%string)
      else None
  | None => None
  end.

(** The first of a row of validations that throws. *)
Fixpoint first_error (checks : list (option JS.error)) : option JS.error :=
  match checks with
  | [] => None
  | Some err :: _ => Some err
  | None :: rest => first_error rest
  end.

(** The seven validations under [if (props.cidrRoutingConfig)], in the
    order of the source. *)
Definition cidr_checks (cfg : Route53.CidrRoutingConfig)
    (collection : option CfnCidrCollection) : option JS.error :=
  first_error [locationName_length_check cfg;
               default_cidrList_check cfg;
               default_collection_check cfg collection;
               locationName_pattern_check cfg;
               cidrList_length_check cfg;
               collectionName_length_check cfg;
               collectionName_pattern_check cfg].

Section IpBasedRouting.
Variable uniqueResourceName : Z -> string.

(** [configureIpBasedRouting] without an existing collection: the
    properties of the [CfnCidrCollection] it creates. *)
Definition new_CidrCollection (cfg : Route53.CidrRoutingConfig) : CfnCidrCollection :=
  let locationName := Route53.locationName cfg in
  let cidrList := Route53.cidrList cfg in
  let isDefaultLocation := String.eqb locationName "*" in
  mkCollection
    (match Route53.collectionName cfg with
     | Some n => n
     | None => uniqueResourceName 64
     end)
    (if isDefaultLocation then None
     else Some [(Some (match cidrList with Some l => l | None => [] end),
                 locationName)]).

End IpBasedRouting.

(** A name the pattern accepts, within [n] characters. *)
Definition plain_name (n : nat) (s : string) : Prop :=
  (1 <= String.length s <= n)%nat
  /\ forall i c, String.get i s = Some c -> name_char c = true.

(** *** [RecordTarget] *)

Definition fromValues (values : list string) : Route53.RecordTarget :=
  Route53.mkTarget (Some values) None.

Definition fromAlias (aliasTarget : Route53.AliasRecordTarget) : Route53.RecordTarget :=
  Route53.mkTarget None (Some aliasTarget).

Definition fromIpAddresses (ipAddresses : list string) : Route53.RecordTarget :=
  fromValues ipAddresses.

(** *** [formatTxt] *)

Section FormatTxt.
Variable JSON_stringify : string -> string.

(** The [while] loop, [fuel] rounds of it at most:
    [result.push(string.slice(idx, idx += 255))]. Strings are taken as
    sequences of code units, which [length] and [slice] count. *)
Fixpoint formatTxt_loop (fuel : nat) (s : string) (idx : nat)
    (result : list string) : option (list string) :=
  if (idx <? String.length s)%nat then
    match fuel with
    | O => None
    | S fuel' =>
        formatTxt_loop fuel' s (idx + 255) (result ++ [substring idx 255 s])
    end
  else Some result.

Definition formatTxt_chunks (s : string) : option (list string) :=
  formatTxt_loop (String.length s) s 0 [].

(** [result.map(r => JSON.stringify(r)).join('')]. *)
Definition formatTxt (s : string) : option string :=
  match formatTxt_chunks s with
  | Some result => Some (String.concat "" (map JSON_stringify result))
  | None => None
  end.

End FormatTxt.

(** *** [ZoneDelegationRecord] *)

(** [s.endsWith(search)]. *)
Definition endsWith (s search : string) : bool :=
  (String.length search <=? String.length s)%nat
  && String.eqb (substring (String.length s - String.length search)
                           (String.length search) s) search.

Section ZoneDelegation.
(** [Token.isUnresolved] on a string and on the array itself. *)
Variable isUnresolved : string -> bool.
Variable isUnresolvedList : list string -> bool.

(** [ns => (Token.isUnresolved(ns) || ns.endsWith('.')) ? ns : `${ns}.`]. *)
Definition qualify (ns : string) : string :=
  if isUnresolved ns || endsWith ns "." then ns else (ns ++ ".")%string.

Definition ZoneDelegationRecord_target (nameServers : list string)
  : Route53.RecordTarget :=
  fromValues (if isUnresolvedList nameServers then nameServers
              else map qualify nameServers).

End ZoneDelegation.

(** *** [CrossAccountZoneDelegationRecord] *)

Definition at_least_one_message : string :=
  "At least one of parentHostedZoneName or parentHostedZoneId is required".

Definition only_one_parent_message : string :=
  "Only one of parentHostedZoneName and parentHostedZoneId is supported".

(** The two guards that open the constructor. *)
Definition CrossAccountZoneDelegationRecord_checks
    (parentHostedZoneName parentHostedZoneId : option string) : option JS.error :=
  if negb (Route53.truthy_opt JS.truthy_string parentHostedZoneName)
     && negb (Route53.truthy_opt JS.truthy_string parentHostedZoneId)
  then Some (JS.Error at_least_one_message)
  else if Route53.truthy_opt JS.truthy_string parentHostedZoneName
          && Route53.truthy_opt JS.truthy_string parentHostedZoneId
  then Some (JS.Error only_one_parent_message)
  else None.

(** A string that is there and not empty. *)
Definition given (v : option string) : Prop :=
  exists s, v = Some s /\ s <> "".

End Records.
(* ===================================================================== *)
(** ** Vocabulary of the statements *)
(* ===================================================================== *)

(** The number [x] is the integer [n]. *)
Definition denotes (x : JS.number) (n : Z) : Prop :=
  exists q, JS.real x = Some q /\ Qeq q (inject_Z n).

Definition is_positive_integer (v : JS.value) : Prop :=
  exists x n, v = JS.VNumber x /\ (0 < n)%Z /\ denotes x n.

Definition is_unbounded (v : JS.value) : Prop := v = JS.VNumber JS.Infinity.

Section LimiterVocabulary.
Context {A V E : Type}.
Implicit Types (w : World A V E) (it : Item A).

(** The counter covers every entry between its [t++] and its [t--], and
    stays within the concurrency. *)
Definition counted w : Prop :=
  (Z.of_nat (length (running w) + length (resuming w)) <= activeCount (limiter w))%Z
  /\ within (activeCount (limiter w)) (concurrency (limiter w)).

(** Entries that have not settled: invoked or still queued. *)
Definition pending w : list (Item A) := running w ++ queue (limiter w).

(** Book-keeping that every world reached from a fresh limiter satisfies:
    tickets are the ranks of the futures, no entry is pending twice, a
    pending entry has no settled future, and only submitted entries occur. *)
Record well_formed w : Prop := mk_well_formed {
  wf_tickets : map ticket (submitted w) = seq 0 (length (submitted w));
  wf_nodup : NoDup (pending w);
  wf_incl : incl (pending w) (submitted w);
  wf_unsettled : forall it, In it (pending w) -> future_of (ticket it) w = None;
  wf_futures : forall it r, In (it, r) (futures w) -> In it (submitted w)
}.

(** [a] occurs before [b] in [l]. *)
Definition precedes {X} (a b : X) (l : list X) : Prop :=
  exists l1 l2 l3, l = l1 ++ a :: l2 ++ b :: l3.

(** The same schedule, with the operation of entry [k] ending in [r]. *)
Definition with_outcome (k : nat) (r : Outcome V E) (acts : list (Action A V E))
  : list (Action A V E) :=
  map (fun a => match a with
                | Settle k' _ => if Nat.eqb k' k then Settle k r else a
                | _ => a
                end) acts.

(** Two worlds that differ at most in how the future of entry [k] settled. *)
Definition same_but (k : nat) (w1 w2 : World A V E) : Prop :=
  limiter w1 = limiter w2 /\ ticks w1 = ticks w2 /\ running w1 = running w2
  /\ resuming w1 = resuming w2 /\ submitted w1 = submitted w2
  /\ map fst (futures w1) = map fst (futures w2)
  /\ forall k', k' <> k -> future_of k' w1 = future_of k' w2.

(** Events up to the settlements they report. *)
Definition same_invocations (ev1 ev2 : list (Event A V E)) : Prop :=
  map (fun ev => match ev with Invoked it | Settled it _ => it end) ev1 =
  map (fun ev => match ev with Invoked it | Settled it _ => it end) ev2
  /\ forall it, In (Invoked it) ev1 <-> In (Invoked it) ev2.

Definition settles (k : nat) (acts : list (Action A V E)) : Prop :=
  exists r, In (Settle k r) acts.

End LimiterVocabulary.

(** A fan-out whose every operation has settled well and whose limiter
    has nothing left to do. *)
Definition quiescent (wd : FanOut) : Prop :=
  running wd = [] /\ queue (limiter wd) = []
  /\ (forall it r, In (it, r) (futures wd) -> exists v, r = Fulfilled v)
  /\ (forall it, In it (submitted wd) -> exists v, In (it, Fulfilled v) (futures wd)).

Section HandlerVocabulary.
Variable r : Request.

Definition current_keys : list string :=
  Object_keys (imports (ResourceProperties r)).

Definition prior_keys : list string :=
  match OldResourceProperties r with
  | Some old => Object_keys (imports old)
  | None => []
  end.

(** The references the invocation is to tag and to untag. *)
Definition to_tag : list string :=
  match RequestType r with
  | Create => current_keys
  | Update => P current_keys prior_keys
  | Delete => []
  end.

Definition to_untag : list string :=
  match RequestType r with
  | Create => []
  | Update => P prior_keys current_keys
  | Delete => current_keys
  end.

Definition commands (tag : bool) : list Command :=
  if tag then w_commands to_tag (tag_key (ResourceProperties r))
  else x_commands to_untag (tag_key (ResourceProperties r)).

Definition expected_response : Response :=
  match RequestType r with
  | Delete => Undefined
  | _ => Data (imports (ResourceProperties r))
  end.

Definition fan_ok (cmds : list Command) (wd : FanOut) : Prop :=
  well_formed wd /\ counted wd /\ concurrency (limiter wd) = Finite 10
  /\ map operation (submitted wd) = cmds.

(** What holds of every state of an invocation. *)
Record consistent (st : Invocation) : Prop := mk_consistent {
  cs_fans : forall tag wd, fan tag st = Some wd -> fan_ok (commands tag) wd;
  cs_running : forall tag wd it,
    fan tag st = Some wd -> In it (running wd) ->
    In (Call (operation it)) (trace st);
  cs_futures : forall tag wd it o,
    fan tag st = Some wd -> In (it, o) (futures wd) ->
    In (Call (operation it)) (trace st)
    /\ exists ro, o = operation_outcome (operation it) ro
                  /\ In (Return (operation it) ro) (trace st);
  cs_calls : forall c,
    In (Call c) (trace st) ->
    exists tag wd, fan tag st = Some wd /\ In c (commands tag);
  cs_returns : forall c ro,
    In (Return c ro) (trace st) ->
    exists tag wd it, fan tag st = Some wd
                      /\ In (it, operation_outcome c ro) (futures wd);
  cs_phase :
    match phase st with
    | Releasing => (exists wd, releasing st = Some wd) /\ tagging st = None
                   /\ result st = None /\ RequestType r <> Create
    | Tagging => (exists wd, tagging st = Some wd) /\ result st = None
                 /\ RequestType r <> Delete
    | Finished => result st <> None
    end;
  cs_released :
    tagging st <> None ->
    (commands false <> [] -> releasing st <> None)
    /\ forall wd, releasing st = Some wd -> quiescent wd;
  cs_rejected : forall e,
    result st = Some (Rejected e) ->
    e = old_imports_error
    \/ exists tag wd it, fan tag st = Some wd /\ In (it, Rejected e) (futures wd);
  cs_success : forall v,
    result st = Some (Fulfilled v) ->
    v = expected_response
    /\ (forall tag wd, fan tag st = Some wd -> quiescent wd)
    /\ (forall tag, commands tag <> [] -> fan tag st <> None)
}.

(** Every tag call comes after the return of every untag call. *)
Definition ordered (st : Invocation) : Prop :=
  forall post pre c,
    trace st = post ++ Call c :: pre -> is_add c = true ->
    forall u, In u (commands false) -> exists ro, In (Return u ro) pre.

End HandlerVocabulary.

(** The state a schedule leads to, the initial one if it cannot run. *)
Definition final (r : Request) (acts : list HAction) : Invocation :=
  match hexec r (M_begin r) acts with
  | Some st => st
  | None => M_begin r
  end.

(** *** Sample invocations *)

Definition sample_props : ReaderProps :=
  mkReaderProps [("a", "r1"); ("b", "r2")] "stack" "us-east-1".

Definition sample_create : Request := mkRequest Create sample_props None.

Definition sample_create_schedule : list HAction :=
  [HTurn true; HTurn true; HSettle true 0 Responded; HSettle true 1 Responded;
   HResume true 0; HResume true 1; HAwait].

(** From [{a: r1, b: r2}] to [{a: r1, c: r3}]. *)
Definition sample_update : Request :=
  mkRequest Update
            (mkReaderProps [("a", "r1"); ("c", "r3")] "stack" "us-east-1")
            (Some sample_props).

Definition sample_update_schedule : list HAction :=
  [HTurn false; HSettle false 0 Responded; HResume false 0; HAwait;
   HTurn true; HSettle true 0 Responded; HResume true 0; HAwait].

Definition throttled : SdkError := mkSdkError "ThrottlingException" "Rate exceeded".


Definition sample_key : string := "aws-cdk:strong-ref:stack".

(** *** A sample limiter of concurrency 1 with two queued operations *)

Definition sample_limiter : Limiter (Item nat) := mkLimiter (Finite 1) [] 0%Z.

Definition sample_queued : World nat unit string :=
  u 20 (u 10 (fresh sample_limiter)).

Definition sample_first : Item nat := mkItem 0 10.
Definition sample_second : Item nat := mkItem 1 20.

Definition sample_run : list (Action nat unit string) :=
  [Turn; Settle 0 (Fulfilled tt); Resume 0].

Definition sample_done : World nat unit string :=
  mkWorld (mkLimiter (Finite 1) [] 1%Z) 1 [sample_second] []
          [(sample_first, Fulfilled tt)] [sample_first; sample_second].

(** Latest first. *)
Definition sample_events : list (Event nat unit string) :=
  [Invoked sample_second; Settled sample_first (Fulfilled tt);
   Invoked sample_first].

(* ===================================================================== *)
(** ** Further vocabulary *)
(* ===================================================================== *)

Section MoreLimiterVocabulary.
Context {A V E : Type}.
Implicit Types (w : World A V E) (it : Item A).

(** Free slots a queued entry could take are covered by admission turns
    still to run. *)
Definition served w : Prop :=
  match concurrency (limiter w) with
  | Finite n =>
      (Z.min (size (queue (limiter w))) (n - activeCount (limiter w))
       <= Z.of_nat (ticks w))%Z
  | Unbounded => (size (queue (limiter w)) <= Z.of_nat (ticks w))%Z
  end.

(** The ticket [k] was handed out and its entry is neither queued nor
    running. *)
Definition retired (k : nat) w : Prop :=
  (k < length (submitted w))%nat
  /\ forall it, In it (pending w) -> ticket it <> k.

Definition is_clear (a : Action A V E) : bool :=
  match a with Clear => true | _ => false end.

(** The counter is exactly the number of entries between their [t++] and
    their [t--]; these entries are distinct, and those past their
    settlement have a settled future. *)
Definition tally w : Prop :=
  activeCount (limiter w)
  = Z.of_nat (length (running w) + length (resuming w))
  /\ NoDup (map ticket (running w ++ resuming w))
  /\ forall it, In it (resuming w) -> future_of (ticket it) w <> None.

(** No future was lost: every entry is queued, running or settled. *)
Definition accounted w : Prop :=
  forall it, In it (submitted w) ->
    In it (queue (limiter w)) \/ In it (running w)
    \/ future_of (ticket it) w <> None.

(** Nothing left to do: no entry is queued or active. *)
Definition drained w : Prop :=
  queue (limiter w) = [] /\ running w = [] /\ resuming w = []
  /\ activeCount (limiter w) = 0%Z.

(** What is left to do, as a number that every useful step lowers. *)
Definition backlog w : nat :=
  3 * length (queue (limiter w)) + 2 * length (running w) + length (resuming w).

(** A schedule of the event loop alone: no [u], no [clearQueue]. *)
Definition loop_only (acts : list (Action A V E)) : Prop :=
  forall a, In a acts ->
    match a with Submit _ | Clear => False | _ => True end.

(** The concurrency admits at least one operation. *)
Definition admits_one (r : Limit) : Prop :=
  match r with Finite n => (1 <= n)%Z | Unbounded => True end.

(** The invariants of a world reached from a fresh limiter. *)
Definition sound w : Prop :=
  well_formed w /\ tally w /\ served w /\ admits_one (concurrency (limiter w)).

End MoreLimiterVocabulary.




(** The request changes nothing: an update between ImportSets with the
    same names, or a creation or deletion without imports. *)
Definition no_change (r : Request) : Prop :=
  match RequestType r with
  | Update =>
      exists old, OldResourceProperties r = Some old
        /\ incl (Object_keys (imports (ResourceProperties r))) (Object_keys (imports old))
        /\ incl (Object_keys (imports old)) (Object_keys (imports (ResourceProperties r)))
  | _ => imports (ResourceProperties r) = []
  end.

(** An update that only reorders names and changes values. *)
Definition sample_reorder : Request :=
  mkRequest Update
            (mkReaderProps [("b", "r9"); ("a", "r1")] "stack" "us-east-1")
            (Some sample_props).

(** From [{a: r1, b: r2}] to [{a: r1}], the untag call for [b] failing. *)
Definition sample_shrink : Request :=
  mkRequest Update (mkReaderProps [("a", "r1")] "stack" "us-east-1")
            (Some sample_props).

Definition sample_failed_untag_schedule : list HAction :=
  [HTurn false; HSettle false 0 (Failed throttled); HResume false 0; HAwait].

Section LiveVocabulary.
Variable r : Request.

(** What an invocation needs to keep going. *)
Record live (st : Invocation) : Prop := mk_live {
  lv_fans : forall tag wd, fan tag st = Some wd -> sound wd /\ accounted wd;
  lv_old : phase st = Releasing -> RequestType r = Update ->
           OldResourceProperties r <> None
}.

(** No operation of the invocation has been rejected. *)
Definition spotless (st : Invocation) : Prop :=
  forall tag wd it e, fan tag st = Some wd -> ~ In (it, Rejected e) (futures wd).

End LiveVocabulary.

(** A remote side whose answers fail no operation: each command is
    answered, or its failure is one the operation swallows. *)
Definition benign (remote : Command -> RemoteOutcome) : Prop :=
  forall c, exists v, operation_outcome c (remote c) = Fulfilled v.

(** How the operation of an entry ends when the remote side answers
    its command with [remote]. *)
Definition answer (remote : Command -> RemoteOutcome) (it : Item Command)
  : OpOutcome :=
  operation_outcome (operation it) (remote (operation it)).

(** The remote side of an already deleted parameter store: tagging
    succeeds, untagging reports [InvalidResourceId]. *)
Definition already_absent (c : Command) : RemoteOutcome :=
  if is_add c then Responded
  else Failed (mkSdkError "InvalidResourceId" "The resource ID is not valid").

Definition sample_delete : Request := mkRequest Delete sample_props None.

(* ===================================================================== *)
(** ** Numbers *)
(* ===================================================================== *)

Lemma isInteger_denotes (x : JS.number) :
  JS.isInteger x = true <-> exists n, denotes x n.
Proof.
  unfold JS.isInteger, denotes. split.
  - destruct (JS.real x) as [q|] eqn:Hq; [|discriminate].
    intros H. apply Qeq_bool_iff in H. exists (Qfloor q), q. auto.
  - intros (n & q & Hq & Hn). rewrite Hq. apply Qeq_bool_iff.
    rewrite Hn at 2. rewrite Qfloor_Z. exact Hn.
Qed.

Lemma gt_zero_cases (x : JS.number) :
  JS.gt x JS.zero = true <->
  x = JS.Infinity \/ exists q, JS.real x = Some q /\ Qlt 0 q.
Proof.
  unfold JS.gt, JS.lt, JS.zero, JS.Infinity.
  destruct x as [sg|sg| |sg m e]; simpl.
  - split; [discriminate|]. intros [H|(q & Hq & Hlt)]; [discriminate|].
    injection Hq as <-. exfalso. revert Hlt. apply Qlt_irrefl.
  - destruct sg; split; auto; try discriminate.
    intros [H|(q & Hq & _)]; discriminate.
  - split; [discriminate|]. intros [H|(q & Hq & _)]; discriminate.
  - match goal with
    | |- context [Qcompare ?a ?b] => destruct (Qcompare a b) eqn:Hc
    end; split; try discriminate; intros H; try reflexivity.
    + destruct H as [H|(q & Hq & Hlt)]; [discriminate|].
      injection Hq as <-. rewrite Qlt_alt in Hlt. congruence.
    + right. eexists. split; [reflexivity|]. apply Qlt_alt. exact Hc.
    + destruct H as [H|(q & Hq & Hlt)]; [discriminate|].
      injection Hq as <-. rewrite Qlt_alt in Hlt. congruence.
Qed.

Lemma strict_eq_Infinity (x : JS.number) :
  JS.strict_eq x JS.Infinity = true <-> x = JS.Infinity.
Proof.
  unfold JS.strict_eq, JS.Infinity.
  destruct x as [sg|sg| |sg m e]; try destruct sg; simpl; split; intros H;
    try discriminate H; reflexivity.
Qed.

Lemma concurrency_ok_spec (r : JS.value) :
  concurrency_ok r = true <-> is_positive_integer r \/ is_unbounded r.
Proof.
  unfold is_positive_integer, is_unbounded.
  destruct r as [| |b|x|str|]; simpl;
    try (split; [discriminate | intros [(x & n & H & _)|H]; discriminate]).
  rewrite andb_true_iff, orb_true_iff, isInteger_denotes,
    strict_eq_Infinity, gt_zero_cases.
  split.
  - intros [[(n & q & Hq & Hn)|Hinf] Hpos].
    + destruct Hpos as [->|(q' & Hq' & Hlt)]; [right; reflexivity|].
      left. exists x, n. split; [reflexivity|]. split.
      * rewrite Hq in Hq'. injection Hq' as <-. rewrite Hn in Hlt.
        rewrite (Zlt_Qlt 0 n). exact Hlt.
      * exists q. auto.
    + right. now subst.
  - intros [(x' & n & Hx & Hpos & q & Hq & Hn)|Hinf].
    + injection Hx as <-. split.
      * left. exists n, q. auto.
      * right. exists q. split; [exact Hq|]. rewrite Hn.
        change (inject_Z 0 < inject_Z n)%Q. rewrite <- (Zlt_Qlt 0 n). exact Hpos.
    + injection Hinf as ->. split; [right|left]; reflexivity.
Qed.

(* ===================================================================== *)
(** ** The limiter: counter bounds *)
(* ===================================================================== *)

Section LimiterProofs.
Context {A V E : Type}.
Implicit Types (w : World A V E) (it : Item A) (a : Action A V E).

Ltac open_world w :=
  let c := fresh "c" in let q := fresh "q" in let t := fresh "t" in
  let tk := fresh "tk" in let run := fresh "run" in let res := fresh "res" in
  let fut := fresh "fut" in let sub := fresh "sub" in
  destruct w as [[c q t] tk run res fut sub].

Lemma size_cons_pos (h : Item A) rest : (size (h :: rest) >? 0)%Z = true.
Proof. unfold size. rewrite Z.gtb_ltb. apply Z.ltb_lt.
  change (length (h :: rest)) with (S (length rest)). lia. Qed.

Lemma remove_ticket_shorter k (l : list (Item A)) x :
  find (has_ticket k) l = Some x ->
  (length (remove_ticket k l) < length l)%nat.
Proof.
  induction l as [|y l IH]; simpl; [discriminate|].
  unfold remove_ticket in *. simpl.
  destruct (has_ticket k y) eqn:Hy; simpl.
  - intros _. pose proof (filter_length_le (fun it => negb (has_ticket k it)) l). lia.
  - intros H. specialize (IH H). lia.
Qed.

Lemma below_within t r : below t r = true -> within (t + 1) r.
Proof. destruct r; simpl; [rewrite Z.ltb_lt; lia | trivial]. Qed.

Lemma step_concurrency w a w' evs :
  step w a = Some (w', evs) ->
  concurrency (limiter w') = concurrency (limiter w).
Proof.
  open_world w. destruct a; simpl; intros H.
  - injection H as <- _. reflexivity.
  - destruct tk; [discriminate|]. unfold admission_turn in H. simpl in H.
    destruct (below t c && (size q >? 0)%Z); destruct q; simpl in H;
      injection H as <- _; reflexivity.
  - destruct (find (has_ticket k) run); [|discriminate].
    injection H as <- _. reflexivity.
  - destruct (find (has_ticket k) res); [|discriminate].
    unfold o in H. simpl in H.
    destruct (size q >? 0)%Z; destruct q; simpl in H;
      injection H as <- _; reflexivity.
  - injection H as <- _. reflexivity.
Qed.

Lemma step_counted w a w' evs :
  counted w -> step w a = Some (w', evs) -> counted w'.
Proof.
  unfold counted. open_world w. simpl. intros [Hn Hw].
  destruct a; simpl; intros H.
  - injection H as <- _. simpl. auto.
  - destruct tk; [discriminate|]. unfold admission_turn in H. simpl in H.
    destruct (below t c) eqn:Hb; simpl in H.
    + destruct q as [|h rest]; simpl in H; injection H as <- _; simpl; auto.
      split; [lia | apply below_within, Hb].
    + injection H as <- _. simpl. auto.
  - destruct (find (has_ticket k) run) eqn:Hf; [|discriminate].
    injection H as <- _. simpl. split; [|exact Hw].
    pose proof (remove_ticket_shorter _ _ _ Hf). lia.
  - destruct (find (has_ticket k) res) eqn:Hf; [|discriminate].
    pose proof (remove_ticket_shorter _ _ _ Hf) as Hlt.
    unfold o in H. simpl in H.
    destruct q as [|h rest]; simpl in H; injection H as <- _; simpl.
    + split; [lia|]. destruct c; simpl in *; [lia|trivial].
    + split; [lia|]. replace (t - 1 + 1)%Z with t by lia. exact Hw.
  - injection H as <- _. simpl. auto.
Qed.

Lemma exec_counted acts : forall w w' evs,
  counted w -> exec w acts = Some (w', evs) -> counted w'.
Proof.
  induction acts as [|a rest IH]; simpl; intros w w' evs Hc H.
  - injection H as <- _. exact Hc.
  - destruct (step w a) as [[w1 ev1]|] eqn:Hs; [|discriminate].
    destruct (exec w1 rest) as [[w2 ev2]|] eqn:He; [|discriminate].
    injection H as <- _. eapply IH; [|exact He].
    eapply step_counted; eauto.
Qed.

Lemma exec_concurrency acts : forall w w' evs,
  exec w acts = Some (w', evs) ->
  concurrency (limiter w') = concurrency (limiter w).
Proof.
  induction acts as [|a rest IH]; simpl; intros w w' evs H.
  - injection H as <- _. reflexivity.
  - destruct (step w a) as [[w1 ev1]|] eqn:Hs; [|discriminate].
    destruct (exec w1 rest) as [[w2 ev2]|] eqn:He; [|discriminate].
    injection H as <- _. rewrite (IH _ _ _ He). eapply step_concurrency; eauto.
Qed.

Lemma z_returns (r : JS.value) (l : Limiter (Item A)) :
  z r = inr l ->
  concurrency_ok r = true /\ l = mkLimiter (limit_of r) [] 0%Z.
Proof.
  unfold z. destruct (concurrency_ok r); simpl; [|discriminate].
  intros H. injection H as <-. auto.
Qed.

Lemma limit_of_positive (r : JS.value) :
  concurrency_ok r = true -> within 0 (limit_of r).
Proof.
  intros H. apply concurrency_ok_spec in H.
  destruct H as [(x & n & Hx & Hpos & q & Hq & Hn)|Hx]; rewrite Hx.
  - simpl. rewrite Hq. simpl. rewrite Hn, Qfloor_Z. lia.
  - simpl. trivial.
Qed.

Lemma fresh_counted (r : JS.value) (l : Limiter (Item A)) :
  z r = inr l -> counted (fresh l : World A V E).
Proof.
  intros H. apply z_returns in H as [Hok ->]. unfold counted. simpl.
  split; [lia|]. apply limit_of_positive, Hok.
Qed.

End LimiterProofs.

(* ===================================================================== *)
(** ** The limiter: book-keeping invariant *)
(* ===================================================================== *)

Section WellFormed.
Context {A V E : Type}.
Implicit Types (w : World A V E) (it : Item A) (a : Action A V E).

Lemma settlement_none k (futs : list (Item A * Outcome V E)) :
  settlement k futs = None <-> forall it r, In (it, r) futs -> ticket it <> k.
Proof.
  unfold settlement. split.
  - destruct (find _ futs) as [[it0 r0]|] eqn:Hf; [discriminate|].
    intros _ it r Hin Heq.
    pose proof (find_none _ _ Hf _ Hin) as Hn. simpl in Hn.
    unfold has_ticket in Hn. rewrite Heq, Nat.eqb_refl in Hn. discriminate.
  - intros H. destruct (find _ futs) as [[it0 r0]|] eqn:Hf; [|reflexivity].
    apply find_some in Hf as [Hin Ht]. simpl in Ht.
    apply Nat.eqb_eq in Ht. exfalso. exact (H _ _ Hin Ht).
Qed.

Lemma settlement_some k (futs : list (Item A * Outcome V E)) r :
  settlement k futs = Some r -> exists it, In (it, r) futs /\ ticket it = k.
Proof.
  unfold settlement.
  destruct (find _ futs) as [[it0 r0]|] eqn:Hf; [|discriminate].
  intros H. injection H as <-. apply find_some in Hf as [Hin Ht].
  exists it0. split; [exact Hin|]. apply Nat.eqb_eq. exact Ht.
Qed.

Lemma settlement_cons_ne k it r (futs : list (Item A * Outcome V E)) :
  ticket it <> k -> settlement k ((it, r) :: futs) = settlement k futs.
Proof.
  intros Hne. unfold settlement. simpl. unfold has_ticket at 1.
  apply Nat.eqb_neq in Hne. rewrite Hne. reflexivity.
Qed.

Lemma settlement_cons_eq it r (futs : list (Item A * Outcome V E)) :
  settlement (ticket it) ((it, r) :: futs) = Some r.
Proof.
  unfold settlement. simpl. unfold has_ticket. rewrite Nat.eqb_refl. reflexivity.
Qed.

Lemma find_ticket k (l : list (Item A)) it :
  find (has_ticket k) l = Some it -> In it l /\ ticket it = k.
Proof.
  intros H. apply find_some in H as [Hin Ht]. split; [exact Hin|].
  apply Nat.eqb_eq. exact Ht.
Qed.

Lemma remove_ticket_In k (l : list (Item A)) it :
  In it (remove_ticket k l) <-> In it l /\ ticket it <> k.
Proof.
  unfold remove_ticket. rewrite filter_In. unfold has_ticket.
  rewrite negb_true_iff, Nat.eqb_neq. tauto.
Qed.

Lemma ticket_bound w it :
  well_formed w -> In it (submitted w) -> (ticket it < length (submitted w))%nat.
Proof.
  intros Hwf Hin. apply (in_map ticket) in Hin.
  rewrite (wf_tickets _ Hwf) in Hin. apply in_seq in Hin. lia.
Qed.

Lemma NoDup_map_eq {X Y} (f : X -> Y) (l : list X) x y :
  NoDup (map f l) -> In x l -> In y l -> f x = f y -> x = y.
Proof.
  induction l as [|z l IH]; simpl; [tauto|].
  intros Hnd Hx Hy Heq. apply NoDup_cons_iff in Hnd as [Hz Hnd].
  destruct Hx as [->|Hx], Hy as [->|Hy]; auto.
  - exfalso. apply Hz. rewrite Heq. apply in_map, Hy.
  - exfalso. apply Hz. rewrite <- Heq. apply in_map, Hx.
Qed.

Lemma ticket_inj w it it' :
  well_formed w -> In it (submitted w) -> In it' (submitted w) ->
  ticket it = ticket it' -> it = it'.
Proof.
  intros Hwf. apply NoDup_map_eq. rewrite (wf_tickets _ Hwf). apply seq_NoDup.
Qed.

(** Invoking the head of the queue keeps the book-keeping. *)
Lemma NoDup_head_moved {X} (run rest : list X) h :
  NoDup (run ++ h :: rest) -> NoDup ((h :: run) ++ rest).
Proof.
  intros H. simpl. apply NoDup_cons.
  - apply NoDup_remove_2 in H. exact H.
  - apply NoDup_remove_1 in H. exact H.
Qed.

Lemma In_head_moved {X} (run rest : list X) h x :
  In x ((h :: run) ++ rest) <-> In x (run ++ h :: rest).
Proof. simpl. rewrite !in_app_iff. simpl. tauto. Qed.

Lemma well_formed_invoke c c' t t' tk tk' res res' run h rest futs sub :
  well_formed (mkWorld (mkLimiter c (h :: rest) t) tk run res futs sub
               : World A V E) ->
  well_formed (mkWorld (mkLimiter c' rest t') tk' (h :: run) res' futs sub).
Proof.
  intros [H1 H2 H3 H4 H5]. unfold pending in *. simpl in *.
  constructor; unfold pending; simpl; auto.
  - apply (NoDup_head_moved run rest h H2).
  - intros x Hx. apply H3. apply (In_head_moved run rest h x). exact Hx.
  - intros x Hx. apply H4. apply (In_head_moved run rest h x). exact Hx.
Qed.

(** Fields the book-keeping does not read. *)
Lemma well_formed_frame c c' q t t' tk tk' res res' run futs sub :
  well_formed (mkWorld (mkLimiter c q t) tk run res futs sub : World A V E) ->
  well_formed (mkWorld (mkLimiter c' q t') tk' run res' futs sub).
Proof. intros [H1 H2 H3 H4 H5]. constructor; auto. Qed.

Lemma well_formed_dequeue_call w w' evs :
  well_formed w -> dequeue_call w = (w', evs) -> well_formed w'.
Proof.
  destruct w as [[c q t] tk run res fut sub]. destruct q as [|h rest]; simpl.
  - intros H Heq. injection Heq as <- _. exact H.
  - intros H Heq. injection Heq as <- _. eapply well_formed_invoke, H.
Qed.

Lemma step_well_formed w a w' evs :
  well_formed w -> step w a = Some (w', evs) -> well_formed w'.
Proof.
  intros Hwf. destruct a; simpl.
  - (* Submit *)
    intros H. injection H as <- _.
    destruct w as [[c q t] tk run res fut sub].
    pose proof (fun it => ticket_bound _ it Hwf) as Hb.
    destruct Hwf as [H1 H2 H3 H4 H5]. unfold pending, future_of in *. simpl in *.
    assert (Hfresh : forall it, In it (run ++ q) -> ticket it <> length sub).
    { intros it Hit Heq. specialize (Hb it (H3 it Hit)). lia. }
    constructor; unfold pending, future_of; simpl.
    + rewrite map_app, length_app. simpl. rewrite H1, Nat.add_1_r, seq_S.
      reflexivity.
    + unfold enqueue. rewrite app_assoc. apply NoDup_app.
      * exact H2.
      * constructor; [intros []|constructor].
      * intros it Hit [<-|[]]. apply (Hfresh _ Hit). reflexivity.
    + unfold enqueue. rewrite app_assoc. intros it Hit.
      apply in_app_iff in Hit as [Hit|Hit]; apply in_app_iff; auto.
    + unfold enqueue. rewrite app_assoc. intros it Hit.
      apply in_app_iff in Hit as [Hit|[<-|[]]]; [auto|].
      simpl. apply settlement_none. intros it r Hin Heq.
      specialize (Hb it (H5 _ _ Hin)). lia.
    + intros it r Hin. apply in_app_iff. left. eauto.
  - (* Turn *)
    destruct (ticks w) as [|n] eqn:Htk; [discriminate|].
    intros H. injection H as H. unfold admission_turn in H.
    destruct w as [[c q t] tk run res fut sub]. simpl in H.
    destruct (below t c && (size q >? 0)%Z).
    + eapply well_formed_dequeue_call; [|exact H].
      eapply well_formed_frame, Hwf.
    + injection H as <- _. eapply well_formed_frame, Hwf.
  - (* Settle *)
    destruct (find (has_ticket k) (running w)) as [it0|] eqn:Hf; [|discriminate].
    intros H. injection H as <- _. apply find_ticket in Hf as [Hin0 Hk].
    destruct w as [[c q t] tk run res fut sub].
    destruct Hwf as [H1 H2 H3 H4 H5]. unfold pending, future_of in *. simpl in *.
    assert (Hsub : forall it, In it (remove_ticket k run ++ q) -> In it (run ++ q)).
    { intros it Hit. apply in_app_iff in Hit as [Hit|Hit]; apply in_app_iff; auto.
      left. apply remove_ticket_In in Hit. tauto. }
    assert (Hne : forall it, In it (remove_ticket k run ++ q) -> ticket it <> k).
    { intros it Hit Heq. apply in_app_iff in Hit as [Hit|Hit].
      - apply remove_ticket_In in Hit. tauto.
      - assert (it = it0).
        { apply (NoDup_map_eq ticket sub).
          - rewrite H1. apply seq_NoDup.
          - apply H3, in_app_iff. auto.
          - apply H3, in_app_iff. auto.
          - congruence. }
        subst it. apply in_split in Hin0 as (l1 & l2 & ->).
        rewrite <- app_assoc in H2. simpl in H2.
        apply NoDup_remove_2 in H2. apply H2. rewrite !in_app_iff. auto. }
    constructor; unfold pending, future_of; simpl; auto.
    + apply NoDup_app.
      * apply NoDup_filter. eapply NoDup_app_remove_r, H2.
      * eapply NoDup_app_remove_l, H2.
      * intros it Hit Hq. apply remove_ticket_In in Hit as [Hit _].
        apply in_split in Hit as (l1 & l2 & ->).
        rewrite <- app_assoc in H2. simpl in H2.
        apply NoDup_remove_2 in H2. apply H2. rewrite !in_app_iff. auto.
    + intros it Hit. apply H3, Hsub, Hit.
    + intros it Hit. rewrite settlement_cons_ne; [apply H4, Hsub, Hit|].
      rewrite Hk. intros Heq. exact (Hne it Hit (eq_sym Heq)).
    + intros it r0 [Heq|Hin]; [|eauto]. injection Heq as <- _.
      apply H3, in_app_iff. auto.
  - (* Resume *)
    destruct (find (has_ticket k) (resuming w)) as [it0|] eqn:Hf; [|discriminate].
    intros H. injection H as H. unfold o in H.
    destruct w as [[c q t] tk run res fut sub]. simpl in H.
    destruct (size q >? 0)%Z.
    + eapply well_formed_dequeue_call; [|exact H].
      eapply well_formed_frame, Hwf.
    + injection H as <- _. eapply well_formed_frame, Hwf.
  - (* Clear *)
    intros H. injection H as <- _.
    destruct w as [[c q t] tk run res fut sub].
    destruct Hwf as [H1 H2 H3 H4 H5]. unfold pending, future_of in *. simpl in *.
    constructor; unfold pending, future_of; simpl; auto.
    + rewrite app_nil_r. eapply NoDup_app_remove_r, H2.
    + intros it Hit. rewrite app_nil_r in Hit. apply H3, in_app_iff. auto.
    + intros it Hit. rewrite app_nil_r in Hit. apply H4, in_app_iff. auto.
Qed.

Lemma exec_well_formed acts : forall w w' evs,
  well_formed w -> exec w acts = Some (w', evs) -> well_formed w'.
Proof.
  induction acts as [|a rest IH]; simpl; intros w w' evs Hc H.
  - injection H as <- _. exact Hc.
  - destruct (step w a) as [[w1 ev1]|] eqn:Hs; [|discriminate].
    destruct (exec w1 rest) as [[w2 ev2]|] eqn:He; [|discriminate].
    injection H as <- _. eapply IH; [|exact He].
    eapply step_well_formed; eauto.
Qed.

Lemma fresh_well_formed (l : Limiter (Item A)) :
  queue l = [] -> well_formed (fresh l : World A V E).
Proof.
  intros Hq. constructor; unfold pending, future_of; simpl; try rewrite Hq.
  - reflexivity.
  - constructor.
  - intros it [].
  - intros it [].
  - intros it r [].
Qed.

End WellFormed.

(* ===================================================================== *)
(** ** The limiter: admission order *)
(* ===================================================================== *)

Section Fifo.
Context {A V E : Type}.
Implicit Types (w : World A V E) (it : Item A) (a : Action A V E).

Lemma precedes_cons_inv {X} (i j h : X) rest :
  precedes i j (h :: rest) -> (h = i /\ In j rest) \/ precedes i j rest.
Proof.
  intros (l1 & l2 & l3 & H). destruct l1 as [|x l1]; simpl in H.
  - injection H as -> ->. left. split; [reflexivity|].
    apply in_app_iff. right. left. reflexivity.
  - injection H as -> ->. right. exists l1, l2, l3. reflexivity.
Qed.

Lemma precedes_In {X} (i j : X) l : precedes i j l -> In i l /\ In j l.
Proof.
  intros (l1 & l2 & l3 & ->). split.
  - apply in_app_iff. right. left. reflexivity.
  - apply in_app_iff. right. right. apply in_app_iff. right. left. reflexivity.
Qed.

Lemma precedes_app_r {X} (i j : X) l l' : precedes i j l -> precedes i j (l ++ l').
Proof.
  intros (l1 & l2 & l3 & ->). exists l1, l2, (l3 ++ l').
  rewrite <- !app_assoc. simpl. rewrite <- app_assoc. reflexivity.
Qed.

(** One step either admits the head of the queue and nothing else, or
    admits nothing and leaves the queue alone, grows it at the tail by a
    new future, or empties it. *)
Lemma step_effect w a w' evs :
  step w a = Some (w', evs) ->
  (exists h rest, queue (limiter w) = h :: rest /\ queue (limiter w') = rest
                  /\ submitted w' = submitted w /\ evs = [Invoked h]
                  /\ (a = Turn \/ exists k, a = Resume k))
  \/ ((forall it, ~ In (Invoked it) evs)
      /\ ((queue (limiter w') = queue (limiter w) /\ submitted w' = submitted w)
          \/ (exists n, queue (limiter w') =
                          queue (limiter w) ++ [mkItem (length (submitted w)) n]
                        /\ submitted w' =
                          submitted w ++ [mkItem (length (submitted w)) n])
          \/ (queue (limiter w') = [] /\ submitted w' = submitted w))).
Proof.
  destruct w as [[c q t] tk run res fut sub]. destruct a; simpl; intros H.
  - injection H as <- <-. right. split; [intros it []|]. right. left.
    exists n. auto.
  - destruct tk; [discriminate|]. unfold admission_turn in H. simpl in H.
    destruct (below t c && (size q >? 0)%Z); [destruct q as [|h rest]|];
      simpl in H; injection H as <- <-; simpl.
    + right. split; [intros it []|]. auto.
    + left. exists h, rest. auto 10.
    + right. split; [intros it []|]. auto.
  - destruct (find (has_ticket k) run); [|discriminate].
    injection H as <- <-. right. split; [|simpl; auto].
    intros it [Hc|[]]. discriminate.
  - destruct (find (has_ticket k) res); [|discriminate].
    unfold o in H. simpl in H.
    destruct q as [|h rest]; simpl in H; injection H as <- <-; simpl.
    + right. split; [intros it []|]. auto.
    + left. exists h, rest. eauto 10.
  - injection H as <- <-. right. split; [intros it []|]. simpl. auto.
Qed.

(** Whatever is invoked later was queued now or is submitted later. *)
Lemma exec_invoked_origin acts : forall w w' evs it,
  well_formed w -> exec w acts = Some (w', evs) -> In (Invoked it) evs ->
  In it (queue (limiter w)) \/ (length (submitted w) <= ticket it)%nat.
Proof.
  induction acts as [|a rest IH]; simpl; intros w w' evs it Hwf H Hin.
  - injection H as _ <-. destruct Hin.
  - destruct (step w a) as [[w1 ev1]|] eqn:Hs; [|discriminate].
    destruct (exec w1 rest) as [[w2 ev2]|] eqn:He; [|discriminate].
    injection H as _ <-.
    pose proof (step_well_formed _ _ _ _ Hwf Hs) as Hwf1.
    apply in_app_iff in Hin as [Hin|Hin].
    + specialize (IH _ _ _ _ Hwf1 He Hin).
      destruct (step_effect _ _ _ _ Hs)
        as [(h & tl & Hq & Hq1 & Hsub & _)|[_ [[Hq1 Hsub]|[(n & Hq1 & Hsub)|[Hq1 Hsub]]]]];
        rewrite Hq1, Hsub in IH.
      * rewrite Hq. destruct IH; [left; right|right]; assumption.
      * exact IH.
      * rewrite length_app in IH. simpl in IH.
        destruct IH as [IH|IH]; [|right; lia].
        apply in_app_iff in IH as [IH|[<-|[]]]; [left; exact IH|].
        right. simpl. lia.
      * destruct IH as [[]|IH]. right. exact IH.
    + destruct (step_effect _ _ _ _ Hs)
        as [(h & tl & Hq & _ & _ & -> & _)|[Hno _]].
      * destruct Hin as [Heq|[]]. injection Heq as ->. left. rewrite Hq.
        left. reflexivity.
      * destruct (Hno _ Hin).
Qed.

Lemma queue_NoDup w : well_formed w -> NoDup (queue (limiter w)).
Proof. intros H. eapply NoDup_app_remove_l. exact (wf_nodup _ H). Qed.

Lemma queue_ticket_bound w it :
  well_formed w -> In it (queue (limiter w)) ->
  (ticket it < length (submitted w))%nat.
Proof.
  intros H Hin. apply ticket_bound; [exact H|].
  apply (wf_incl _ H). apply in_app_iff. right. exact Hin.
Qed.

(** Of two queued entries the one nearer the head is invoked first. *)
Lemma exec_fifo acts : forall w w' evs i j,
  well_formed w -> precedes i j (queue (limiter w)) ->
  exec w acts = Some (w', evs) -> In (Invoked j) evs ->
  precedes (Invoked j) (Invoked i) evs.
Proof.
  induction acts as [|a rest IH]; simpl; intros w w' evs i j Hwf Hpre H Hin.
  - injection H as _ <-. destruct Hin.
  - destruct (step w a) as [[w1 ev1]|] eqn:Hs; [|discriminate].
    destruct (exec w1 rest) as [[w2 ev2]|] eqn:He; [|discriminate].
    injection H as _ <-.
    pose proof (step_well_formed _ _ _ _ Hwf Hs) as Hwf1.
    pose proof (queue_NoDup _ Hwf) as Hnd.
    destruct (precedes_In _ _ _ Hpre) as [Hi Hj].
    destruct (step_effect _ _ _ _ Hs)
      as [(h & tl & Hq & Hq1 & Hsub & -> & _)|[Hno [[Hq1 Hsub]|[(n & Hq1 & Hsub)|[Hq1 Hsub]]]]].
    + rewrite Hq in Hpre, Hnd.
      apply in_app_iff in Hin as [Hin|[Heq|[]]].
      * destruct (precedes_cons_inv _ _ _ _ Hpre) as [[-> _]|Hpre'].
        -- apply in_split in Hin as (l1 & l2 & ->).
           exists l1, l2, []. rewrite <- app_assoc. reflexivity.
        -- apply precedes_app_r. eapply IH; eauto. rewrite Hq1. exact Hpre'.
      * injection Heq as ->. exfalso.
        destruct (precedes_cons_inv _ _ _ _ Hpre) as [[-> Hjt]|Hpre'].
        -- apply NoDup_cons_iff in Hnd as [Hnd _]. exact (Hnd Hjt).
        -- apply NoDup_cons_iff in Hnd as [Hnd _]. apply Hnd.
           apply (precedes_In _ _ _ Hpre').
    + apply in_app_iff in Hin as [Hin|Hin]; [|destruct (Hno _ Hin)].
      apply precedes_app_r. eapply IH; eauto. rewrite Hq1. exact Hpre.
    + apply in_app_iff in Hin as [Hin|Hin]; [|destruct (Hno _ Hin)].
      apply precedes_app_r. eapply IH; eauto. rewrite Hq1.
      apply precedes_app_r. exact Hpre.
    + apply in_app_iff in Hin as [Hin|Hin]; [|destruct (Hno _ Hin)].
      exfalso. pose proof (queue_ticket_bound _ _ Hwf Hj) as Hb.
      destruct (exec_invoked_origin _ _ _ _ _ Hwf1 He Hin) as [Hin'|Hge].
      * rewrite Hq1 in Hin'. destruct Hin'.
      * rewrite Hsub in Hge. lia.
Qed.

(** *** The queue holds its entries in the order of their submission *)

Lemma precedes_snoc_inv {X} (i j x : X) q :
  precedes i j (q ++ [x]) -> precedes i j q \/ (j = x /\ In i q).
Proof.
  intros (l1 & l2 & l3 & H).
  destruct (exists_last (l := j :: l3) ltac:(discriminate)) as (l' & y & Hl).
  assert (Hq : q ++ [x] = (l1 ++ i :: l2 ++ l') ++ [y]).
  { rewrite H. rewrite <- app_assoc. simpl. f_equal. f_equal.
    rewrite <- app_assoc. f_equal. exact Hl. }
  apply app_inj_tail in Hq as [-> ->].
  destruct l' as [|j' l'].
  - injection Hl as -> _. right. split; [reflexivity|].
    apply in_app_iff. right. left. reflexivity.
  - injection Hl as <- ->. left. exists l1, l2, l'. reflexivity.
Qed.

Lemma In_precedes_or {X} (i j : X) l :
  In i l -> In j l -> i <> j -> precedes i j l \/ precedes j i l.
Proof.
  intros Hi Hj Hne. apply in_split in Hi as (l1 & l2 & ->).
  apply in_app_iff in Hj as [Hj|[Hj|Hj]]; [|congruence|].
  - right. apply in_split in Hj as (a & b & ->). exists a, b, l2.
    rewrite <- app_assoc. reflexivity.
  - left. apply in_split in Hj as (a & b & ->). exists l1, a, b. reflexivity.
Qed.

(** The ticket of an entry is the rank of its submission. *)
Lemma ticket_is_rank w it p :
  well_formed w -> nth_error (submitted w) p = Some it -> ticket it = p.
Proof.
  intros Hwf Hn.
  assert (Hp : (p < length (submitted w))%nat)
    by (apply nth_error_Some; congruence).
  apply (map_nth_error ticket) in Hn. rewrite (wf_tickets _ Hwf) in Hn.
  apply nth_error_nth with (d := 0%nat) in Hn.
  rewrite seq_nth in Hn by exact Hp. simpl in Hn. congruence.
Qed.

Lemma submitted_before_ticket w i j :
  well_formed w -> precedes i j (submitted w) -> (ticket i < ticket j)%nat.
Proof.
  intros Hwf (l1 & l2 & l3 & H).
  assert (Hi : nth_error (submitted w) (length l1) = Some i).
  { rewrite H, nth_error_app2 by lia. rewrite Nat.sub_diag. reflexivity. }
  assert (Hj : nth_error (submitted w) (length (l1 ++ i :: l2)) = Some j).
  { rewrite H. replace (l1 ++ i :: l2 ++ j :: l3) with ((l1 ++ i :: l2) ++ j :: l3)
      by (rewrite <- app_assoc; reflexivity).
    rewrite nth_error_app2 by lia. rewrite Nat.sub_diag. reflexivity. }
  rewrite (ticket_is_rank _ _ _ Hwf Hi), (ticket_is_rank _ _ _ Hwf Hj).
  rewrite length_app. simpl. lia.
Qed.

Lemma ticket_before_submitted w i j :
  well_formed w -> In i (submitted w) -> In j (submitted w) ->
  (ticket i < ticket j)%nat -> precedes i j (submitted w).
Proof.
  intros Hwf Hi Hj Hlt.
  destruct (In_precedes_or i j (submitted w) Hi Hj) as [H|H].
  - intros ->. lia.
  - exact H.
  - apply (submitted_before_ticket _ _ _ Hwf) in H. lia.
Qed.

(** Along the queue the tickets go up: one step keeps this. *)
Lemma step_queue_order w a w' evs :
  well_formed w ->
  (forall i j, precedes i j (queue (limiter w)) -> (ticket i < ticket j)%nat) ->
  step w a = Some (w', evs) ->
  forall i j, precedes i j (queue (limiter w')) -> (ticket i < ticket j)%nat.
Proof.
  intros Hwf Hord Hs i j Hpre.
  destruct (step_effect _ _ _ _ Hs)
    as [(h & tl & Hq & Hq1 & _)|[_ [[Hq1 _]|[(n & Hq1 & _)|[Hq1 _]]]]];
    rewrite Hq1 in Hpre.
  - apply Hord. rewrite Hq. destruct Hpre as (l1 & l2 & l3 & ->).
    exists (h :: l1), l2, l3. reflexivity.
  - apply Hord, Hpre.
  - apply precedes_snoc_inv in Hpre as [Hpre|[-> Hi]]; [apply Hord, Hpre|].
    simpl. apply queue_ticket_bound; assumption.
  - destruct Hpre as (l1 & l2 & l3 & H). destruct l1; discriminate.
Qed.

Lemma exec_queue_order acts : forall w w' evs,
  well_formed w ->
  (forall i j, precedes i j (queue (limiter w)) -> (ticket i < ticket j)%nat) ->
  exec w acts = Some (w', evs) ->
  forall i j, precedes i j (queue (limiter w')) -> (ticket i < ticket j)%nat.
Proof.
  induction acts as [|a rest IH]; simpl; intros w w' evs Hwf Hord H.
  - injection H as <- _. exact Hord.
  - destruct (step w a) as [[w1 ev1]|] eqn:Hs; [|discriminate].
    destruct (exec w1 rest) as [[w2 ev2]|] eqn:He; [|discriminate].
    injection H as <- _. eapply IH; [| |exact He].
    + eapply step_well_formed; eauto.
    + eapply step_queue_order; eauto.
Qed.

(** Among queued entries, the order in the queue is the order of
    submission. *)
Lemma queue_order_is_submission_order w i j :
  well_formed w ->
  (forall i j, precedes i j (queue (limiter w)) -> (ticket i < ticket j)%nat) ->
  (precedes i j (queue (limiter w))
   <-> In i (queue (limiter w)) /\ In j (queue (limiter w))
       /\ precedes i j (submitted w)).
Proof.
  intros Hwf Hord.
  assert (Hsub : forall x, In x (queue (limiter w)) -> In x (submitted w)).
  { intros x Hx. apply (wf_incl _ Hwf). apply in_app_iff. right. exact Hx. }
  split.
  - intros Hpre. destruct (precedes_In _ _ _ Hpre) as [Hi Hj].
    split; [exact Hi|]. split; [exact Hj|].
    apply ticket_before_submitted; auto.
  - intros (Hi & Hj & Hpre).
    pose proof (submitted_before_ticket _ _ _ Hwf Hpre) as Hlt.
    destruct (In_precedes_or i j _ Hi Hj) as [H|H].
    + intros ->. lia.
    + exact H.
    + apply Hord in H. lia.
Qed.

End Fifo.

(* ===================================================================== *)
(** ** The limiter: outcomes do not steer it *)
(* ===================================================================== *)

Section Failure.
Context {A V E : Type}.
Implicit Types (w : World A V E) (it : Item A) (a : Action A V E).

Lemma same_but_refl k w : same_but k w w.
Proof. unfold same_but. auto 10. Qed.

Lemma step_same_but k r w1 w2 a w1' ev1 :
  same_but k w1 w2 -> step w1 a = Some (w1', ev1) ->
  exists w2' ev2,
    step w2 (match a with
             | Settle k' _ => if Nat.eqb k' k then Settle k r else a
             | _ => a
             end) = Some (w2', ev2)
    /\ same_but k w1' w2' /\ same_invocations ev1 ev2
    /\ ((exists r', a = Settle k r') -> future_of k w2' = Some r)
    /\ (future_of k w2 = Some r -> future_of k w2' = Some r).
Proof.
  unfold same_but, same_invocations, future_of.
  destruct w1 as [l1 tk1 run1 res1 fut1 sub1], w2 as [l2 tk2 run2 res2 fut2 sub2].
  simpl. intros (<- & <- & <- & <- & <- & Hm & Hfut) Hs.
  destruct a; simpl in *.
  - injection Hs as <- <-. do 2 eexists. split; [reflexivity|]. simpl.
    split; [repeat split; auto|split; [split; [reflexivity|tauto]|]].
    split; [intros (r' & Hr'); discriminate|auto].
  - destruct tk1; [discriminate|]. injection Hs as Hs.
    unfold admission_turn in *. simpl in *.
    destruct (below (activeCount l1) (concurrency l1) && (size (queue l1) >? 0)%Z);
      [destruct l1 as [c [|h q] t]; simpl in *|];
      injection Hs as <- <-; do 2 eexists; (split; [reflexivity|]); simpl;
      (split; [repeat split; auto|split; [split; [reflexivity|tauto]|]]);
      (split; [intros (r' & Hr'); discriminate|auto]).
  - destruct (find (has_ticket k0) run1) as [it0|] eqn:Hf; [|discriminate].
    injection Hs as <- <-.
    destruct (Nat.eqb_spec k0 k) as [->|Hk];
      pose proof (find_ticket _ _ _ Hf) as [_ Hk0].
    + simpl. rewrite Hf.
      do 2 eexists. split; [reflexivity|]. simpl.
      split; [|split; [|split]].
      * repeat split; auto; [f_equal; exact Hm|].
        intros k' Hk'. rewrite !settlement_cons_ne by congruence. auto.
      * split; [reflexivity|]. intros it.
        split; intros [Hc|[]]; discriminate.
      * intros _. rewrite <- Hk0. apply settlement_cons_eq.
      * intros _. rewrite <- Hk0. apply settlement_cons_eq.
    + simpl. rewrite Hf.
      do 2 eexists. split; [reflexivity|]. simpl.
      split; [|split; [|split]].
      * repeat split; auto; [f_equal; exact Hm|].
        intros k' Hk'. unfold settlement. simpl.
        destruct (has_ticket k' it0); [reflexivity|]. apply Hfut, Hk'.
      * split; [reflexivity|]. tauto.
      * intros (r' & Hr'). injection Hr' as -> _. congruence.
      * intros Hr. rewrite settlement_cons_ne by congruence. exact Hr.
  - destruct (find (has_ticket k0) res1); [|discriminate].
    injection Hs as Hs. unfold o in *. simpl in *.
    destruct l1 as [c [|h q] t]; simpl in *;
      injection Hs as <- <-; do 2 eexists; (split; [reflexivity|]); simpl;
      (split; [repeat split; auto|split; [split; [reflexivity|tauto]|]]);
      (split; [intros (r' & Hr'); discriminate|auto]).
  - injection Hs as <- <-. do 2 eexists. split; [reflexivity|]. simpl.
    split; [repeat split; auto|split; [split; [reflexivity|tauto]|]].
    split; [intros (r' & Hr'); discriminate|auto].
Qed.

Lemma same_invocations_app (e1 e2 f1 f2 : list (Event A V E)) :
  same_invocations e1 e2 -> same_invocations f1 f2 ->
  same_invocations (e1 ++ f1) (e2 ++ f2).
Proof.
  intros [H1 H2] [H3 H4]. split.
  - rewrite !map_app. congruence.
  - intros it. rewrite !in_app_iff, H2, H4. tauto.
Qed.

Lemma exec_same_but k r acts : forall w1 w2 w1' ev1,
  same_but k w1 w2 -> exec w1 acts = Some (w1', ev1) ->
  exists w2' ev2,
    exec w2 (with_outcome k r acts) = Some (w2', ev2)
    /\ same_but k w1' w2' /\ same_invocations ev1 ev2
    /\ (settles k acts \/ future_of k w2 = Some r -> future_of k w2' = Some r).
Proof.
  induction acts as [|a rest IH]; simpl; intros w1 w2 w1' ev1 Hsim H.
  - injection H as <- <-. exists w2, [].
    split; [reflexivity|]. split; [exact Hsim|]. split; [split; [reflexivity|tauto]|].
    intros [(r' & [])|Hf]. exact Hf.
  - destruct (step w1 a) as [[wa eva]|] eqn:Hs; [|discriminate].
    destruct (exec wa rest) as [[wb evb]|] eqn:He; [|discriminate].
    injection H as <- <-.
    destruct (step_same_but k r _ _ _ _ _ Hsim Hs)
      as (wa2 & eva2 & Hs2 & Hsim2 & Hev2 & Hset & Hkeep).
    destruct (IH _ _ _ _ Hsim2 He) as (wb2 & evb2 & He2 & Hsim3 & Hev3 & Hfin).
    exists wb2, (evb2 ++ eva2). rewrite Hs2, He2.
    split; [reflexivity|]. split; [exact Hsim3|].
    split; [apply same_invocations_app; assumption|].
    intros [(r' & [Heq|Hin])|Hf]; apply Hfin.
    + right. apply Hset. eauto.
    + left. exists r'. exact Hin.
    + right. apply Hkeep, Hf.
Qed.

End Failure.

(* ===================================================================== *)
(** ** The handler: fan-outs *)
(* ===================================================================== *)

Lemma z_ten (T : Type) : @z T ten = inr (mkLimiter (Finite 10) [] 0%Z).
Proof. reflexivity. Qed.

Section FanOut.
Context {A V E : Type}.
Implicit Types (w : World A V E).

Lemma exec_submits (ns : list A) : forall w,
  exec w (map (fun n => Submit n) ns)
  = Some (fold_left (fun wd n => u n wd) ns w, []).
Proof.
  induction ns as [|n ns IH]; intros w; simpl; [reflexivity|].
  rewrite IH. reflexivity.
Qed.

Lemma submits_state (ns : list A) : forall w,
  let w' := fold_left (fun wd n => u n wd) ns w in
  running w' = running w /\ resuming w' = resuming w /\ futures w' = futures w
  /\ map operation (submitted w') = map operation (submitted w) ++ ns
  /\ length (queue (limiter w')) = (length (queue (limiter w)) + length ns)%nat
  /\ activeCount (limiter w') = activeCount (limiter w).
Proof.
  induction ns as [|n ns IH]; intros w; simpl.
  - rewrite app_nil_r. repeat split; lia.
  - destruct (IH (u n w)) as (H1 & H2 & H3 & H4 & H5 & H6).
    rewrite H1, H2, H3, H4, H5, H6. simpl. unfold enqueue.
    rewrite map_app, length_app, <- app_assoc. simpl. repeat split; lia.
Qed.

End FanOut.

Lemma fan_out_returns (cmds : list Command) :
  exists wd, fan_out cmds = inr wd
    /\ fan_ok cmds wd /\ running wd = [] /\ futures wd = []
    /\ (cmds = [] -> queue (limiter wd) = []).
Proof.
  unfold fan_out. rewrite z_ten. eexists. split; [reflexivity|].
  set (l := mkLimiter (Finite 10) [] 0%Z).
  pose proof (exec_submits cmds (fresh l : FanOut)) as Hex.
  destruct (submits_state cmds (fresh l : FanOut))
    as (H1 & H2 & H3 & H4 & H5 & H6).
  split; [|split; [exact H1|split; [exact H3|]]].
  - split; [|split; [|split]].
    + eapply exec_well_formed; [|exact Hex]. apply fresh_well_formed. reflexivity.
    + eapply exec_counted; [|exact Hex]. eapply fresh_counted. apply z_ten.
    + rewrite (exec_concurrency _ _ _ _ Hex). reflexivity.
    + exact H4.
  - intros ->. reflexivity.
Qed.

Lemma quiescent_of_settled (wd : FanOut) :
  well_formed wd -> first_rejection wd = None -> all_fulfilled wd = true ->
  quiescent wd.
Proof.
  intros Hwf Hrej Hall.
  assert (Hsub : forall it, In it (submitted wd) ->
                 exists v, In (it, Fulfilled v) (futures wd)).
  { intros it Hit. unfold all_fulfilled in Hall.
    rewrite forallb_forall in Hall. specialize (Hall it Hit).
    destruct (future_of (ticket it) wd) as [[v|e]|] eqn:Hf; try discriminate.
    apply settlement_some in Hf as (it' & Hin & Heq). exists v.
    replace it with it'; [exact Hin|].
    eapply ticket_inj; eauto. eapply wf_futures; eauto. }
  assert (Hpend : pending wd = []).
  { destruct (pending wd) as [|it l] eqn:Hp; [reflexivity|]. exfalso.
    assert (Hin : In it (pending wd)) by (rewrite Hp; left; reflexivity).
    pose proof (wf_unsettled _ Hwf it Hin) as Hnone.
    destruct (Hsub it (wf_incl _ Hwf it Hin)) as (v & Hv).
    unfold future_of in Hnone. rewrite settlement_none in Hnone.
    exact (Hnone _ _ Hv eq_refl). }
  unfold pending in Hpend. apply app_eq_nil in Hpend as [Hrun Hq].
  repeat split; auto.
  intros it [v|e] Hin; [eauto|]. exfalso.
  unfold first_rejection in Hrej.
  destruct (find _ (rev (futures wd))) as [[it' [v'|e']]|] eqn:Hf.
  - apply find_some in Hf as [_ Hc]. discriminate.
  - discriminate.
  - apply in_rev in Hin. pose proof (find_none _ _ Hf _ Hin) as Hc. discriminate.
Qed.

Lemma first_rejection_some (wd : FanOut) e :
  first_rejection wd = Some e -> exists it, In (it, Rejected e) (futures wd).
Proof.
  unfold first_rejection.
  destruct (find _ (rev (futures wd))) as [[it' [v'|e']]|] eqn:Hf; try discriminate.
  intros H. injection H as <-. apply find_some in Hf as [Hin _].
  exists it'. apply in_rev. exact Hin.
Qed.

Lemma first_rejection_none (wd : FanOut) :
  first_rejection wd = None -> forall it e, ~ In (it, Rejected e) (futures wd).
Proof.
  unfold first_rejection. intros H it e Hin.
  destruct (find _ (rev (futures wd))) as [[it' [v'|e']]|] eqn:Hf.
  - apply find_some in Hf as [_ Hc]. discriminate.
  - discriminate.
  - apply in_rev in Hin. pose proof (find_none _ _ Hf _ Hin) as Hc. discriminate.
Qed.

(* ===================================================================== *)
(** ** The handler: one limiter step inside an invocation *)
(* ===================================================================== *)

Section StepCases.
Context {A V E : Type}.
Implicit Types (w : World A V E) (it : Item A) (a : Action A V E).

(** Outside [u] and [clearQueue] a step does nothing visible, invokes the
    head of the queue, or settles a running entry. *)
Lemma step_cases w a w' evs :
  step w a = Some (w', evs) ->
  (forall n, a <> Submit n) -> a <> Clear ->
  submitted w' = submitted w
  /\ ((evs = [] /\ running w' = running w /\ futures w' = futures w
       /\ queue (limiter w') = queue (limiter w))
      \/ (exists h rest, queue (limiter w) = h :: rest
            /\ queue (limiter w') = rest /\ running w' = h :: running w
            /\ futures w' = futures w /\ evs = [Invoked h])
      \/ (exists it k r, a = Settle k r
            /\ find (has_ticket k) (running w) = Some it
            /\ running w' = remove_ticket k (running w)
            /\ futures w' = (it, r) :: futures w
            /\ queue (limiter w') = queue (limiter w)
            /\ evs = [Settled it r])).
Proof.
  destruct w as [[c q t] tk run res fut sub].
  destruct a; simpl; intros H Hns Hnc.
  - destruct (Hns n eq_refl).
  - destruct tk; [discriminate|]. unfold admission_turn in H. simpl in H.
    destruct (below t c && (size q >? 0)%Z); [destruct q as [|h rest]|];
      simpl in H; injection H as <- <-; simpl; split; auto.
    right. left. exists h, rest. auto.
  - destruct (find (has_ticket k) run) as [it|] eqn:Hf; [|discriminate].
    injection H as <- <-. simpl. split; auto. right. right.
    exists it, k, r. auto 10.
  - destruct (find (has_ticket k) res); [|discriminate].
    unfold o in H. simpl in H.
    destruct q as [|h rest]; simpl in H; injection H as <- <-; simpl;
      split; auto.
    right. left. exists h, rest. auto.
  - destruct (Hnc eq_refl).
Qed.

End StepCases.

Lemma quiescent_step (wd wd' : FanOut) a evs :
  quiescent wd -> step wd a = Some (wd', evs) ->
  (forall n, a <> Submit n) -> a <> Clear ->
  quiescent wd' /\ evs = [].
Proof.
  intros (Hrun & Hq & Hful & Hall) Hs Hns Hnc.
  destruct (step_cases _ _ _ _ Hs Hns Hnc)
    as [Hsub [(-> & Hr & Hf & Hq')|[(h & rest & Hq0 & _)|(it & k & r0 & _ & Hfind & _)]]].
  - split; [|reflexivity]. unfold quiescent.
    rewrite Hr, Hf, Hq', Hsub. auto.
  - rewrite Hq in Hq0. discriminate.
  - rewrite Hrun in Hfind. discriminate.
Qed.

(** The shape of a step of the invocation that is not [M] resuming. *)
Lemma hstep_limiter (r : Request) st a st' :
  hstep r st a = Some st' -> a <> HAwait ->
  exists wd la ro wd' evs,
    fan (which a) st = Some wd
    /\ limiter_action wd a = Some (la, ro)
    /\ step wd la = Some (wd', evs)
    /\ st' = set_fan (which a) wd' st (map (remote_event ro) evs)
    /\ (forall n, la <> Submit n) /\ la <> Clear.
Proof.
  intros H Hna. unfold hstep in H.
  destruct (fan (which a) st) as [wd|] eqn:Hfan;
    [|destruct a; try discriminate; destruct (Hna eq_refl)].
  destruct (limiter_action wd a) as [[la ro]|] eqn:Hla;
    [|destruct a; try discriminate; destruct (Hna eq_refl)].
  destruct (step wd la) as [[wd' evs]|] eqn:Hs;
    [|destruct a; try discriminate; destruct (Hna eq_refl)].
  exists wd, la, ro, wd', evs.
  assert (Hst : st' = set_fan (which a) wd' st (map (remote_event ro) evs)).
  { destruct a; try (injection H as <-; reflexivity). destruct (Hna eq_refl). }
  repeat split; auto.
  - intros n ->. destruct a; simpl in Hla; try discriminate.
    destruct (find (has_ticket k) (running wd)); discriminate.
  - intros ->. destruct a; simpl in Hla; try discriminate.
    destruct (find (has_ticket k) (running wd)); discriminate.
Qed.

Lemma fan_set_fan_same tag wd st evs : fan tag (set_fan tag wd st evs) = Some wd.
Proof. destruct tag; reflexivity. Qed.

Lemma trace_set_fan tag wd st evs :
  trace (set_fan tag wd st evs) = evs ++ trace st.
Proof. destruct tag; reflexivity. Qed.

Lemma phase_set_fan tag wd st evs :
  phase (set_fan tag wd st evs) = phase st
  /\ result (set_fan tag wd st evs) = result st.
Proof. destruct tag; split; reflexivity. Qed.

(* ===================================================================== *)
(** ** The handler: invariant of an invocation *)
(* ===================================================================== *)

Lemma HAction_eq_dec_await (a : HAction) : a = HAwait \/ a <> HAwait.
Proof. destruct a; [right|right|right|left]; congruence. Qed.

Section Consistency.
Variable r : Request.

Lemma limiter_step_summary st a wd la ro wd' evs :
  consistent r st ->
  fan (which a) st = Some wd ->
  limiter_action wd a = Some (la, ro) ->
  step wd la = Some (wd', evs) ->
  (forall n, la <> Submit n) -> la <> Clear ->
  let hevs := map (remote_event ro) evs in
  fan_ok (commands r (which a)) wd'
  /\ (forall it, In it (running wd') -> In (Call (operation it)) (hevs ++ trace st))
  /\ (forall it o, In (it, o) (futures wd') ->
        In (Call (operation it)) (hevs ++ trace st)
        /\ exists ro', o = operation_outcome (operation it) ro'
                       /\ In (Return (operation it) ro') (hevs ++ trace st))
  /\ (forall c, In (Call c) hevs -> In c (commands r (which a)))
  /\ (forall c ro', In (Return c ro') hevs ->
        exists it, In (it, operation_outcome c ro') (futures wd'))
  /\ (forall p, In p (futures wd) -> In p (futures wd'))
  /\ (quiescent wd -> quiescent wd' /\ hevs = []).
Proof.
  intros Hc Hfan Hla Hs Hns Hnc hevs.
  destruct (cs_fans _ _ Hc _ _ Hfan) as (Hwf & Hcnt & Hconc & Hops).
  pose proof (fun it => cs_running _ _ Hc _ _ it Hfan) as Hrun.
  pose proof (fun it o => cs_futures _ _ Hc _ _ it o Hfan) as Hfut.
  assert (Hok : fan_ok (commands r (which a)) wd').
  { destruct (step_cases _ _ _ _ Hs Hns Hnc) as [Hsub _].
    split; [eapply step_well_formed; eauto|].
    split; [eapply step_counted; eauto|].
    split; [rewrite (step_concurrency _ _ _ _ Hs); exact Hconc|].
    rewrite Hsub. exact Hops. }
  split; [exact Hok|].
  assert (Hq : quiescent wd -> quiescent wd' /\ hevs = []).
  { intros Hqu. destruct (quiescent_step _ _ _ _ Hqu Hs Hns Hnc) as [H1 H2].
    split; [exact H1|]. unfold hevs. rewrite H2. reflexivity. }
  destruct (step_cases _ _ _ _ Hs Hns Hnc)
    as [Hsub [(Hev & Hr & Hf & Hq')
             |[(h & rest & Hq0 & Hq1 & Hr & Hf & Hev)
              |(it0 & k & r0 & Hact & Hfind & Hr & Hf & Hq' & Hev)]]];
    subst evs; unfold hevs in *; clear hevs; simpl in Hq |- *.
  - rewrite Hr, Hf.
    split; [exact Hrun|]. split; [exact Hfut|].
    split; [intros c []|]. split; [intros c ro' []|].
    split; [auto|exact Hq].
  - rewrite Hr, Hf.
    split; [|split; [|split; [|split; [|split; [auto|exact Hq]]]]].
    + intros it [<-|Hin]; [left; reflexivity|right; auto].
    + intros it o Hin. destruct (Hfut _ _ Hin) as (H1 & ro' & H2 & H3).
      split; [right; exact H1|]. exists ro'. split; [exact H2|right; exact H3].
    + intros c [Heq|[]]. injection Heq as <-. rewrite <- Hops.
      apply in_map. apply (wf_incl _ Hwf). apply in_app_iff. right.
      rewrite Hq0. left. reflexivity.
    + intros c ro' [Heq|[]]. discriminate.
  - apply find_ticket in Hfind as [Hin0 Hk].
    assert (Hro : r0 = operation_outcome (operation it0) ro).
    { subst la. destruct a; simpl in Hla; try discriminate.
      destruct (find (has_ticket k0) (running wd)) as [it1|] eqn:Hf1; [|discriminate].
      injection Hla as -> <- <-.
      apply find_ticket in Hf1 as [Hin1 Hk1].
      replace it0 with it1; [reflexivity|].
      eapply (ticket_inj wd); eauto.
      - apply (wf_incl _ Hwf). apply in_app_iff. auto.
      - apply (wf_incl _ Hwf). apply in_app_iff. auto.
      - congruence. }
    rewrite Hr, Hf.
    split; [|split; [|split; [|split; [|split; [|exact Hq]]]]].
    + intros it Hin. apply remove_ticket_In in Hin as [Hin _]. right. auto.
    + intros it o [Heq|Hin].
      * injection Heq as <- <-. split; [right; auto|].
        exists ro. split; [exact Hro|]. left. reflexivity.
      * destruct (Hfut _ _ Hin) as (H1 & ro' & H2 & H3).
        split; [right; exact H1|]. exists ro'. split; [exact H2|right; exact H3].
    + intros c [Heq|[]]. discriminate.
    + intros c ro' [Heq|[]]. injection Heq as <- <-.
      exists it0. left. rewrite Hro. reflexivity.
    + intros p Hp. right. exact Hp.
Qed.

Lemma fan_after tag tag' wd st evs :
  fan tag' (set_fan tag wd st evs)
  = if Bool.eqb tag' tag then Some wd else fan tag' st.
Proof. destruct tag, tag'; reflexivity. Qed.

Ltac fan_fields :=
  repeat match goal with
  | |- context [releasing ?x] => change (releasing x) with (fan false x)
  | |- context [tagging ?x] => change (tagging x) with (fan true x)
  | H : context [releasing ?x] |- _ => change (releasing x) with (fan false x) in H
  | H : context [tagging ?x] |- _ => change (tagging x) with (fan true x) in H
  end.

Lemma limiter_step_consistent st a st' :
  consistent r st -> hstep r st a = Some st' -> a <> HAwait ->
  consistent r st'.
Proof.
  intros Hc Hstep Hna.
  destruct (hstep_limiter _ _ _ _ Hstep Hna)
    as (wd & la & ro & wd' & evs & Hfan & Hla & Hs & -> & Hns & Hnc).
  destruct (limiter_step_summary _ _ _ _ _ _ _ Hc Hfan Hla Hs Hns Hnc)
    as (S1 & S2 & S3 & S4 & S5 & S6 & S7).
  set (hevs := map (remote_event ro) evs) in *.
  set (tag0 := which a) in *.
  assert (Hsame : forall tag wd1, fan tag st = Some wd1 ->
            exists wd2, fan tag (set_fan tag0 wd' st hevs) = Some wd2
              /\ (forall p, In p (futures wd1) -> In p (futures wd2))
              /\ (quiescent wd1 -> quiescent wd2)).
  { intros tag wd1 H. rewrite fan_after.
    destruct (Bool.eqb_spec tag tag0) as [->|Hne].
    - exists wd'. rewrite Hfan in H. injection H as <-.
      split; [reflexivity|]. split; [exact S6|]. intros Hq. apply S7, Hq.
    - exists wd1. auto. }
  assert (Hback : forall tag wd2, fan tag (set_fan tag0 wd' st hevs) = Some wd2 ->
            (tag = tag0 /\ wd2 = wd') \/ (tag <> tag0 /\ fan tag st = Some wd2)).
  { intros tag wd2 H. rewrite fan_after in H.
    destruct (Bool.eqb_spec tag tag0) as [->|Hne]; [left|right; auto].
    injection H as <-. auto. }
  assert (Hnone : forall tag, fan tag (set_fan tag0 wd' st hevs) = None ->
            fan tag st = None).
  { intros tag H. rewrite fan_after in H.
    destruct (Bool.eqb tag tag0); [discriminate|exact H]. }
  assert (Hsome : forall tag, fan tag st <> None ->
            fan tag (set_fan tag0 wd' st hevs) <> None).
  { intros tag H. destruct (fan tag st) as [wd1|] eqn:H1; [|congruence].
    destruct (Hsame _ _ H1) as (wd2 & -> & _). discriminate. }
  destruct (phase_set_fan tag0 wd' st hevs) as [Hph Hres].
  constructor.
  - intros tag wd2 H. destruct (Hback _ _ H) as [[-> ->]|[_ H']];
      [exact S1|eapply cs_fans; eauto].
  - intros tag wd2 it H Hin. rewrite trace_set_fan.
    destruct (Hback _ _ H) as [[-> ->]|[_ H']]; [apply S2, Hin|].
    apply in_app_iff. right. eapply cs_running; eauto.
  - intros tag wd2 it o H Hin. rewrite trace_set_fan.
    destruct (Hback _ _ H) as [[-> ->]|[_ H']]; [apply S3, Hin|].
    destruct (cs_futures _ _ Hc _ _ _ _ H' Hin) as (H1 & ro' & H2 & H3).
    split; [apply in_app_iff; right; exact H1|].
    exists ro'. split; [exact H2|apply in_app_iff; right; exact H3].
  - intros c Hin. rewrite trace_set_fan in Hin.
    apply in_app_iff in Hin as [Hin|Hin].
    + exists tag0, wd'. split; [apply fan_set_fan_same|apply S4, Hin].
    + destruct (cs_calls _ _ Hc _ Hin) as (tag & wd1 & H1 & H2).
      destruct (Hsame _ _ H1) as (wd2 & H3 & _). exists tag, wd2. auto.
  - intros c ro' Hin. rewrite trace_set_fan in Hin.
    apply in_app_iff in Hin as [Hin|Hin].
    + destruct (S5 _ _ Hin) as (it & Hit). exists tag0, wd', it.
      split; [apply fan_set_fan_same|exact Hit].
    + destruct (cs_returns _ _ Hc _ _ Hin) as (tag & wd1 & it & H1 & H2).
      destruct (Hsame _ _ H1) as (wd2 & H3 & H4 & _). exists tag, wd2, it. auto.
  - pose proof (cs_phase _ _ Hc) as Hp. rewrite Hph, Hres.
    destruct (phase st); fan_fields.
    + destruct Hp as ((wd1 & H1) & H2 & H3 & H4).
      destruct (Hsame _ _ H1) as (wd2 & H5 & _).
      split; [exists wd2; exact H5|]. split; [|auto].
      rewrite fan_after. destruct (Bool.eqb_spec true tag0) as [<-|_]; [|exact H2].
      rewrite H2 in Hfan. discriminate.
    + destruct Hp as ((wd1 & H1) & H2 & H3).
      destruct (Hsame _ _ H1) as (wd2 & H5 & _).
      split; [exists wd2; exact H5|]. auto.
    + exact Hp.
  - fan_fields. intros Ht.
    assert (Ht0 : fan true st <> None).
    { intros Hn. apply Ht. rewrite fan_after.
      destruct (Bool.eqb_spec true tag0) as [<-|_]; [|exact Hn].
      rewrite Hn in Hfan. discriminate. }
    destruct (cs_released _ _ Hc Ht0) as [H1 H2]. fan_fields. split.
    + intros Hcm. apply Hsome, H1, Hcm.
    + intros wd2 H. destruct (Hback _ _ H) as [[Heq ->]|[_ H']].
      * apply S7. apply H2. rewrite Heq. exact Hfan.
      * apply H2, H'.
  - intros e He. rewrite Hres in He.
    destruct (cs_rejected _ _ Hc _ He) as [->|(tag & wd1 & it & H1 & H2)];
      [left; reflexivity|right].
    destruct (Hsame _ _ H1) as (wd2 & H3 & H4 & _). exists tag, wd2, it. auto.
  - intros v Hv. rewrite Hres in Hv.
    destruct (cs_success _ _ Hc _ Hv) as (H1 & H2 & H3).
    split; [exact H1|]. split.
    + intros tag wd2 H. destruct (Hback _ _ H) as [[-> ->]|[_ H']].
      * apply S7. eapply H2, Hfan.
      * eapply H2, H'.
    + intros tag Hcm. apply Hsome, H3, Hcm.
Qed.

Lemma fan_finish tag o st : fan tag (finish o st) = fan tag st.
Proof. destruct tag; reflexivity. Qed.

Lemma finish_rejected_consistent st e :
  consistent r st \/ st = idle ->
  (e = old_imports_error
   \/ exists tag wd it, fan tag st = Some wd /\ In (it, Rejected e) (futures wd)) ->
  consistent r (finish (Rejected e) st).
Proof.
  intros [Hc| ->] Hprov.
  - constructor; simpl.
    + intros tag wd. rewrite fan_finish. apply (cs_fans _ _ Hc).
    + intros tag wd it. rewrite fan_finish. apply (cs_running _ _ Hc).
    + intros tag wd it o. rewrite fan_finish. apply (cs_futures _ _ Hc).
    + intros c Hin. destruct (cs_calls _ _ Hc _ Hin) as (tag & wd & H1 & H2).
      exists tag, wd. rewrite fan_finish. auto.
    + intros c ro Hin.
      destruct (cs_returns _ _ Hc _ _ Hin) as (tag & wd & it & H1 & H2).
      exists tag, wd, it. rewrite fan_finish. auto.
    + discriminate.
    + apply (cs_released _ _ Hc).
    + intros e' H. injection H as <-. exact Hprov.
    + intros v Hv. discriminate.
  - constructor; simpl; intros; try discriminate; try contradiction;
      try (destruct tag; discriminate).
    match goal with H : Some _ = Some _ |- _ => injection H as <- end.
    exact Hprov.
Qed.

Lemma finish_fulfilled_consistent st v :
  consistent r st -> v = expected_response r ->
  (forall tag wd, fan tag st = Some wd -> quiescent wd) ->
  (forall tag, commands r tag <> [] -> fan tag st <> None) ->
  consistent r (finish (Fulfilled v) st).
Proof.
  intros Hc Hv Hq Hp. constructor; simpl.
  - intros tag wd. rewrite fan_finish. apply (cs_fans _ _ Hc).
  - intros tag wd it. rewrite fan_finish. apply (cs_running _ _ Hc).
  - intros tag wd it o. rewrite fan_finish. apply (cs_futures _ _ Hc).
  - intros c Hin. destruct (cs_calls _ _ Hc _ Hin) as (tag & wd & H1 & H2).
    exists tag, wd. rewrite fan_finish. auto.
  - intros c ro Hin.
    destruct (cs_returns _ _ Hc _ _ Hin) as (tag & wd & it & H1 & H2).
    exists tag, wd, it. rewrite fan_finish. auto.
  - discriminate.
  - intros Ht. split.
    + intros Hcm. apply (Hp false Hcm).
    + intros wd H. apply (Hq false wd H).
  - intros e H. discriminate.
  - intros v' H. injection H as <-. split; [exact Hv|]. split.
    + intros tag wd. rewrite fan_finish. apply Hq.
    + intros tag. rewrite fan_finish. apply Hp.
Qed.

Lemma start_tagging_consistent st :
  tagging st = None -> RequestType r <> Delete ->
  (forall wd, releasing st = Some wd ->
     fan_ok (commands r false) wd /\ quiescent wd
     /\ forall it o, In (it, o) (futures wd) ->
          In (Call (operation it)) (trace st)
          /\ exists ro, o = operation_outcome (operation it) ro
                        /\ In (Return (operation it) ro) (trace st)) ->
  (commands r false <> [] -> releasing st <> None) ->
  (forall c, In (Call c) (trace st) ->
     exists wd, releasing st = Some wd /\ In c (commands r false)) ->
  (forall c ro, In (Return c ro) (trace st) ->
     exists wd it, releasing st = Some wd
                   /\ In (it, operation_outcome c ro) (futures wd)) ->
  consistent r (start_tagging (to_tag r) (tag_key (ResourceProperties r)) st).
Proof.
  intros Ht Hrt Hrel Hpres Hcalls Hrets. unfold start_tagging, w.
  destruct (fan_out_returns (w_commands (to_tag r) (tag_key (ResourceProperties r))))
    as (wd' & -> & Hok & Hrun & Hfut & _).
  constructor; simpl.
  - intros [|] wd H; simpl in H.
    + injection H as <-. exact Hok.
    + apply (Hrel _ H).
  - intros [|] wd it H Hin; simpl in H.
    + injection H as <-. rewrite Hrun in Hin. destruct Hin.
    + destruct (Hrel _ H) as (_ & (Hr & _) & _). rewrite Hr in Hin. destruct Hin.
  - intros [|] wd it o H Hin; simpl in H.
    + injection H as <-. rewrite Hfut in Hin. destruct Hin.
    + destruct (Hrel _ H) as (_ & _ & Hf). apply Hf, Hin.
  - intros c Hin. destruct (Hcalls _ Hin) as (wd & H1 & H2).
    exists false, wd. auto.
  - intros c ro Hin. destruct (Hrets _ _ Hin) as (wd & it & H1 & H2).
    exists false, wd, it. auto.
  - split; [eauto|]. auto.
  - intros _. split; [exact Hpres|]. intros wd H. apply (Hrel _ H).
  - intros e H. discriminate.
  - intros v H. discriminate.
Qed.

Lemma start_releasing_consistent :
  RequestType r <> Create ->
  consistent r (start_releasing (to_untag r) (tag_key (ResourceProperties r)) idle).
Proof.
  intros Hrt. unfold start_releasing, x.
  destruct (fan_out_returns (x_commands (to_untag r) (tag_key (ResourceProperties r))))
    as (wd' & -> & Hok & Hrun & Hfut & _).
  constructor; simpl; try contradiction; try discriminate.
  - intros [|] wd H; simpl in H; [discriminate|]. injection H as <-. exact Hok.
  - intros [|] wd it H Hin; simpl in H; [discriminate|].
    injection H as <-. rewrite Hrun in Hin. destruct Hin.
  - intros [|] wd it o H Hin; simpl in H; [discriminate|].
    injection H as <-. rewrite Hfut in Hin. destruct Hin.
  - split; [eauto|]. auto.
Qed.

Lemma start_tagging_idle :
  RequestType r <> Delete -> commands r false = [] ->
  consistent r (start_tagging (to_tag r) (tag_key (ResourceProperties r)) idle).
Proof.
  intros Hrt Hnone. apply start_tagging_consistent; simpl; auto;
    try discriminate; try contradiction.
Qed.

Lemma M_begin_consistent : consistent r (M_begin r).
Proof.
  unfold M_begin.
  pose proof start_tagging_idle as Htag.
  pose proof start_releasing_consistent as Hrel.
  unfold commands, to_tag, to_untag, current_keys, prior_keys in Htag, Hrel.
  destruct (RequestType r) eqn:Hrt.
  - apply Htag; [discriminate|reflexivity].
  - destruct (OldResourceProperties r) as [old|] eqn:Hold.
    + destruct (0 <? length _)%nat eqn:Hlen.
      * apply Hrel. discriminate.
      * apply Htag; [discriminate|]. apply Nat.ltb_ge in Hlen.
        destruct (P (Object_keys (imports old))
                    (Object_keys (imports (ResourceProperties r))));
          [reflexivity|simpl in Hlen; lia].
    + apply finish_rejected_consistent; [right|left]; reflexivity.
  - apply Hrel. discriminate.
Qed.

Lemma M_resume_consistent st st' :
  consistent r st -> M_resume r st = Some st' -> consistent r st'.
Proof.
  intros Hc. unfold M_resume.
  pose proof (cs_phase _ _ Hc) as Hp.
  destruct (phase st) eqn:Hph.
  - (* resumed after [await x] *)
    destruct Hp as ((wd0 & Hwd0) & Hnt & Hres & Hrt).
    rewrite Hwd0.
    destruct (first_rejection wd0) as [e|] eqn:Hrej.
    { intros H. injection H as <-. apply finish_rejected_consistent; [auto|].
      right. apply first_rejection_some in Hrej as (it & Hit).
      exists false, wd0, it. auto. }
    destruct (all_fulfilled wd0) eqn:Hall; [|discriminate].
    destruct (cs_fans _ _ Hc false wd0 Hwd0) as (Hwf & _).
    pose proof (quiescent_of_settled _ Hwf Hrej Hall) as Hq.
    assert (Hfans : forall tag wd, fan tag st = Some wd -> tag = false /\ wd = wd0).
    { intros [|] wd H; simpl in H; [congruence|].
      split; [reflexivity|congruence]. }
    destruct (RequestType r) eqn:Hreq; [congruence| |].
    + destruct (OldResourceProperties r) as [old|] eqn:Hold; [|discriminate].
      intros H. injection H as <-.
      pose proof (start_tagging_consistent st) as Hst.
      unfold to_tag, current_keys, prior_keys in Hst. rewrite Hreq, Hold in Hst.
      apply Hst; clear Hst.
      * exact Hnt.
      * discriminate.
      * intros wd H. rewrite Hwd0 in H. injection H as <-.
        split; [apply (cs_fans _ _ Hc false wd0 Hwd0)|]. split; [exact Hq|].
        intros it o. apply (cs_futures _ _ Hc false wd0 it o Hwd0).
      * intros _. rewrite Hwd0. discriminate.
      * intros c Hin. destruct (cs_calls _ _ Hc _ Hin) as (tag & wd & H1 & H2).
        destruct (Hfans _ _ H1) as [-> ->]. exists wd0. auto.
      * intros c ro Hin.
        destruct (cs_returns _ _ Hc _ _ Hin) as (tag & wd & it & H1 & H2).
        destruct (Hfans _ _ H1) as [-> ->]. exists wd0, it. auto.
    + intros H. injection H as <-.
      apply finish_fulfilled_consistent; auto.
      * unfold expected_response. rewrite Hreq. reflexivity.
      * intros tag wd H. destruct (Hfans _ _ H) as [-> ->]. exact Hq.
      * intros [|] Hcm; simpl.
        -- exfalso. apply Hcm. unfold commands, to_tag. rewrite Hreq. reflexivity.
        -- rewrite Hwd0. discriminate.
  - (* resumed after [await w] *)
    destruct Hp as ((wd0 & Hwd0) & Hres & Hrt).
    rewrite Hwd0.
    destruct (first_rejection wd0) as [e|] eqn:Hrej.
    { intros H. injection H as <-. apply finish_rejected_consistent; [auto|].
      right. apply first_rejection_some in Hrej as (it & Hit).
      exists true, wd0, it. auto. }
    destruct (all_fulfilled wd0) eqn:Hall; [|discriminate].
    intros H. injection H as <-.
    destruct (cs_fans _ _ Hc true wd0 Hwd0) as (Hwf & _).
    pose proof (quiescent_of_settled _ Hwf Hrej Hall) as Hq.
    assert (Ht : tagging st <> None) by (rewrite Hwd0; discriminate).
    destruct (cs_released _ _ Hc Ht) as [Hpres Hrelq].
    apply finish_fulfilled_consistent; auto.
    + unfold expected_response. destruct (RequestType r); congruence.
    + intros [|] wd H; simpl in H; [|auto]. congruence.
    + intros [|] Hcm; simpl; [exact Ht|auto].
  - discriminate.
Qed.

Lemma hstep_consistent st a st' :
  consistent r st -> hstep r st a = Some st' -> consistent r st'.
Proof.
  intros Hc H. destruct a;
    try (eapply limiter_step_consistent; [exact Hc|exact H|discriminate]).
  eapply M_resume_consistent; eauto.
Qed.

Lemma hexec_consistent acts : forall st st',
  consistent r st -> hexec r st acts = Some st' -> consistent r st'.
Proof.
  induction acts as [|a rest IH]; simpl; intros st st' Hc H.
  - injection H as <-. exact Hc.
  - destruct (hstep r st a) as [st1|] eqn:Hs; [|discriminate].
    eapply IH; [|exact H]. eapply hstep_consistent; eauto.
Qed.

Lemma reachable_consistent st : reachable r st -> consistent r st.
Proof.
  intros (acts & H). eapply hexec_consistent; [|exact H].
  apply M_begin_consistent.
Qed.

(** *** Untagging comes first *)

Lemma trace_start_tagging c s0 st : trace (start_tagging c s0 st) = trace st.
Proof. unfold start_tagging. destruct (w c s0); reflexivity. Qed.

Lemma trace_start_releasing c s0 st : trace (start_releasing c s0 st) = trace st.
Proof. unfold start_releasing. destruct (x c s0); reflexivity. Qed.

Lemma M_begin_trace : trace (M_begin r) = [].
Proof.
  unfold M_begin. destruct (RequestType r).
  - apply trace_start_tagging.
  - destruct (OldResourceProperties r); [|reflexivity].
    destruct (0 <? _)%nat; [apply trace_start_releasing|apply trace_start_tagging].
  - apply trace_start_releasing.
Qed.

Lemma M_resume_trace st st' : M_resume r st = Some st' -> trace st' = trace st.
Proof.
  unfold M_resume. destruct (phase st).
  - destruct (releasing st) as [wd|]; [|discriminate].
    destruct (first_rejection wd); [intros H; injection H as <-; reflexivity|].
    destruct (all_fulfilled wd); [|discriminate].
    destruct (RequestType r); try discriminate.
    + destruct (OldResourceProperties r); [|discriminate].
      intros H. injection H as <-. apply trace_start_tagging.
    + intros H. injection H as <-. reflexivity.
  - destruct (tagging st) as [wd|]; [|discriminate].
    destruct (first_rejection wd); [intros H; injection H as <-; reflexivity|].
    destruct (all_fulfilled wd); [|discriminate].
    intros H. injection H as <-. reflexivity.
  - discriminate.
Qed.

Lemma untag_commands_not_add c : In c (commands r false) -> is_add c = false.
Proof.
  unfold commands, x_commands. intros H. apply in_map_iff in H as (s0 & <- & _).
  reflexivity.
Qed.

Lemma released_before_tagging st :
  consistent r st -> tagging st <> None ->
  forall u, In u (commands r false) -> exists ro, In (Return u ro) (trace st).
Proof.
  intros Hc Ht u Hu. destruct (cs_released _ _ Hc Ht) as [Hpres Hq].
  destruct (releasing st) as [wd|] eqn:Hwd.
  - destruct (cs_fans _ _ Hc false wd Hwd) as (_ & _ & _ & Hops).
    rewrite <- Hops in Hu. apply in_map_iff in Hu as (it & <- & Hit).
    destruct (Hq wd eq_refl) as (_ & _ & _ & Hall).
    destruct (Hall it Hit) as (v & Hv).
    destruct (cs_futures _ _ Hc false wd it _ Hwd Hv) as (_ & ro & _ & Hret).
    exists ro. exact Hret.
  - exfalso. apply Hpres; [|reflexivity]. intros Hn. rewrite Hn in Hu. destruct Hu.
Qed.

Lemma hstep_ordered st a st' :
  consistent r st -> ordered r st -> hstep r st a = Some st' -> ordered r st'.
Proof.
  intros Hc Ho Hstep. destruct (HAction_eq_dec_await a) as [->|Hna].
  - simpl in Hstep. unfold ordered. rewrite (M_resume_trace _ _ Hstep). exact Ho.
  - destruct (hstep_limiter _ _ _ _ Hstep Hna)
      as (wd & la & ro & wd' & evs & Hfan & Hla & Hs & -> & Hns & Hnc).
    destruct (limiter_step_summary _ _ _ _ _ _ _ Hc Hfan Hla Hs Hns Hnc)
      as (_ & _ & _ & S4 & _).
    unfold ordered. rewrite trace_set_fan.
    intros post pre c Heq Hadd u Hu.
    destruct (step_cases _ _ _ _ Hs Hns Hnc)
      as [_ [(-> & _)|[(h & rest & _ & _ & _ & _ & ->)
                      |(it0 & k & r0 & _ & _ & _ & _ & _ & ->)]]];
      simpl in Heq, S4.
    + eapply Ho; eauto.
    + destruct post as [|e post]; simpl in Heq.
      * injection Heq as Hc0 <-. apply released_before_tagging; auto.
        assert (Hin : In c (commands r (which a)))
          by (apply S4; left; rewrite Hc0; reflexivity).
        destruct (which a) eqn:Hw; [simpl in Hfan; congruence|].
        apply untag_commands_not_add in Hin. congruence.
      * injection Heq as _ Heq. eapply Ho; eauto.
    + destruct post as [|e post]; simpl in Heq; [discriminate|].
      injection Heq as _ Heq. eapply Ho; eauto.
Qed.

Lemma hexec_ordered acts : forall st st',
  consistent r st -> ordered r st -> hexec r st acts = Some st' -> ordered r st'.
Proof.
  induction acts as [|a rest IH]; simpl; intros st st' Hc Ho H.
  - injection H as <-. exact Ho.
  - destruct (hstep r st a) as [st1|] eqn:Hs; [|discriminate].
    eapply IH; [| |exact H].
    + eapply hstep_consistent; eauto.
    + eapply hstep_ordered; eauto.
Qed.

Lemma reachable_ordered st : reachable r st -> ordered r st.
Proof.
  intros (acts & H). eapply hexec_ordered; [| |exact H].
  - apply M_begin_consistent.
  - unfold ordered. rewrite M_begin_trace. intros [|e post] pre c Heq; discriminate.
Qed.

End Consistency.

(* ===================================================================== *)
(** ** Theorems: construction of a limiter *)
(* ===================================================================== *)

(** C8: [z] throws its TypeError exactly when the concurrency is neither a
    positive integer nor [Infinity]; on every positive integer and on
    [Infinity] it returns a limiter, and it throws nothing else. *)
Theorem limiter_construction (T : Type) (r : JS.value) :
  (@z T r = inl (JS.TypeError z_message)
   <-> ~ (is_positive_integer r \/ is_unbounded r))
  /\ ((is_positive_integer r \/ is_unbounded r)
      <-> @z T r = inr (mkLimiter (limit_of r) [] 0%Z))
  /\ (forall e, @z T r = inl e -> e = JS.TypeError z_message).
Proof.
  pose proof (concurrency_ok_spec r) as Hspec. unfold z.
  destruct (concurrency_ok r); simpl.
  - split; [|split].
    + split; [discriminate|]. intros H. exfalso. apply H, (proj1 Hspec). reflexivity.
    + split; [reflexivity|]. intros _. apply (proj1 Hspec). reflexivity.
    + discriminate.
  - split; [|split].
    + split; [|reflexivity]. intros _ H. apply (proj2 Hspec) in H. discriminate H.
    + split; [|discriminate]. intros H. apply (proj2 Hspec) in H. discriminate H.
    + intros e H. injection H as <-. reflexivity.
Qed.

(* ===================================================================== *)
(** ** Theorems: [GlueStartJobRun] *)
(* ===================================================================== *)

(** C9, as the code has it: the constructor throws the [numberOfWorkers]
    error exactly when the integration pattern passed
    [validatePatternSupported] and [numberOfWorkers] is a truthy number
    that is no unresolved token and is not an integer or is below 1; so
    a [numberOfWorkers] of [0], [-0] or [NaN] never raises it. *)
Theorem glue_workers_validation (isUnresolved : JS.number -> bool)
    (props : Glue.GlueStartJobRunProps) :
  (Glue.constructor isUnresolved props = inl (JS.Error Glue.workers_message)
   <-> Glue.integrationPattern props <> Some Glue.WAIT_FOR_TASK_TOKEN
       /\ exists n, Glue.numberOfWorkers props = Some n
            /\ JS.truthy n = true /\ isUnresolved n = false
            /\ (JS.isInteger n = false \/ JS.lt n Glue.one = true))
  /\ (forall n, Glue.numberOfWorkers props = Some n ->
        (exists sg, n = S754_zero sg) \/ n = JS.NaN ->
        Glue.constructor isUnresolved props <> inl (JS.Error Glue.workers_message)).
Proof.
  assert (Hiff :
    Glue.constructor isUnresolved props = inl (JS.Error Glue.workers_message)
    <-> Glue.integrationPattern props <> Some Glue.WAIT_FOR_TASK_TOKEN
        /\ Glue.workers_invalid isUnresolved props = true).
  { unfold Glue.constructor.
    destruct (Glue.integrationPattern props) as [[| |]|]; simpl;
      try (destruct (Glue.workers_invalid isUnresolved props); split;
           [intros _; split; [discriminate|reflexivity]
           |reflexivity
           |discriminate
           |intros [_ H]; discriminate]).
    split; [discriminate|]. intros [H _]. destruct (H eq_refl). }
  assert (Hinv : Glue.workers_invalid isUnresolved props = true
    <-> exists n, Glue.numberOfWorkers props = Some n
          /\ JS.truthy n = true /\ isUnresolved n = false
          /\ (JS.isInteger n = false \/ JS.lt n Glue.one = true)).
  { unfold Glue.workers_invalid.
    destruct (Glue.numberOfWorkers props) as [n|].
    - rewrite !andb_true_iff, orb_true_iff, !negb_true_iff. split.
      + intros [[H1 H2] H3]. exists n. auto.
      + intros (n' & Heq & H1 & H2 & H3). injection Heq as <-. auto.
    - split; [discriminate|]. intros (n' & Heq & _). discriminate. }
  split.
  - rewrite Hiff, Hinv. reflexivity.
  - intros n Hn Hfalsy Hthrow. apply Hiff in Hthrow as [_ Hthrow].
    apply Hinv in Hthrow as (n' & Heq & Ht & _).
    rewrite Hn in Heq. injection Heq as <-.
    destruct Hfalsy as [[sg ->]| ->]; discriminate.
Qed.

(** C9, as stated, fails: with an unsupported integration pattern the
    constructor throws at [validatePatternSupported], whatever
    [numberOfWorkers] is (here 1.5). *)
Lemma glue_workers_validation_pattern_first :
  ~ (forall (isUnresolved : JS.number -> bool) (props : Glue.GlueStartJobRunProps),
       Glue.constructor isUnresolved props = inl (JS.Error Glue.workers_message)
       <-> exists n, Glue.numberOfWorkers props = Some n
             /\ JS.truthy n = true /\ isUnresolved n = false
             /\ (JS.isInteger n = false \/ JS.lt n Glue.one = true)).
Proof.
  intros H.
  specialize (H (fun _ => false)
                (Glue.mkProps "GlueJob" (Some Glue.WAIT_FOR_TASK_TOKEN)
                              (Some (S754_finite false 3 (-1))))).
  destruct H as [_ H].
  assert (Hthrow : Glue.constructor (fun _ => false)
            (Glue.mkProps "GlueJob" (Some Glue.WAIT_FOR_TASK_TOKEN)
                          (Some (S754_finite false 3 (-1))))
          = inl (JS.Error Glue.unsupported_message)) by reflexivity.
  rewrite Hthrow in H.
  assert (Hneq : @inl JS.error Glue.GlueStartJobRun (JS.Error Glue.unsupported_message)
                 <> inl (JS.Error Glue.workers_message)) by discriminate.
  apply Hneq, H. exists (S754_finite false 3 (-1)).
  repeat split; auto.
Qed.

(* ===================================================================== *)
(** ** Theorems: [RecordSet] *)
(* ===================================================================== *)

Lemma earlier_checks_other_message (ts : JS.number -> string)
    (props : Route53.RecordSetProps) :
  Route53.earlier_checks ts props <> Some (JS.Error Route53.only_one_message).
Proof.
  unfold Route53.earlier_checks, Route53.weight_check,
    Route53.setIdentifier_length_check, Route53.setIdentifier_policy_check,
    Route53.multiValue_alias_check.
  destruct (Route53.weight props) as [wt|];
    [destruct (JS.truthy wt && _); [simpl; discriminate|]|];
    (destruct (Route53.setIdentifier props) as [id|]; simpl;
     [destruct (JS.truthy_string id && _); [simpl; discriminate|]|]);
    repeat match goal with
           | |- context [if ?c then _ else _] => destruct c
           end; discriminate.
Qed.

(** C10, as the code has it: the constructor throws the "Only one of ..."
    error exactly when the four validations ahead of it pass and more
    than one of [geoLocation], [region], [weight], [multiValueAnswer] and
    [cidrRoutingConfig] is defined; with at most one defined the count
    adds no error. *)
Theorem recordset_routing_policies (Number_toString : JS.number -> string)
    (props : Route53.RecordSetProps) :
  (Route53.constructor_checks Number_toString props
     = Some (JS.Error Route53.only_one_message)
   <-> Route53.earlier_checks Number_toString props = None
       /\ (1 < Route53.nonSimpleRoutingPolicies props)%nat)
  /\ ((Route53.nonSimpleRoutingPolicies props <= 1)%nat ->
      Route53.constructor_checks Number_toString props
      = Route53.earlier_checks Number_toString props)
  /\ Route53.nonSimpleRoutingPolicies props
     = (Nat.b2n (Route53.is_defined (Route53.geoLocation props))
        + Nat.b2n (Route53.is_defined (Route53.region props))
        + Nat.b2n (Route53.is_defined (Route53.weight props))
        + Nat.b2n (Route53.is_defined (Route53.multiValueAnswer props))
        + Nat.b2n (Route53.is_defined (Route53.cidrRoutingConfig props)))%nat.
Proof.
  pose proof (earlier_checks_other_message Number_toString props) as Hother.
  unfold Route53.constructor_checks.
  destruct (Route53.earlier_checks Number_toString props) as [err|].
  - split; [|split].
    + split; [intros H; congruence|intros [H _]; discriminate].
    + reflexivity.
    + unfold Route53.nonSimpleRoutingPolicies.
      destruct (Route53.geoLocation props), (Route53.region props),
        (Route53.weight props), (Route53.multiValueAnswer props),
        (Route53.cidrRoutingConfig props); reflexivity.
  - split; [|split].
    + destruct (1 <? Route53.nonSimpleRoutingPolicies props)%nat eqn:Hlt.
      * apply Nat.ltb_lt in Hlt. split; auto.
      * apply Nat.ltb_ge in Hlt. split; [discriminate|]. intros [_ H]. lia.
    + intros Hle. apply Nat.ltb_ge in Hle. rewrite Hle. reflexivity.
    + unfold Route53.nonSimpleRoutingPolicies.
      destruct (Route53.geoLocation props), (Route53.region props),
        (Route53.weight props), (Route53.multiValueAnswer props),
        (Route53.cidrRoutingConfig props); reflexivity.
Qed.

(** C10, as stated, fails: with [weight = 300] and a [region] two routing
    properties are defined, yet the constructor throws the weight error. *)
Lemma recordset_routing_policies_weight_first :
  ~ (forall (Number_toString : JS.number -> string) (props : Route53.RecordSetProps),
       Route53.constructor_checks Number_toString props
         = Some (JS.Error Route53.only_one_message)
       <-> (1 < Route53.nonSimpleRoutingPolicies props)%nat).
Proof.
  intros H.
  specialize (H (fun _ => "300")
                (Route53.mkRecordSetProps
                   (Route53.mkTarget (Some ["1.2.3.4"]) None)
                   None (Some (JS.of_pos 300)) None (Some "us-east-1") None None)).
  destruct H as [_ H].
  assert (Hcount : (1 < 2)%nat) by lia.
  specialize (H Hcount). vm_compute in H. discriminate H.
Qed.

(* ===================================================================== *)
(** ** Theorems: the reconciler *)
(* ===================================================================== *)

Lemma final_reachable (r : Request) (acts : list HAction) :
  reachable r (final r acts).
Proof.
  unfold final, reachable.
  destruct (hexec r (M_begin r) acts) as [st|] eqn:H.
  - exists acts. exact H.
  - exists []. reflexivity.
Defined.

Lemma includes_In (e : list string) (t : string) :
  includes e t = true <-> In t e.
Proof.
  unfold includes. rewrite existsb_exists. split.
  - intros (y & Hy & Heq). apply String.eqb_eq in Heq. subst. exact Hy.
  - intros H. exists t. split; [exact H|apply String.eqb_refl].
Qed.

(** [P] is the difference of its arguments. *)
Lemma P_In (a b : list string) (s : string) :
  In s (P a b) <-> In s a /\ ~ In s b.
Proof.
  unfold P. rewrite filter_In, negb_true_iff.
  pose proof (includes_In b s) as H.
  destruct (includes b s).
  - split; [intros [_ Hc]; discriminate|].
    intros [_ Hn]. exfalso. apply Hn, H. reflexivity.
  - split; intros [H1 _]; split; auto.
    intros Hin. apply H in Hin. discriminate.
Qed.

Lemma commands_tag (r : Request) (c : Command) :
  In c (commands r true) <->
  exists s, In s (to_tag r)
    /\ c = addTagsToResource s "Parameter" [(tag_key (ResourceProperties r), "true")].
Proof.
  unfold commands, w_commands. rewrite in_map_iff.
  split; intros (s & H1 & H2); exists s; auto.
Qed.

Lemma commands_untag (r : Request) (c : Command) :
  In c (commands r false) <->
  exists s, In s (to_untag r)
    /\ c = removeTagsFromResource [tag_key (ResourceProperties r)] "Parameter" s.
Proof.
  unfold commands, x_commands. rewrite in_map_iff.
  split; intros (s & H1 & H2); exists s; auto.
Qed.

(** Once the invocation has fulfilled, every command of both fan-outs
    was sent and has returned. *)
Lemma success_calls (r : Request) (st : Invocation) v tag c :
  consistent r st -> result st = Some (Fulfilled v) -> In c (commands r tag) ->
  In (Call c) (trace st) /\ exists ro, In (Return c ro) (trace st).
Proof.
  intros Hc Hres Hin. destruct (cs_success _ _ Hc _ Hres) as (_ & Hq & Hpres).
  destruct (fan tag st) as [wd|] eqn:Hfan.
  - destruct (cs_fans _ _ Hc _ _ Hfan) as (_ & _ & _ & Hops).
    rewrite <- Hops in Hin. apply in_map_iff in Hin as (it & <- & Hit).
    destruct (Hq _ _ Hfan) as (_ & _ & _ & Hall).
    destruct (Hall it Hit) as (v' & Hv').
    destruct (cs_futures _ _ Hc _ _ _ _ Hfan Hv') as (H1 & ro & _ & H2). eauto.
  - exfalso. apply (Hpres tag); [|exact Hfan]. intros Hn. rewrite Hn in Hin.
    destruct Hin.
Qed.

(** C1, as the code has it: the references tagged and untagged are the
    names of the ImportSets, their [Object.keys], not their values. Every
    remote call of an invocation is a tag call for a name to tag or an
    untag call for a name to untag, where on Create the names to tag are
    those of the current set, on Update the names to tag are the current
    ones absent from the prior set and the names to untag the prior ones
    absent from the current set, and on Delete the names to untag are the
    current ones; an invocation that fulfils has sent all of these calls. *)
Theorem reconciler_calls_by_name (r : Request) (st : Invocation) :
  reachable r st ->
  (forall c, In (Call c) (trace st) ->
     (exists s, In s (to_tag r)
        /\ c = addTagsToResource s "Parameter"
                 [(tag_key (ResourceProperties r), "true")])
     \/ (exists s, In s (to_untag r)
        /\ c = removeTagsFromResource [tag_key (ResourceProperties r)]
                 "Parameter" s))
  /\ (forall v, result st = Some (Fulfilled v) ->
      (forall s, In s (to_tag r) ->
         In (Call (addTagsToResource s "Parameter"
                     [(tag_key (ResourceProperties r), "true")])) (trace st))
      /\ (forall s, In s (to_untag r) ->
         In (Call (removeTagsFromResource [tag_key (ResourceProperties r)]
                     "Parameter" s)) (trace st)))
  /\ (forall s, In s (to_tag r) <->
        match RequestType r with
        | Create => In s (Object_keys (imports (ResourceProperties r)))
        | Update => In s (Object_keys (imports (ResourceProperties r)))
                    /\ ~ In s (prior_keys r)
        | Delete => False
        end)
  /\ (forall s, In s (to_untag r) <->
        match RequestType r with
        | Create => False
        | Update => In s (prior_keys r)
                    /\ ~ In s (Object_keys (imports (ResourceProperties r)))
        | Delete => In s (Object_keys (imports (ResourceProperties r)))
        end).
Proof.
  intros Hreach. pose proof (reachable_consistent _ _ Hreach) as Hc.
  split; [|split; [|split]].
  - intros c Hin. destruct (cs_calls _ _ Hc _ Hin) as ([|] & wd & _ & H).
    + left. apply commands_tag, H.
    + right. apply commands_untag, H.
  - intros v Hres. split; intros s Hs.
    + apply (success_calls r st v true); auto. apply commands_tag. eauto.
    + apply (success_calls r st v false); auto. apply commands_untag. eauto.
  - intros s. unfold to_tag, current_keys.
    destruct (RequestType r); [reflexivity|apply P_In|simpl; tauto].
  - intros s. unfold to_untag, current_keys.
    destruct (RequestType r); [simpl; tauto|apply P_In|reflexivity].
Qed.

Lemma reconciler_calls_by_name_witness :
  reachable sample_update (final sample_update sample_update_schedule)
  /\ In (Call (addTagsToResource "c" "Parameter" [(sample_key, "true")]))
        (trace (final sample_update sample_update_schedule))
  /\ In "c" (Object_keys (imports (ResourceProperties sample_update)))
  /\ ~ In "c" (prior_keys sample_update).
Proof.
  pose proof (reconciler_calls_by_name sample_update
                (final sample_update sample_update_schedule)
                (final_reachable _ _)) as (_ & Hall & Htag & _).
  split; [apply final_reachable|].
  assert (Hc : In "c" (to_tag sample_update)) by (vm_compute; auto).
  split; [|apply Htag in Hc; exact Hc].
  destruct (Hall (Data (imports (ResourceProperties sample_update))) eq_refl)
    as [H _].
  exact (H "c" Hc).
Defined.

(** C1, as stated, fails: Create with [{a: "r1", b: "r2"}] sends its tag
    calls for [a] and [b]; no call carries [r1] or [r2]. *)
Lemma create_tags_names_not_values :
  exists st,
    hexec sample_create (M_begin sample_create) sample_create_schedule = Some st
    /\ result st = Some (Fulfilled (Data [("a", "r1"); ("b", "r2")]))
    /\ In (Call (addTagsToResource "a" "Parameter" [(sample_key, "true")])) (trace st)
    /\ ~ In "a" (Object_values (imports (ResourceProperties sample_create)))
    /\ forall c, In (Call c) (trace st) ->
         ~ In (resource_id c) (Object_values (imports (ResourceProperties sample_create))).
Proof.
  eexists. split; [vm_compute; reflexivity|].
  split; [reflexivity|]. split; [simpl; auto|]. split.
  - simpl. intros [H|[H|[]]]; discriminate.
  - simpl. intros c [H|[H|[H|[H|[]]]]]; try discriminate; injection H as <-;
      simpl; intros [H|[H|[]]]; discriminate.
Qed.

(** C2: in every invocation, whenever a tag call is sent, the untag call
    of every reference to untag has already returned: the trace, latest
    event first, has the return of each of them behind the tag call. *)
Theorem untag_settles_before_tag (r : Request) (st : Invocation)
    (post pre : list HEvent) (c : Command) :
  reachable r st ->
  trace st = post ++ Call c :: pre ->
  is_add c = true ->
  forall s, In s (to_untag r) ->
    exists ro,
      In (Return (removeTagsFromResource [tag_key (ResourceProperties r)]
                    "Parameter" s) ro) pre.
Proof.
  intros Hreach Htr Hadd s Hs.
  apply (reachable_ordered _ _ Hreach post pre c Htr Hadd).
  apply commands_untag. eauto.
Qed.

Lemma untag_settles_before_tag_witness :
  reachable sample_update (final sample_update sample_update_schedule)
  /\ In "b" (to_untag sample_update)
  /\ exists ro,
       In (Return (removeTagsFromResource [sample_key] "Parameter" "b") ro)
          [Return (removeTagsFromResource [sample_key] "Parameter" "b") Responded;
           Call (removeTagsFromResource [sample_key] "Parameter" "b")].
Proof.
  split; [apply final_reachable|]. split; [vm_compute; auto|].
  apply (untag_settles_before_tag sample_update
           (final sample_update sample_update_schedule)
           [Return (addTagsToResource "c" "Parameter" [(sample_key, "true")]) Responded]
           _
           (addTagsToResource "c" "Parameter" [(sample_key, "true")])
           (final_reachable _ _)).
  - vm_compute. reflexivity.
  - reflexivity.
  - vm_compute. auto.
Defined.

(** C4: an invocation that fulfils returns [{Data: imports}] with the
    current ImportSet of the request on Create and on Update, and nothing
    on Delete. *)
Theorem handler_response (r : Request) (st : Invocation) (v : Response) :
  reachable r st ->
  result st = Some (Fulfilled v) ->
  v = match RequestType r with
      | Create | Update => Data (imports (ResourceProperties r))
      | Delete => Undefined
      end.
Proof.
  intros Hreach Hres.
  destruct (cs_success _ _ (reachable_consistent _ _ Hreach) _ Hres) as (-> & _).
  unfold expected_response. destruct (RequestType r); reflexivity.
Qed.

Lemma handler_response_witness :
  reachable sample_update (final sample_update sample_update_schedule)
  /\ result (final sample_update sample_update_schedule)
     = Some (Fulfilled (Data [("a", "r1"); ("c", "r3")]))
  /\ Data [("a", "r1"); ("c", "r3")]
     = Data (imports (ResourceProperties sample_update)).
Proof.
  split; [apply final_reachable|]. split; [vm_compute; reflexivity|].
  apply (handler_response sample_update
           (final sample_update sample_update_schedule) _
           (final_reachable _ _)).
  vm_compute. reflexivity.
Defined.

Lemma operation_rejected (c : Command) (ro : RemoteOutcome) (e : JS.error) :
  operation_outcome c ro = Rejected e ->
  exists i, ro = Failed i
    /\ (is_add c = false -> name i <> "InvalidResourceId")
    /\ e = JS.Error ((if is_add c then "Error importing "
                      else "Error releasing import ")
                     ++ resource_id c ++ ": " ++ to_string i)%string.
Proof.
  destruct c as [s rt tags|keys rt s], ro as [|i]; simpl; try discriminate.
  - intros H. injection H as <-. exists i. repeat split. discriminate.
  - destruct (String.eqb (name i) "InvalidResourceId") eqn:Hn; [discriminate|].
    intros H. injection H as <-. exists i. repeat split.
    intros _. apply String.eqb_neq. exact Hn.
Qed.




(* ===================================================================== *)
(** ** Theorems: the limiter *)
(* ===================================================================== *)

(** C5: from the construction of a limiter on, after any sequence of
    submissions, admission turns, settlements, resumptions and
    [clearQueue] calls, [activeCount] is at least 0 and at most the
    concurrency, also between the [t--] and the admission inside [o], and
    it bounds the operations in flight; in an invocation of the
    reconciler each fan-out has concurrency 10 and at most 10 remote
    calls in flight. *)
Theorem activeCount_bounded :
  (forall (A V E : Type) (r : JS.value) (l : Limiter (Item A))
          (acts : list (Action A V E)) (w : World A V E) (evs : list (Event A V E)),
      z r = inr l -> exec (fresh l) acts = Some (w, evs) ->
      (0 <= activeCount (limiter w))%Z
      /\ concurrency (limiter w) = limit_of r
      /\ within (activeCount (limiter w)) (limit_of r)
      /\ (Z.of_nat (length (running w)) <= activeCount (limiter w))%Z
      /\ (forall k w' evs', step w (Resume k) = Some (w', evs') ->
            (0 <= activeCount (limiter (decrement w)))%Z
            /\ within (activeCount (limiter (decrement w))) (limit_of r)))
  /\ (forall (r : Request) (st : Invocation) (tag : bool) (wd : FanOut),
        reachable r st -> fan tag st = Some wd ->
        concurrency (limiter wd) = Finite 10
        /\ (0 <= activeCount (limiter wd) <= 10)%Z
        /\ (length (running wd) <= 10)%nat).
Proof.
  split.
  - intros A V E r l acts w evs Hz Hex.
    pose proof (exec_counted _ _ _ _ (fresh_counted r l Hz) Hex) as [Hn Hw].
    pose proof (exec_concurrency _ _ _ _ Hex) as Hc.
    apply z_returns in Hz as [_ ->]. simpl in Hc. rewrite Hc in Hw.
    split; [lia|]. split; [exact Hc|]. split; [exact Hw|]. split; [lia|].
    intros k w' evs' Hs. simpl in Hs.
    destruct (find (has_ticket k) (resuming w)) as [it|] eqn:Hf; [|discriminate].
    apply find_some in Hf as [Hin _].
    assert (length (resuming w) <> 0)%nat
      by (destruct (resuming w); [destruct Hin|discriminate]).
    unfold decrement. simpl. split; [lia|].
    destruct (limit_of r); simpl in *; [lia|trivial].
  - intros r st tag wd Hreach Hfan.
    destruct (cs_fans _ _ (reachable_consistent _ _ Hreach) _ _ Hfan)
      as (_ & [Hn Hw] & Hc & _).
    rewrite Hc in Hw. simpl in Hw. split; [exact Hc|]. split; lia.
Qed.

Lemma activeCount_bounded_witness :
  @z (Item nat) (JS.VNumber (JS.of_pos 1)) = inr sample_limiter
  /\ exec (fresh sample_limiter) ([Submit 10; Submit 20] ++ sample_run)
     = Some (sample_done, sample_events)
  /\ (0 <= activeCount (limiter sample_done))%Z
  /\ within (activeCount (limiter sample_done)) (Finite 1).
Proof.
  assert (Hz : @z (Item nat) (JS.VNumber (JS.of_pos 1)) = inr sample_limiter)
    by (vm_compute; reflexivity).
  assert (Hex : exec (fresh sample_limiter) ([Submit 10; Submit 20] ++ sample_run)
                = Some (sample_done, sample_events))
    by (vm_compute; reflexivity).
  split; [exact Hz|]. split; [exact Hex|].
  destruct activeCount_bounded as [H _].
  destruct (H nat unit string (JS.VNumber (JS.of_pos 1)) sample_limiter
              ([Submit 10; Submit 20] ++ sample_run) sample_done sample_events
              Hz Hex)
    as (H1 & H2 & H3 & _).
  split; [exact H1|]. rewrite <- H2 in H3. exact H3.
Defined.

(** C6: admission is in submission order. In a world reached from a
    fresh limiter the ticket of every entry is the rank of its
    submission, and among the entries waiting in the queue the order of
    the queue is the order of submission. So of two entries that are
    queued at the same time, the one submitted first is invoked before
    the other in every continuation that invokes the other (events are
    listed latest first). A step that invokes an entry invokes the
    head of the queue, alone, with the counter below the concurrency
    just before its [t++]; and an admission turn on a non-empty queue
    invokes the head exactly when [activeCount] is below the
    concurrency. *)
Theorem fifo_admission (A V E : Type) (r : JS.value) (l : Limiter (Item A))
    (acts0 : list (Action A V E)) (w : World A V E) (evs0 : list (Event A V E)) :
  z r = inr l -> exec (fresh l) acts0 = Some (w, evs0) ->
  (forall it p, nth_error (submitted w) p = Some it -> ticket it = p)
  /\ (forall i j,
        precedes i j (queue (limiter w))
        <-> In i (queue (limiter w)) /\ In j (queue (limiter w))
            /\ precedes i j (submitted w))
  /\ (forall i j acts w' evs,
        In i (queue (limiter w)) -> In j (queue (limiter w)) ->
        precedes i j (submitted w) ->
        exec w acts = Some (w', evs) -> In (Invoked j) evs ->
        precedes (Invoked j) (Invoked i) evs)
  /\ (forall i j acts w' evs,
        precedes i j (queue (limiter w)) ->
        exec w acts = Some (w', evs) -> In (Invoked j) evs ->
        precedes (Invoked j) (Invoked i) evs)
  /\ (forall a w' evs it,
        step w a = Some (w', evs) -> In (Invoked it) evs ->
        (exists rest, queue (limiter w) = it :: rest)
        /\ evs = [Invoked it]
        /\ below (activeCount (limiter w') - 1) (concurrency (limiter w)) = true)
  /\ (forall w' evs h rest,
        step w Turn = Some (w', evs) -> queue (limiter w) = h :: rest ->
        evs = if below (activeCount (limiter w)) (concurrency (limiter w))
              then [Invoked h] else []).
Proof.
  intros Hz Hex.
  pose proof (exec_counted _ _ _ _ (fresh_counted r l Hz) Hex) as [Hn Hw].
  assert (Hwf0 : well_formed (fresh l : World A V E)).
  { apply fresh_well_formed. apply z_returns in Hz as [_ ->]. reflexivity. }
  assert (Hwf : well_formed w) by (eapply exec_well_formed; eauto).
  assert (Hord : forall i j, precedes i j (queue (limiter w)) ->
                   (ticket i < ticket j)%nat).
  { eapply exec_queue_order; [exact Hwf0| |exact Hex].
    intros i j (l1 & l2 & l3 & H). apply z_returns in Hz as [_ ->].
    simpl in H. destruct l1; discriminate. }
  split; [|split; [|split; [|split; [|split]]]].
  - intros it p Hp. eapply ticket_is_rank; eauto.
  - intros i j. apply queue_order_is_submission_order; assumption.
  - intros i j acts w' evs Hi Hj Hsub Hrun Hin.
    eapply exec_fifo; [exact Hwf| |exact Hrun|exact Hin].
    apply (queue_order_is_submission_order w i j Hwf Hord). auto.
  - intros i j acts w' evs Hpre Hrun Hin. eapply exec_fifo; eauto.
  - intros a w' evs it Hs Hin.
    destruct (step_effect _ _ _ _ Hs)
      as [(h & rest & Hq & _ & _ & -> & Ha)|[Hno _]]; [|destruct (Hno _ Hin)].
    destruct Hin as [Heq|[]]. injection Heq as ->.
    split; [eauto|]. split; [reflexivity|].
    destruct w as [[c q t] tk run res fut sub]. simpl in *. subst q.
    destruct Ha as [->|(k & ->)]; simpl in Hs.
    + destruct tk; [discriminate|]. unfold admission_turn in Hs.
      cbn -[size Z.gtb] in Hs. rewrite size_cons_pos, andb_true_r in Hs.
      destruct (below t c) eqn:Hb; simpl in Hs; [|discriminate Hs].
      injection Hs as <-. simpl.
      replace (t + 1 - 1)%Z with t by lia. exact Hb.
    + destruct (find (has_ticket k) res); [|discriminate].
      unfold o in Hs. cbn -[size Z.gtb] in Hs. rewrite size_cons_pos in Hs.
      simpl in Hs. injection Hs as <-. simpl.
      replace (t - 1 + 1 - 1)%Z with (t - 1)%Z by lia.
      destruct c; simpl in *; [apply Z.ltb_lt; lia|reflexivity].
  - intros w' evs h rest Hs Hq.
    destruct w as [[c q t] tk run res fut sub]. simpl in *. subst q.
    destruct tk; [discriminate|]. unfold admission_turn in Hs.
    cbn -[size Z.gtb] in Hs. rewrite size_cons_pos, andb_true_r in Hs.
    destruct (below t c); simpl in Hs; injection Hs as _ <-; reflexivity.
Qed.

Lemma fifo_admission_witness :
  @z (Item nat) (JS.VNumber (JS.of_pos 1)) = inr sample_limiter
  /\ exec (fresh sample_limiter) [Submit 10; Submit 20] = Some (sample_queued, [])
  /\ precedes sample_first sample_second (submitted sample_queued)
  /\ exec sample_queued sample_run = Some (sample_done, sample_events)
  /\ In (Invoked sample_second) sample_events
  /\ precedes (Invoked sample_second) (Invoked sample_first) sample_events.
Proof.
  assert (Hz : @z (Item nat) (JS.VNumber (JS.of_pos 1)) = inr sample_limiter)
    by (vm_compute; reflexivity).
  assert (Hex : exec (fresh sample_limiter) [Submit 10; Submit 20]
                = Some (sample_queued, []))
    by (vm_compute; reflexivity).
  assert (Hi : In sample_first (queue (limiter sample_queued)))
    by (left; reflexivity).
  assert (Hj : In sample_second (queue (limiter sample_queued)))
    by (right; left; reflexivity).
  assert (Hpre : precedes sample_first sample_second (submitted sample_queued))
    by (exists [], [], []; reflexivity).
  assert (Hrun : exec sample_queued sample_run = Some (sample_done, sample_events))
    by (vm_compute; reflexivity).
  assert (Hin : In (Invoked sample_second) sample_events)
    by (left; reflexivity).
  split; [exact Hz|]. split; [exact Hex|]. split; [exact Hpre|].
  split; [exact Hrun|]. split; [exact Hin|].
  destruct (fifo_admission nat unit string (JS.VNumber (JS.of_pos 1))
              sample_limiter [Submit 10; Submit 20] sample_queued [] Hz Hex)
    as (_ & _ & H & _).
  exact (H sample_first sample_second sample_run sample_done sample_events
           Hi Hj Hpre Hrun Hin).
Defined.

(** C7: take any schedule in which the operation of entry [k] settles,
    and let it end in any other way, a rejection included: the schedule
    still runs, the limiter ends with the same queue, counter, running
    and resuming entries and has invoked the same entries, every other
    future is settled as before, and the future of [k] holds the new
    outcome; resuming after a settlement takes one off the counter and
    invokes the head of the queue, whatever the outcome was. *)
Theorem failure_is_local (A V E : Type) (w : World A V E)
    (acts : list (Action A V E)) (w1 : World A V E) (ev1 : list (Event A V E))
    (k : nat) (r : Outcome V E) :
  exec w acts = Some (w1, ev1) -> settles k acts ->
  (exists w2 ev2,
      exec w (with_outcome k r acts) = Some (w2, ev2)
      /\ limiter w2 = limiter w1 /\ ticks w2 = ticks w1
      /\ running w2 = running w1 /\ resuming w2 = resuming w1
      /\ submitted w2 = submitted w1
      /\ (forall it, In (Invoked it) ev2 <-> In (Invoked it) ev1)
      /\ (forall k', k' <> k -> future_of k' w2 = future_of k' w1)
      /\ future_of k w2 = Some r)
  /\ (forall k0 w' evs,
        step w1 (Resume k0) = Some (w', evs) ->
        activeCount (limiter w')
        = (activeCount (limiter w1) - 1
           + Z.of_nat (length (firstn 1 (queue (limiter w1)))))%Z
        /\ queue (limiter w') = skipn 1 (queue (limiter w1))
        /\ futures w' = futures w1).
Proof.
  intros Hex Hset. split.
  - destruct (exec_same_but k r acts w w w1 ev1 (same_but_refl k w) Hex)
      as (w2 & ev2 & He2 & Hsim & [_ Hev] & Hfin).
    destruct Hsim as (H1 & H2 & H3 & H4 & H5 & _ & H6).
    exists w2, ev2. split; [exact He2|]. repeat split; auto.
    + apply Hev.
    + apply Hev.
    + intros k' Hk. symmetry. apply H6, Hk.
  - intros k0 w' evs Hs. destruct w1 as [[c q t] tk run res fut sub].
    simpl in Hs. destruct (find (has_ticket k0) res); [|discriminate].
    unfold o in Hs. simpl in Hs.
    destruct q as [|h rest]; simpl in Hs; injection Hs as <- _; simpl.
    + split; [lia|auto].
    + split; [lia|auto].
Qed.

Lemma failure_is_local_witness :
  exec sample_queued sample_run = Some (sample_done, sample_events)
  /\ settles 0 sample_run
  /\ exists w2 ev2,
       exec sample_queued (with_outcome 0 (Rejected "boom") sample_run)
       = Some (w2, ev2)
       /\ limiter w2 = limiter sample_done
       /\ future_of 1 w2 = future_of 1 sample_done
       /\ future_of 0 w2 = Some (Rejected "boom").
Proof.
  assert (Hrun : exec sample_queued sample_run = Some (sample_done, sample_events))
    by (vm_compute; reflexivity).
  assert (Hs : settles 0 sample_run)
    by (exists (Fulfilled tt); right; left; reflexivity).
  split; [exact Hrun|]. split; [exact Hs|].
  destruct (failure_is_local nat unit string sample_queued sample_run
              sample_done sample_events 0 (Rejected "boom") Hrun Hs)
    as [(w2 & ev2 & H1 & H2 & _ & _ & _ & _ & _ & H3 & H4) _].
  exists w2, ev2. split; [exact H1|]. split; [exact H2|].
  split; [|exact H4]. apply (H3 1%nat). discriminate.
Defined.

(* ===================================================================== *)
(** ** More on the limiter *)
(* ===================================================================== *)

Section LimiterExtras.
Context {A V E : Type}.
Implicit Types (w : World A V E) (it : Item A) (a : Action A V E).

Lemma step_served w a w' evs :
  served w -> step w a = Some (w', evs) -> served w'.
Proof.
  unfold served. destruct w as [[c q t] tk run res fut sub].
  destruct a; simpl; intros Hsv H.
  - injection H as <- _. simpl. unfold enqueue, size in *.
    rewrite length_app. simpl. destruct c; lia.
  - destruct tk; [discriminate|]. unfold admission_turn in H. simpl in H.
    destruct (below t c) eqn:Hb; simpl in H.
    + destruct q as [|h rest]; simpl in H; injection H as <- _; simpl.
      * unfold size in *. simpl in *. destruct c; lia.
      * unfold size in *. simpl length in *.
        destruct c; simpl in Hb; [apply Z.ltb_lt in Hb|]; lia.
    + injection H as <- _. simpl. destruct c; simpl in Hb; [|discriminate].
      apply Z.ltb_ge in Hb. lia.
  - destruct (find (has_ticket k) run); [|discriminate].
    injection H as <- _. simpl. exact Hsv.
  - destruct (find (has_ticket k) res); [|discriminate].
    unfold o in H. simpl in H.
    destruct q as [|h rest]; simpl in H; injection H as <- _; simpl.
    + unfold size in *. simpl in *. destruct c; lia.
    + unfold size in *. simpl length in *. destruct c; lia.
  - injection H as <- _. simpl. unfold size. simpl. destruct c; lia.
Qed.

Lemma exec_served acts : forall w w' evs,
  served w -> exec w acts = Some (w', evs) -> served w'.
Proof.
  induction acts as [|a rest IH]; simpl; intros w w' evs Hc H.
  - injection H as <- _. exact Hc.
  - destruct (step w a) as [[w1 ev1]|] eqn:Hs; [|discriminate].
    destruct (exec w1 rest) as [[w2 ev2]|] eqn:He; [|discriminate].
    injection H as <- _. eapply IH; [|exact He].
    eapply step_served; eauto.
Qed.

Lemma fresh_served (l : Limiter (Item A)) :
  queue l = [] -> served (fresh l : World A V E).
Proof.
  intros Hq. unfold served. simpl. rewrite Hq. unfold size. simpl.
  destruct (concurrency l); lia.
Qed.

(** X1: the limiter is work-conserving. In every world reached from a
    fresh limiter, if an entry waits in the queue while [activeCount] is
    below the concurrency, then an admission turn is still pending and
    running it invokes the head of the queue. *)
Theorem free_slot_is_served (r : JS.value) (l : Limiter (Item A))
    (acts : list (Action A V E)) (w : World A V E) (evs : list (Event A V E))
    (h : Item A) (rest : list (Item A)) :
  z r = inr l -> exec (fresh l) acts = Some (w, evs) ->
  queue (limiter w) = h :: rest ->
  below (activeCount (limiter w)) (concurrency (limiter w)) = true ->
  (0 < ticks w)%nat
  /\ exists w', step w Turn = Some (w', [Invoked h])
       /\ queue (limiter w') = rest
       /\ activeCount (limiter w') = (activeCount (limiter w) + 1)%Z.
Proof.
  intros Hz Hex Hq Hb.
  assert (Hsv : served w).
  { eapply exec_served; [|exact Hex]. apply fresh_served.
    apply z_returns in Hz as [_ ->]. reflexivity. }
  unfold served in Hsv. destruct w as [[c q t] tk run res fut sub].
  simpl in *. subst q.
  assert (Htk : (0 < tk)%nat).
  { unfold size in Hsv. simpl length in Hsv.
    destruct c; simpl in Hb; [apply Z.ltb_lt in Hb|]; lia. }
  split; [exact Htk|].
  destruct tk; [lia|]. unfold admission_turn.
  cbn -[size Z.gtb]. rewrite Hb, size_cons_pos. simpl.
  eexists. split; [reflexivity|]. simpl. auto.
Qed.


(** *** [clearQueue] *)

Lemma step_retired k w a w' evs :
  well_formed w -> retired k w -> step w a = Some (w', evs) ->
  retired k w' /\ future_of k w' = future_of k w
  /\ (forall it, In (Invoked it) evs -> ticket it <> k).
Proof.
  intros Hwf [Hlt Hout] Hs.
  assert (Hq : forall it, In it (queue (limiter w)) -> ticket it <> k).
  { intros it Hit. apply Hout. apply in_app_iff. auto. }
  assert (Hr : forall it, In it (running w) -> ticket it <> k).
  { intros it Hit. apply Hout. apply in_app_iff. auto. }
  destruct w as [[c q t] tk run res fut sub]. unfold retired, pending, future_of in *.
  simpl in *. destruct a; simpl in Hs.
  - injection Hs as <- <-. simpl. split; [|split; [reflexivity|intros it []]].
    split; [rewrite length_app; simpl; lia|].
    intros it Hit. unfold enqueue in Hit. rewrite app_assoc in Hit.
    apply in_app_iff in Hit as [Hit|[<-|[]]]; [auto|]. simpl. lia.
  - destruct tk; [discriminate|]. unfold admission_turn in Hs. simpl in Hs.
    destruct (below t c && (size q >? 0)%Z); [destruct q as [|h rest]|];
      simpl in Hs; injection Hs as <- <-; simpl.
    + split; [auto|]. split; [reflexivity|intros it []].
    + split; [|split; [reflexivity|]].
      * split; [exact Hlt|]. intros it [<-|Hit]; [apply Hq; left; reflexivity|].
        apply Hout. apply in_app_iff in Hit as [Hit|Hit]; apply in_app_iff; auto.
        right. right. exact Hit.
      * intros it [Heq|[]]. injection Heq as <-. apply Hq. left. reflexivity.
    + split; [auto|]. split; [reflexivity|intros it []].
  - destruct (find (has_ticket k0) run) as [it0|] eqn:Hf; [|discriminate].
    injection Hs as <- <-. simpl. apply find_ticket in Hf as [Hin0 Hk0].
    split; [|split].
    + split; [exact Hlt|]. intros it Hit. apply Hout.
      apply in_app_iff in Hit as [Hit|Hit]; apply in_app_iff; auto.
      left. apply remove_ticket_In in Hit. tauto.
    + apply settlement_cons_ne. apply Hr, Hin0.
    + intros it [Hc|[]]. discriminate.
  - destruct (find (has_ticket k0) res); [|discriminate].
    unfold o in Hs. simpl in Hs.
    destruct q as [|h rest]; simpl in Hs; injection Hs as <- <-; simpl.
    + split; [auto|]. split; [reflexivity|intros it []].
    + split; [|split; [reflexivity|]].
      * split; [exact Hlt|]. intros it [<-|Hit]; [apply Hq; left; reflexivity|].
        apply Hout. apply in_app_iff in Hit as [Hit|Hit]; apply in_app_iff; auto.
        right. right. exact Hit.
      * intros it [Heq|[]]. injection Heq as <-. apply Hq. left. reflexivity.
  - injection Hs as <- <-. simpl. split; [|split; [reflexivity|intros it []]].
    split; [exact Hlt|]. intros it Hit. rewrite app_nil_r in Hit. auto.
Qed.

Lemma exec_retired k acts : forall w w' evs,
  well_formed w -> retired k w -> exec w acts = Some (w', evs) ->
  future_of k w' = future_of k w
  /\ (forall it, In (Invoked it) evs -> ticket it <> k).
Proof.
  induction acts as [|a rest IH]; simpl; intros w w' evs Hwf Hret H.
  - injection H as <- <-. split; [reflexivity|intros it []].
  - destruct (step w a) as [[w1 ev1]|] eqn:Hs; [|discriminate].
    destruct (exec w1 rest) as [[w2 ev2]|] eqn:He; [|discriminate].
    injection H as <- <-.
    destruct (step_retired _ _ _ _ _ Hwf Hret Hs) as (Hret1 & Hf1 & Hi1).
    pose proof (step_well_formed _ _ _ _ Hwf Hs) as Hwf1.
    destruct (IH _ _ _ Hwf1 Hret1 He) as [Hf2 Hi2].
    split; [congruence|]. intros it Hit.
    apply in_app_iff in Hit as [Hit|Hit]; auto.
Qed.

(** X2: [clearQueue] empties the queue and leaves the counter alone, and
    an entry it discarded is lost for good: whatever happens afterwards,
    its operation is never invoked and its future never settles. *)
Theorem cleared_entries_never_settle (r : JS.value) (l : Limiter (Item A))
    (acts0 : list (Action A V E)) (w : World A V E) (evs0 : list (Event A V E))
    (it : Item A) (acts : list (Action A V E)) (w' : World A V E)
    (evs : list (Event A V E)) :
  z r = inr l -> exec (fresh l) acts0 = Some (w, evs0) ->
  In it (queue (limiter w)) ->
  exec (clearQueue w) acts = Some (w', evs) ->
  pendingCount (limiter (clearQueue w)) = 0%Z
  /\ activeCount (limiter (clearQueue w)) = activeCount (limiter w)
  /\ ~ In (Invoked it) evs
  /\ future_of (ticket it) w' = None.
Proof.
  intros Hz Hex Hin Hrun.
  assert (Hwf : well_formed w).
  { eapply exec_well_formed; [|exact Hex]. apply fresh_well_formed.
    apply z_returns in Hz as [_ ->]. reflexivity. }
  assert (Hstep : step w Clear = Some (clearQueue w, [])) by reflexivity.
  pose proof (step_well_formed _ _ _ _ Hwf Hstep) as Hwf1.
  assert (Hpend : In it (pending w)) by (apply in_app_iff; auto).
  assert (Hret : retired (ticket it) (clearQueue w)).
  { split.
    - destruct w as [[c q t] tk run res fut sub]. simpl.
      apply (ticket_bound _ _ Hwf). apply (wf_incl _ Hwf _ Hpend).
    - intros it' Hit' Heq.
      assert (Hrun' : In it' (running w)).
      { destruct w as [[c q t] tk run res fut sub]. unfold pending in Hit'.
        simpl in *. rewrite app_nil_r in Hit'. exact Hit'. }
      assert (it' = it).
      { apply (ticket_inj w); auto; apply (wf_incl _ Hwf);
          [apply in_app_iff; auto|exact Hpend]. }
      subst it'. pose proof (wf_nodup _ Hwf) as Hnd. unfold pending in Hnd.
      apply in_split in Hin as (l1 & l2 & Hq). rewrite Hq in Hnd.
      rewrite app_assoc in Hnd. apply NoDup_remove_2 in Hnd. apply Hnd.
      rewrite !in_app_iff. auto. }
  destruct (exec_retired _ _ _ _ _ Hwf1 Hret Hrun) as [Hfut Hinv].
  split; [|split; [|split]].
  - destruct w as [[c q t] tk run res fut sub]. reflexivity.
  - destruct w as [[c q t] tk run res fut sub]. reflexivity.
  - intros Hi. exact (Hinv _ Hi eq_refl).
  - rewrite Hfut.
    replace (future_of (ticket it) (clearQueue w)) with (future_of (ticket it) w)
      by (destruct w as [[c q t] tk run res fut sub]; reflexivity).
    apply (wf_unsettled _ Hwf _ Hpend).
Qed.


End LimiterExtras.

Lemma free_slot_is_served_witness :
  @z (Item nat) (JS.VNumber (JS.of_pos 1)) = inr sample_limiter
  /\ exec (fresh sample_limiter) [Submit 10; Submit 20] = Some (sample_queued, [])
  /\ (0 < ticks sample_queued)%nat.
Proof.
  assert (Hz : @z (Item nat) (JS.VNumber (JS.of_pos 1)) = inr sample_limiter)
    by (vm_compute; reflexivity).
  assert (Hex : exec (fresh sample_limiter) [Submit 10; Submit 20]
                = Some (sample_queued, []))
    by (vm_compute; reflexivity).
  split; [exact Hz|]. split; [exact Hex|].
  apply (free_slot_is_served (JS.VNumber (JS.of_pos 1)) sample_limiter
           [Submit 10; Submit 20] sample_queued [] sample_first [sample_second]
           Hz Hex eq_refl eq_refl).
Defined.

Lemma cleared_entries_never_settle_witness :
  @z (Item nat) (JS.VNumber (JS.of_pos 1)) = inr sample_limiter
  /\ exec (fresh sample_limiter) [Submit 10; Submit 20] = Some (sample_queued, [])
  /\ In sample_second (queue (limiter sample_queued))
  /\ future_of 1 (clearQueue sample_queued) = None.
Proof.
  assert (Hz : @z (Item nat) (JS.VNumber (JS.of_pos 1)) = inr sample_limiter)
    by (vm_compute; reflexivity).
  assert (Hex : exec (fresh sample_limiter) [Submit 10; Submit 20]
                = Some (sample_queued, []))
    by (vm_compute; reflexivity).
  assert (Hin : In sample_second (queue (limiter sample_queued)))
    by (right; left; reflexivity).
  split; [exact Hz|]. split; [exact Hex|]. split; [exact Hin|].
  apply (cleared_entries_never_settle (JS.VNumber (JS.of_pos 1)) sample_limiter
           [Submit 10; Submit 20] sample_queued [] sample_second
           [] (clearQueue sample_queued) [] Hz Hex Hin eq_refl).
Defined.

(* ===================================================================== *)
(** ** The limiter runs everything it was given *)
(* ===================================================================== *)

Section Drain.
Context {A V E : Type}.
Implicit Types (w : World A V E) (it : Item A) (a : Action A V E).

Lemma remove_ticket_id k (l : list (Item A)) :
  (forall x, In x l -> ticket x <> k) -> remove_ticket k l = l.
Proof.
  induction l as [|y l IH]; simpl; intros H; [reflexivity|].
  unfold remove_ticket in *. simpl. unfold has_ticket at 1.
  destruct (Nat.eqb_spec (ticket y) k) as [Heq|_]; simpl.
  - destruct (H y (or_introl eq_refl) Heq).
  - rewrite IH; auto.
Qed.

Lemma remove_ticket_perm k (l : list (Item A)) it0 :
  NoDup (map ticket l) -> find (has_ticket k) l = Some it0 ->
  Permutation l (it0 :: remove_ticket k l).
Proof.
  induction l as [|y l IH]; simpl; [discriminate|]. intros Hnd Hf.
  apply NoDup_cons_iff in Hnd as [Hy Hnd].
  unfold remove_ticket in *. simpl. unfold has_ticket at 1 in Hf.
  unfold has_ticket at 1.
  destruct (Nat.eqb_spec (ticket y) k) as [Heq|Hne]; simpl.
  - injection Hf as <-. fold (remove_ticket k l). rewrite remove_ticket_id.
    + apply Permutation_refl.
    + intros x Hx Hk. apply Hy. rewrite Heq, <- Hk. apply in_map, Hx.
  - eapply perm_trans; [apply perm_skip, IH; auto|apply perm_swap].
Qed.

Lemma settlement_cons_keeps k p (futs : list (Item A * Outcome V E)) :
  settlement k futs <> None -> settlement k (p :: futs) <> None.
Proof.
  unfold settlement. simpl. destruct (has_ticket k (fst p)); [destruct p|];
    intros H; [discriminate|exact H].
Qed.

Lemma pending_tickets_NoDup w : well_formed w -> NoDup (map ticket (pending w)).
Proof.
  intros Hwf. pose proof (wf_nodup _ Hwf) as Hnd.
  pose proof (wf_incl _ Hwf) as Hincl.
  assert (Hinj : forall x y, In x (pending w) -> In y (pending w) ->
                   ticket x = ticket y -> x = y).
  { intros x y Hx Hy. apply (ticket_inj w); auto. }
  revert Hnd Hinj. generalize (pending w). intros l.
  induction l as [|x l IH]; simpl; intros Hnd Hinj; [constructor|].
  apply NoDup_cons_iff in Hnd as [Hx Hnd]. constructor.
  - intros Hin. apply in_map_iff in Hin as (y & Hy & Hyl).
    apply Hx. replace x with y; [exact Hyl|]. apply Hinj; auto.
  - apply IH; auto.
Qed.

(** Invoking the head of the queue keeps the tally. *)
Lemma tally_invoke c c' t tk tk' res run h rest futs sub :
  well_formed (mkWorld (mkLimiter c (h :: rest) t) tk run res futs sub
               : World A V E) ->
  (t = Z.of_nat (length run + length res))%Z ->
  NoDup (map ticket (run ++ res)) ->
  (forall it, In it res -> settlement (ticket it) futs <> None) ->
  tally (mkWorld (mkLimiter c' rest (t + 1)%Z) tk' (h :: run) res futs sub).
Proof.
  intros Hwf Ht Hnd Hres. unfold tally, future_of. simpl.
  split; [lia|]. split; [|exact Hres].
  constructor; [|exact Hnd]. intros Hin.
  rewrite map_app in Hin. apply in_app_iff in Hin as [Hin|Hin].
  - pose proof (pending_tickets_NoDup _ Hwf) as Hp. unfold pending in Hp.
    simpl in Hp. rewrite map_app in Hp. simpl in Hp.
    apply NoDup_remove_2 in Hp. apply Hp. apply in_app_iff. auto.
  - apply in_map_iff in Hin as (y & Hy & Hyr).
    apply (Hres y Hyr). rewrite Hy.
    apply (wf_unsettled _ Hwf h). unfold pending. simpl.
    apply in_app_iff. right. left. reflexivity.
Qed.

Lemma step_tally w a w' evs :
  well_formed w -> tally w -> step w a = Some (w', evs) -> tally w'.
Proof.
  intros Hwf (Ht & Hnd & Hres) Hs.
  destruct w as [[c q t] tk run res fut sub]. unfold future_of in *.
  simpl in *. destruct a; simpl in Hs.
  - injection Hs as <- _. unfold tally, future_of. simpl. auto.
  - destruct tk; [discriminate|]. unfold admission_turn in Hs. simpl in Hs.
    destruct (below t c && (size q >? 0)%Z); [destruct q as [|h rest]|];
      simpl in Hs; injection Hs as <- _;
      try (unfold tally, future_of; simpl; auto; fail).
    eapply tally_invoke with (c := c) (tk := S tk); eauto.
  - destruct (find (has_ticket k) run) as [it0|] eqn:Hf; [|discriminate].
    injection Hs as <- _. unfold tally, future_of. simpl.
    assert (Hndr : NoDup (map ticket run)).
    { rewrite map_app in Hnd. eapply NoDup_app_remove_r, Hnd. }
    pose proof (remove_ticket_perm _ _ _ Hndr Hf) as Hperm.
    pose proof (Permutation_length Hperm) as Hlen. simpl in Hlen.
    split; [lia|]. split.
    + eapply Permutation_NoDup; [|exact Hnd]. apply Permutation_map.
      eapply perm_trans; [apply Permutation_app_tail, Hperm|].
      simpl. apply Permutation_middle.
    + intros it [<-|Hit].
      * rewrite settlement_cons_eq. discriminate.
      * apply settlement_cons_keeps. auto.
  - destruct (find (has_ticket k) res) as [it0|] eqn:Hf; [|discriminate].
    assert (Hndr : NoDup (map ticket res)).
    { rewrite map_app in Hnd. eapply NoDup_app_remove_l, Hnd. }
    pose proof (remove_ticket_perm _ _ _ Hndr Hf) as Hperm.
    pose proof (Permutation_length Hperm) as Hlen. simpl in Hlen.
    assert (Hnd' : NoDup (map ticket (run ++ remove_ticket k res))).
    { assert (Hp : Permutation (map ticket (run ++ res))
                     (ticket it0 :: map ticket (run ++ remove_ticket k res))).
      { change (ticket it0 :: map ticket (run ++ remove_ticket k res))
          with (map ticket (it0 :: run ++ remove_ticket k res)).
        apply Permutation_map.
        eapply perm_trans; [apply Permutation_app_head, Hperm|].
        apply Permutation_sym, Permutation_middle. }
      apply (Permutation_NoDup Hp) in Hnd.
      apply NoDup_cons_iff in Hnd as [_ Hnd]. exact Hnd. }
    assert (Hres' : forall it, In it (remove_ticket k res) ->
                      settlement (ticket it) fut <> None).
    { intros it Hit. apply remove_ticket_In in Hit as [Hit _]. auto. }
    unfold o in Hs. simpl in Hs.
    destruct q as [|h rest]; simpl in Hs; injection Hs as <- _.
    + unfold tally, future_of. simpl. split; [lia|auto].
    + replace (t - 1 + 1)%Z with ((t - 1) + 1)%Z by lia.
      eapply tally_invoke with (c := c) (tk := tk); eauto.
      * eapply well_formed_frame, Hwf.
      * lia.
  - injection Hs as <- _. unfold tally, future_of. simpl. auto.
Qed.

Lemma step_accounted w a w' evs :
  accounted w -> step w a = Some (w', evs) -> a <> Clear -> accounted w'.
Proof.
  unfold accounted. intros Hacc Hs Hnc.
  destruct w as [[c q t] tk run res fut sub]. unfold future_of in *.
  simpl in *. destruct a; simpl in Hs.
  - injection Hs as <- _. simpl. intros it Hit. unfold enqueue.
    apply in_app_iff in Hit as [Hit|[<-|[]]].
    + destruct (Hacc it Hit) as [H|[H|H]]; auto. left. apply in_app_iff. auto.
    + left. apply in_app_iff. right. left. reflexivity.
  - destruct tk; [discriminate|]. unfold admission_turn in Hs. simpl in Hs.
    destruct (below t c && (size q >? 0)%Z); [destruct q as [|h rest]|];
      simpl in Hs; injection Hs as <- _; simpl; auto.
    intros it Hit. destruct (Hacc it Hit) as [[<-|H]|[H|H]]; auto.
  - destruct (find (has_ticket k) run) as [it0|] eqn:Hf; [|discriminate].
    injection Hs as <- _. simpl. intros it Hit.
    destruct (Hacc it Hit) as [H|[H|H]]; auto.
    + destruct (Nat.eq_dec (ticket it) k) as [Heq|Hne].
      * right. right. unfold settlement. simpl.
        apply find_ticket in Hf as [_ Hk0]. unfold has_ticket at 1.
        rewrite Hk0, <- Heq, Nat.eqb_refl. discriminate.
      * right. left. apply remove_ticket_In. auto.
    + right. right. apply settlement_cons_keeps, H.
  - destruct (find (has_ticket k) res); [|discriminate].
    unfold o in Hs. simpl in Hs.
    destruct q as [|h rest]; simpl in Hs; injection Hs as <- _; simpl; auto.
    intros it Hit. destruct (Hacc it Hit) as [[<-|H]|[H|H]]; auto.
  - destruct (Hnc eq_refl).
Qed.

Lemma step_sound w a w' evs : sound w -> step w a = Some (w', evs) -> sound w'.
Proof.
  intros (H1 & H2 & H3 & H4) Hs. split; [|split; [|split]].
  - eapply step_well_formed; eauto.
  - eapply step_tally; eauto.
  - eapply step_served; eauto.
  - rewrite (step_concurrency _ _ _ _ Hs). exact H4.
Qed.

Lemma exec_sound acts : forall w w' evs,
  sound w -> exec w acts = Some (w', evs) -> sound w'.
Proof.
  induction acts as [|a rest IH]; simpl; intros w w' evs Hc H.
  - injection H as <- _. exact Hc.
  - destruct (step w a) as [[w1 ev1]|] eqn:Hs; [|discriminate].
    destruct (exec w1 rest) as [[w2 ev2]|] eqn:He; [|discriminate].
    injection H as <- _. eapply IH; [|exact He]. eapply step_sound; eauto.
Qed.

Lemma fresh_sound (r : JS.value) (l : Limiter (Item A)) :
  z r = inr l -> sound (fresh l : World A V E).
Proof.
  intros Hz. pose proof (z_returns _ _ Hz) as [Hok ->].
  split; [|split; [|split]].
  - apply fresh_well_formed. reflexivity.
  - unfold tally. simpl. split; [reflexivity|]. split; [constructor|intros it []].
  - apply fresh_served. reflexivity.
  - simpl. apply concurrency_ok_spec in Hok.
    destruct Hok as [(x & n & Hx & Hpos & q & Hq & Hn)|Hx]; rewrite Hx; simpl.
    + rewrite Hq. simpl. rewrite Hn, Qfloor_Z. lia.
    + trivial.
Qed.

Lemma exec_accounted acts : forall w w' evs,
  accounted w -> exec w acts = Some (w', evs) ->
  (forall a, In a acts -> a <> Clear) -> accounted w'.
Proof.
  induction acts as [|a rest IH]; simpl; intros w w' evs Hc H Hnc.
  - injection H as <- _. exact Hc.
  - destruct (step w a) as [[w1 ev1]|] eqn:Hs; [|discriminate].
    destruct (exec w1 rest) as [[w2 ev2]|] eqn:He; [|discriminate].
    injection H as <- _. eapply IH; [|exact He|auto].
    eapply step_accounted; eauto.
Qed.

(** *** Reaching a drained world *)

Section Schedule.
Variable out : Item A -> Outcome V E.

Lemma drain_settle w it run' :
  running w = it :: run' -> well_formed w ->
  exists w1 ev,
    step w (Settle (ticket it) (out it)) = Some (w1, ev)
    /\ (backlog w1 < backlog w)%nat
    /\ submitted w1 = submitted w
    /\ future_of (ticket it) w1 = Some (out it)
    /\ retired (ticket it) w1
    /\ (forall x, In x (pending w) -> x <> it -> In x (pending w1))
    /\ futures w1 = (it, out it) :: futures w.
Proof.
  intros Hrun Hwf.
  pose proof (pending_tickets_NoDup _ Hwf) as Hnd.
  pose proof (fun x => ticket_bound w x Hwf) as Hb.
  pose proof (wf_incl _ Hwf) as Hincl.
  pose proof (fun x y => ticket_inj w x y Hwf) as Hinj.
  destruct w as [[c q t] tk run res fut sub]. unfold pending in *.
  simpl in *. subst run. simpl.
  unfold has_ticket at 1. rewrite Nat.eqb_refl.
  do 2 eexists. split; [reflexivity|].
  unfold backlog, retired, pending, future_of. simpl.
  assert (Hit : has_ticket (ticket it) it = true)
    by (unfold has_ticket; apply Nat.eqb_refl).
  unfold remove_ticket at 1 2 3. simpl. rewrite Hit. simpl.
  fold (remove_ticket (ticket it) run').
  pose proof (filter_length_le (fun x => negb (has_ticket (ticket it) x)) run') as Hle.
  fold (remove_ticket (ticket it) run') in Hle.
  split; [lia|]. split; [reflexivity|]. split; [apply settlement_cons_eq|].
  split; [split|].
  - apply Hb. apply Hincl. left. reflexivity.
  - intros x Hx Heq. apply in_app_iff in Hx as [Hx|Hx].
    + apply remove_ticket_In in Hx. tauto.
    + simpl in Hnd. apply NoDup_cons_iff in Hnd as [Hnd _]. apply Hnd.
      rewrite <- Heq. apply in_map. apply in_app_iff. auto.
  - split; [|reflexivity]. intros x [<-|Hx] Hne; [congruence|].
    apply in_app_iff in Hx as [Hx|Hx]; apply in_app_iff; auto.
    left. apply remove_ticket_In. split; [exact Hx|]. intros Heq.
    apply Hne. apply Hinj; auto.
    + apply Hincl. right. apply in_app_iff. auto.
    + apply Hincl. left. reflexivity.
Qed.

Lemma drain_resume w it res' :
  running w = [] -> resuming w = it :: res' ->
  exists w1 ev,
    step w (Resume (ticket it)) = Some (w1, ev)
    /\ (backlog w1 < backlog w)%nat
    /\ submitted w1 = submitted w
    /\ (forall x, In x (pending w) -> In x (pending w1))
    /\ futures w1 = futures w.
Proof.
  intros Hrun Hres.
  destruct w as [[c q t] tk run res fut sub]. unfold pending in *.
  simpl in *. subst run res. simpl.
  unfold has_ticket at 1. rewrite Nat.eqb_refl.
  assert (Hit : has_ticket (ticket it) it = true)
    by (unfold has_ticket; apply Nat.eqb_refl).
  pose proof (filter_length_le (fun x => negb (has_ticket (ticket it) x)) res') as Hle.
  unfold o. simpl. unfold remove_ticket. simpl. rewrite Hit. simpl.
  destruct q as [|h rest]; simpl; do 2 eexists;
    (split; [reflexivity|]); unfold backlog, pending; simpl;
    (split; [lia|]); (split; [reflexivity|]); auto.
Qed.

Lemma drain_turn w h rest :
  running w = [] -> resuming w = [] -> queue (limiter w) = h :: rest ->
  sound w ->
  exists w1 ev,
    step w Turn = Some (w1, ev)
    /\ (backlog w1 < backlog w)%nat
    /\ submitted w1 = submitted w
    /\ (forall x, In x (pending w) -> In x (pending w1))
    /\ futures w1 = futures w.
Proof.
  intros Hrun Hres Hq (Hwf & (Ht & _) & Hsv & Hadm).
  unfold served in Hsv.
  destruct w as [[c q t] tk run res fut sub]. unfold pending in *.
  simpl in *. subst run res q. simpl in Ht. subst t.
  assert (Hb : below 0 c = true).
  { destruct c; simpl in *; [apply Z.ltb_lt; lia|reflexivity]. }
  assert (Htk : (0 < tk)%nat).
  { unfold size in Hsv. simpl length in Hsv. destruct c; simpl in Hadm; lia. }
  destruct tk; [lia|]. unfold admission_turn.
  cbn -[size Z.gtb]. rewrite Hb, size_cons_pos. simpl.
  do 2 eexists. split; [reflexivity|]. unfold backlog, pending. simpl.
  split; [lia|]. split; [reflexivity|]. auto.
Qed.

Lemma exec_cons w a w1 ev1 acts w2 ev2 :
  step w a = Some (w1, ev1) -> exec w1 acts = Some (w2, ev2) ->
  exec w (a :: acts) = Some (w2, ev2 ++ ev1).
Proof. intros H1 H2. simpl. rewrite H1, H2. reflexivity. Qed.

Lemma exec_one w a w1 ev1 :
  step w a = Some (w1, ev1) -> exec w [a] = Some (w1, [] ++ ev1).
Proof. intros H. simpl. rewrite H. reflexivity. Qed.

Lemma loop_only_cons a (acts : list (Action A V E)) :
  match a with Submit _ | Clear => False | _ => True end ->
  loop_only acts -> loop_only (a :: acts).
Proof. intros Ha Hl b [<-|Hb]; [exact Ha|exact (Hl b Hb)]. Qed.

Lemma settled_is_retired w k :
  well_formed w -> future_of k w <> None -> retired k w.
Proof.
  intros Hwf Hf. unfold future_of in Hf.
  destruct (settlement k (futures w)) as [r0|] eqn:Hs; [|congruence].
  apply settlement_some in Hs as (it & Hin & Hk). split.
  - rewrite <- Hk. apply ticket_bound; [exact Hwf|]. eapply wf_futures; eauto.
  - intros x Hx Heq. pose proof (wf_unsettled _ Hwf x Hx) as Hn.
    unfold future_of in Hn. rewrite settlement_none in Hn.
    apply (Hn _ _ Hin). congruence.
Qed.

Lemma drain_exists : forall n w,
  (backlog w <= n)%nat -> sound w ->
  exists acts w' evs,
    exec w acts = Some (w', evs) /\ loop_only acts /\ drained w'
    /\ submitted w' = submitted w
    /\ (forall it, In it (pending w) -> future_of (ticket it) w' = Some (out it))
    /\ (forall k, future_of k w <> None -> future_of k w' = future_of k w).
Proof.
  induction n as [|n IH]; intros w Hn Hs.
  - (* nothing queued or active *)
    exists [], w, []. unfold backlog in Hn.
    destruct Hs as (Hwf & (Ht & _) & _).
    destruct w as [[c q t] tk run res fut sub]. unfold pending. simpl in *.
    destruct q; [|simpl in Hn; lia]. destruct run; [|simpl in Hn; lia].
    destruct res; [|simpl in Hn; lia].
    split; [reflexivity|]. split; [intros a []|].
    split; [unfold drained; simpl; auto|]. split; [reflexivity|].
    split; [intros it []|reflexivity].
  - destruct (running w) as [|it run'] eqn:Hrun.
    + destruct (resuming w) as [|it res'] eqn:Hres.
      * destruct (queue (limiter w)) as [|h rest] eqn:Hq.
        -- exists [], w, []. destruct Hs as (Hwf & (Ht & _) & _).
           rewrite Hrun, Hres in Ht. unfold pending. rewrite Hrun, Hq.
           split; [reflexivity|]. split; [intros a []|].
           split; [unfold drained; auto|]. split; [reflexivity|].
           split; [intros it []|reflexivity].
        -- destruct (drain_turn _ _ _ Hrun Hres Hq Hs)
             as (w1 & ev1 & Hstep & Hlt & Hsub & Hpend & _).
           pose proof (step_sound _ _ _ _ Hs Hstep) as Hs1.
           destruct (IH w1 ltac:(lia) Hs1)
             as (acts & w' & evs & Hex & Hlo & Hdr & Hsub' & Hfut & Hold).
           exists (Turn :: acts), w', (evs ++ ev1).
           split; [eapply exec_cons; eauto|].
           split; [apply loop_only_cons; simpl; auto|]. split; [exact Hdr|].
           split; [congruence|]. split; [intros x Hx; apply Hfut, Hpend, Hx|].
           intros k Hk. destruct Hs as (Hwf & _).
           destruct (exec_retired k [Turn] w w1 ([] ++ ev1) Hwf
                       (settled_is_retired _ _ Hwf Hk)) as [Hk1 _].
           { apply exec_one, Hstep. }
           rewrite <- Hk1. apply Hold. congruence.
      * destruct (drain_resume _ _ _ Hrun Hres)
          as (w1 & ev1 & Hstep & Hlt & Hsub & Hpend & _).
        pose proof (step_sound _ _ _ _ Hs Hstep) as Hs1.
        destruct (IH w1 ltac:(lia) Hs1)
          as (acts & w' & evs & Hex & Hlo & Hdr & Hsub' & Hfut & Hold).
        exists (Resume (ticket it) :: acts), w', (evs ++ ev1).
        split; [eapply exec_cons; eauto|].
        split; [apply loop_only_cons; simpl; auto|]. split; [exact Hdr|].
        split; [congruence|]. split; [intros x Hx; apply Hfut, Hpend, Hx|].
        intros k Hk. destruct Hs as (Hwf & _).
        destruct (exec_retired k [Resume (ticket it)] w w1 ([] ++ ev1) Hwf
                    (settled_is_retired _ _ Hwf Hk)) as [Hk1 _].
        { apply exec_one, Hstep. }
        rewrite <- Hk1. apply Hold. congruence.
    + destruct Hs as (Hwf & Hrest).
      destruct (drain_settle _ _ _ Hrun Hwf)
        as (w1 & ev1 & Hstep & Hlt & Hsub & Hnew & Hret & Hpend & _).
      assert (Hs1 : sound w1) by (eapply step_sound; [split; eauto|exact Hstep]).
      destruct (IH w1 ltac:(lia) Hs1)
        as (acts & w' & evs & Hex & Hlo & Hdr & Hsub' & Hfut & Hold).
      exists (Settle (ticket it) (out it) :: acts), w', (evs ++ ev1).
      split; [eapply exec_cons; eauto|].
      split; [apply loop_only_cons; simpl; auto|]. split; [exact Hdr|].
      split; [congruence|]. split.
      * intros x Hx.
        assert (Hdec : x = it \/ x <> it).
        { destruct (Nat.eq_dec (ticket x) (ticket it)) as [Heq|Hne].
          - left. apply (ticket_inj w); auto; apply (wf_incl _ Hwf); auto.
            unfold pending. rewrite Hrun. left. reflexivity.
          - right. congruence. }
        destruct Hdec as [->|Hne]; [|apply Hfut, Hpend; auto].
        rewrite <- Hnew. apply Hold. rewrite Hnew. discriminate.
      * intros k Hk.
        destruct (exec_retired k [Settle (ticket it) (out it)] w w1 ([] ++ ev1) Hwf
                    (settled_is_retired _ _ Hwf Hk)) as [Hk1 _].
        { apply exec_one, Hstep. }
        rewrite <- Hk1. apply Hold. congruence.
Qed.

End Schedule.

End Drain.

(** X3: without [clearQueue] no operation is stranded. From any world
    reached from a fresh limiter by submissions and event-loop steps, and
    for any way the pending operations may end, the event loop alone can
    go on until the queue is empty and [activeCount] is 0; then every
    future ever returned by the limiter is settled, the ones that were
    pending with the outcome of their own operation. *)
Theorem every_submitted_operation_completes (A V E : Type) (r : JS.value)
    (l : Limiter (Item A)) (acts0 : list (Action A V E)) (w : World A V E)
    (evs0 : list (Event A V E)) (out : Item A -> Outcome V E) :
  z r = inr l -> exec (fresh l) acts0 = Some (w, evs0) ->
  (forall a, In a acts0 -> a <> Clear) ->
  exists acts w' evs,
    exec w acts = Some (w', evs) /\ loop_only acts /\ drained w'
    /\ submitted w' = submitted w
    /\ (forall it, In it (submitted w) -> future_of (ticket it) w' <> None)
    /\ (forall it, In it (pending w) -> future_of (ticket it) w' = Some (out it)).
Proof.
  intros Hz Hex Hnc.
  assert (Hs : sound w) by (eapply exec_sound; [eapply fresh_sound; eauto|exact Hex]).
  assert (Hacc : accounted w).
  { eapply exec_accounted; [|exact Hex|exact Hnc]. intros it []. }
  destruct (drain_exists out (backlog w) w (le_n _) Hs)
    as (acts & w' & evs & H1 & H2 & H3 & H4 & H5 & H6).
  exists acts, w', evs. repeat (split; [assumption|]). split; [|exact H5].
  intros it Hit. destruct (Hacc it Hit) as [H|[H|H]].
  - rewrite H5; [discriminate|]. apply in_app_iff. auto.
  - rewrite H5; [discriminate|]. apply in_app_iff. auto.
  - rewrite H6; assumption.
Qed.

Lemma every_submitted_operation_completes_witness :
  @z (Item nat) (JS.VNumber (JS.of_pos 1)) = inr sample_limiter
  /\ exec (fresh sample_limiter) [Submit 10; Submit 20] = Some (sample_queued, [])
  /\ exists acts w' evs,
       exec sample_queued acts = Some (w', evs) /\ drained w'
       /\ future_of 1 w' = Some (Rejected "boom").
Proof.
  assert (Hz : @z (Item nat) (JS.VNumber (JS.of_pos 1)) = inr sample_limiter)
    by (vm_compute; reflexivity).
  assert (Hex : exec (fresh sample_limiter) [Submit 10; Submit 20]
                = Some (sample_queued, []))
    by (vm_compute; reflexivity).
  split; [exact Hz|]. split; [exact Hex|].
  destruct (every_submitted_operation_completes nat unit string
              (JS.VNumber (JS.of_pos 1)) sample_limiter [Submit 10; Submit 20]
              sample_queued [] (fun _ => Rejected "boom") Hz Hex)
    as (acts & w' & evs & H1 & _ & H3 & _ & _ & H6).
  - intros a [<-|[<-|[]]]; discriminate.
  - exists acts, w', evs. split; [exact H1|]. split; [exact H3|].
    apply (H6 sample_second). right. left. reflexivity.
Defined.

(** X4: [activeCount] is exact, not only bounded. In every world reached
    from a fresh limiter it is the number of operations that have had
    their [t++] and not yet their [t--]: those whose promise is still
    unsettled plus those that settled, by fulfilment or by rejection,
    and whose [o()] has not run yet; each is counted once. So the
    counter never drifts, whatever ends the operations and whenever
    [clearQueue] is called. *)
Theorem activeCount_is_exact (A V E : Type) (r : JS.value)
    (l : Limiter (Item A)) (acts : list (Action A V E)) (w : World A V E)
    (evs : list (Event A V E)) :
  z r = inr l -> exec (fresh l) acts = Some (w, evs) ->
  activeCount (limiter w)
  = Z.of_nat (length (running w) + length (resuming w))
  /\ NoDup (map ticket (running w ++ resuming w))
  /\ (forall it, In it (running w) -> future_of (ticket it) w = None)
  /\ (forall it, In it (resuming w) -> future_of (ticket it) w <> None).
Proof.
  intros Hz Hex.
  assert (Hs : sound w) by (eapply exec_sound; [eapply fresh_sound; eauto|exact Hex]).
  destruct Hs as (Hwf & (Hc & Hnd & Hres) & _).
  split; [exact Hc|]. split; [exact Hnd|]. split; [|exact Hres].
  intros it Hit. apply (wf_unsettled _ Hwf). unfold pending.
  apply in_or_app. left. exact Hit.
Qed.

Lemma activeCount_is_exact_witness :
  @z (Item nat) (JS.VNumber (JS.of_pos 1)) = inr sample_limiter
  /\ exec (fresh sample_limiter) ([Submit 10; Submit 20] ++ sample_run)
     = Some (sample_done, sample_events)
  /\ activeCount (limiter sample_done) = 1%Z.
Proof.
  assert (Hz : @z (Item nat) (JS.VNumber (JS.of_pos 1)) = inr sample_limiter)
    by (vm_compute; reflexivity).
  assert (Hex : exec (fresh sample_limiter) ([Submit 10; Submit 20] ++ sample_run)
                = Some (sample_done, sample_events))
    by (vm_compute; reflexivity).
  split; [exact Hz|]. split; [exact Hex|].
  exact (proj1 (activeCount_is_exact nat unit string (JS.VNumber (JS.of_pos 1))
                  sample_limiter ([Submit 10; Submit 20] ++ sample_run)
                  sample_done sample_events Hz Hex)).
Defined.

Lemma NoDup_app_disjoint {X : Type} (l l' : list X) (a : X) :
  NoDup (l ++ l') -> In a l -> In a l' -> False.
Proof.
  intros Hnd Hl Hl'. apply in_split in Hl' as (l1 & l2 & ->).
  rewrite app_assoc in Hnd. apply NoDup_remove_2 in Hnd.
  apply Hnd. apply in_or_app. left. apply in_or_app. left. exact Hl.
Qed.

(** X23: as long as [clearQueue] is not called, every operation ever
    submitted to a limiter is in exactly one of three states: waiting in
    the queue, invoked with its promise unsettled, or settled. None is
    in two of them and none is in neither: nothing is lost or run
    twice. *)
Theorem operation_states_partition (A V E : Type) (r : JS.value)
    (l : Limiter (Item A)) (acts : list (Action A V E)) (w : World A V E)
    (evs : list (Event A V E)) (it : Item A) :
  z r = inr l -> exec (fresh l) acts = Some (w, evs) ->
  (forall a, In a acts -> a <> Clear) ->
  In it (submitted w) ->
  (In it (queue (limiter w)) /\ ~ In it (running w)
   /\ future_of (ticket it) w = None)
  \/ (In it (running w) /\ ~ In it (queue (limiter w))
      /\ future_of (ticket it) w = None)
  \/ (future_of (ticket it) w <> None
      /\ ~ In it (queue (limiter w)) /\ ~ In it (running w)).
Proof.
  intros Hz Hex Hnc Hit.
  assert (Hs : sound w) by (eapply exec_sound; [eapply fresh_sound; eauto|exact Hex]).
  assert (Hacc : accounted w).
  { eapply exec_accounted; [|exact Hex|exact Hnc]. intros x []. }
  destruct Hs as (Hwf & _).
  pose proof (wf_nodup _ Hwf) as Hnd. unfold pending in Hnd.
  assert (Hpend : forall x, In x (running w) \/ In x (queue (limiter w)) ->
                    future_of (ticket x) w = None).
  { intros x Hx. apply (wf_unsettled _ Hwf). unfold pending.
    apply in_or_app. exact Hx. }
  destruct (Hacc it Hit) as [Hq|[Hr|Hf]].
  - left. split; [exact Hq|]. split; [|apply Hpend; auto].
    intros Hr. exact (NoDup_app_disjoint _ _ _ Hnd Hr Hq).
  - right. left. split; [exact Hr|]. split; [|apply Hpend; auto].
    intros Hq. exact (NoDup_app_disjoint _ _ _ Hnd Hr Hq).
  - right. right. split; [exact Hf|]. split; intros H; apply Hf, Hpend; auto.
Qed.

Lemma operation_states_partition_witness :
  @z (Item nat) (JS.VNumber (JS.of_pos 1)) = inr sample_limiter
  /\ exec (fresh sample_limiter) ([Submit 10; Submit 20] ++ sample_run)
     = Some (sample_done, sample_events)
  /\ In sample_second (running sample_done)
  /\ future_of 0 sample_done <> None.
Proof.
  assert (Hz : @z (Item nat) (JS.VNumber (JS.of_pos 1)) = inr sample_limiter)
    by (vm_compute; reflexivity).
  assert (Hex : exec (fresh sample_limiter) ([Submit 10; Submit 20] ++ sample_run)
                = Some (sample_done, sample_events))
    by (vm_compute; reflexivity).
  assert (Hnc : forall a : Action nat unit string,
            In a ([Submit 10; Submit 20] ++ sample_run) -> a <> Clear).
  { intros a [<-|[<-|[<-|[<-|[<-|[]]]]]]; discriminate. }
  assert (Hin : In sample_first (submitted sample_done)) by (left; reflexivity).
  split; [exact Hz|]. split; [exact Hex|]. split; [left; reflexivity|].
  destruct (operation_states_partition nat unit string (JS.VNumber (JS.of_pos 1))
              sample_limiter ([Submit 10; Submit 20] ++ sample_run)
              sample_done sample_events sample_first Hz Hex Hnc Hin)
    as [(Hq & _)|[(Hr & _)|(Hf & _)]].
  - destruct Hq.
  - destruct Hr as [Hr|[]]. discriminate Hr.
  - exact Hf.
Defined.

(* ===================================================================== *)
(** ** More on the reconciler *)
(* ===================================================================== *)



Lemma commands_kind (r : Request) (tag : bool) (c : Command) :
  In c (commands r tag) -> is_add c = tag.
Proof.
  destruct tag; unfold commands, w_commands, x_commands; intros H;
    apply in_map_iff in H as (s0 & <- & _); reflexivity.
Qed.


Section Order.
Variable r : Request.





End Order.



(** X6: what an invocation leaves alone. A creation sends only tag
    calls and a deletion only untag calls; an update never sends a call
    for a name that is in both the prior and the current ImportSet. *)
Theorem unchanged_names_are_left_alone (r : Request) (st : Invocation)
    (c : Command) :
  reachable r st -> In (Call c) (trace st) ->
  match RequestType r with
  | Create => is_add c = true
  | Delete => is_add c = false
  | Update =>
      ~ (In (resource_id c) (Object_keys (imports (ResourceProperties r)))
         /\ In (resource_id c) (prior_keys r))
  end.
Proof.
  intros Hreach Hin.
  destruct (cs_calls _ _ (reachable_consistent _ _ Hreach) _ Hin)
    as ([|] & wd & _ & Hc).
  - apply commands_tag in Hc as (s0 & Hs & ->). unfold to_tag, current_keys in Hs.
    simpl. destruct (RequestType r); [reflexivity| |destruct Hs].
    apply P_In in Hs. tauto.
  - apply commands_untag in Hc as (s0 & Hs & ->). unfold to_untag, current_keys in Hs.
    simpl. destruct (RequestType r); [destruct Hs| |reflexivity].
    apply P_In in Hs. tauto.
Qed.

Lemma unchanged_names_are_left_alone_witness :
  reachable sample_update (final sample_update sample_update_schedule)
  /\ In (Call (addTagsToResource "c" "Parameter" [(sample_key, "true")]))
        (trace (final sample_update sample_update_schedule))
  /\ ~ (In "c" (Object_keys (imports (ResourceProperties sample_update)))
        /\ In "c" (prior_keys sample_update)).
Proof.
  assert (Hin : In (Call (addTagsToResource "c" "Parameter" [(sample_key, "true")]))
                   (trace (final sample_update sample_update_schedule)))
    by (vm_compute; auto).
  split; [apply final_reachable|]. split; [exact Hin|].
  exact (unchanged_names_are_left_alone sample_update
           (final sample_update sample_update_schedule) _
           (final_reachable _ _) Hin).
Defined.

Lemma untag_error_not_tag_error (e : JS.error) (c u : Command)
    (ro ro' : RemoteOutcome) :
  is_add c = true -> is_add u = false ->
  operation_outcome c ro = Rejected e -> operation_outcome u ro' = Rejected e ->
  False.
Proof.
  intros Hc Hu H1 H2.
  destruct (operation_rejected _ _ _ H1) as (i1 & _ & _ & He1).
  destruct (operation_rejected _ _ _ H2) as (i2 & _ & _ & He2).
  rewrite Hc in He1. rewrite Hu in He2. rewrite He1 in He2.
  simpl in He2. discriminate He2.
Qed.

(** X7: a failed untag stops the update before any tagging. If an untag
    call has come back with a failure that is not swallowed, no tag call
    has been sent, and none ever is. *)
Theorem nothing_tagged_after_failed_untag (r : Request) (st : Invocation)
    (u : Command) (ro : RemoteOutcome) (e : JS.error) (c : Command) :
  reachable r st ->
  In (Return u ro) (trace st) -> is_add u = false ->
  operation_outcome u ro = Rejected e ->
  In (Call c) (trace st) -> is_add c = false.
Proof.
  intros Hreach Hret Hu Hrej Hcall.
  pose proof (reachable_consistent _ _ Hreach) as Hc.
  destruct (is_add c) eqn:Hadd; [exfalso|reflexivity].
  destruct (cs_calls _ _ Hc _ Hcall) as (tag & wd & Hfan & Hcm).
  apply commands_kind in Hcm. rewrite Hadd in Hcm. subst tag.
  assert (Ht : tagging st <> None) by (simpl in Hfan; congruence).
  destruct (cs_released _ _ Hc Ht) as [_ Hq].
  destruct (cs_returns _ _ Hc _ _ Hret) as (tag' & wd' & it & Hfan' & Hfut).
  rewrite Hrej in Hfut. destruct tag'.
  - destruct (cs_futures _ _ Hc _ _ _ _ Hfan' Hfut) as (_ & ro' & Hro' & _).
    destruct (cs_fans _ _ Hc _ _ Hfan') as (Hwf & _ & _ & Hops).
    assert (Hk : is_add (operation it) = true).
    { apply (commands_kind r). rewrite <- Hops. apply in_map.
      eapply wf_futures; eauto. }
    symmetry in Hro'.
    exact (untag_error_not_tag_error e _ _ _ _ Hk Hu Hro' Hrej).
  - destruct (Hq _ Hfan') as (_ & _ & Hful & _).
    destruct (Hful _ _ Hfut) as (v & Hv). discriminate.
Qed.

Lemma nothing_tagged_after_failed_untag_witness :
  reachable sample_shrink (final sample_shrink sample_failed_untag_schedule)
  /\ result (final sample_shrink sample_failed_untag_schedule)
     = Some (Rejected (JS.Error "Error releasing import b: ThrottlingException: Rate exceeded"))
  /\ is_add (removeTagsFromResource [sample_key] "Parameter" "b") = false.
Proof.
  split; [apply final_reachable|]. split; [vm_compute; reflexivity|].
  apply (nothing_tagged_after_failed_untag sample_shrink
           (final sample_shrink sample_failed_untag_schedule)
           (removeTagsFromResource [sample_key] "Parameter" "b")
           (Failed throttled)
           (JS.Error "Error releasing import b: ThrottlingException: Rate exceeded")
           (removeTagsFromResource [sample_key] "Parameter" "b")
           (final_reachable _ _)).
  - vm_compute. auto.
  - reflexivity.
  - reflexivity.
  - vm_compute. auto.
Defined.

Lemma P_nil (a b : list string) : incl a b -> P a b = [].
Proof.
  intros Hincl. destruct (P a b) as [|s0 l] eqn:HP; [reflexivity|]. exfalso.
  assert (Hin : In s0 (P a b)) by (rewrite HP; left; reflexivity).
  apply P_In in Hin as [Ha Hb]. apply Hb, Hincl, Ha.
Qed.

Lemma no_change_commands (r : Request) :
  no_change r ->
  (forall tag, commands r tag = [])
  /\ (RequestType r = Update -> OldResourceProperties r <> None).
Proof.
  unfold no_change, commands, to_tag, to_untag, current_keys, prior_keys.
  destruct (RequestType r).
  - intros ->. split; [intros [|]; reflexivity|discriminate].
  - intros (old & -> & H1 & H2). split; [|discriminate].
    intros [|]; rewrite P_nil; auto.
  - intros ->. split; [intros [|]; reflexivity|discriminate].
Qed.

(** X8: an invocation that changes nothing touches nothing. For an
    update between ImportSets with the same names, in any order and with
    any values, and for a creation or deletion without imports, no
    remote call is ever made, and the invocation fulfils with its usual
    response as soon as [M] resumes. *)
Theorem unchanged_import_set_is_a_no_op (r : Request) :
  no_change r ->
  (forall st, reachable r st -> trace st = [])
  /\ exists st', hexec r (M_begin r) [HAwait] = Some st'
       /\ result st' = Some (Fulfilled (expected_response r)).
Proof.
  intros Hno. destruct (no_change_commands r Hno) as [Hcm Hold]. split.
  - intros st Hreach. pose proof (reachable_consistent _ _ Hreach) as Hc.
    destruct (trace st) as [|[c|c ro] tr] eqn:Htr; [reflexivity| |]; exfalso.
    + destruct (cs_calls _ _ Hc c) as (tag & wd & _ & Hin);
        [rewrite Htr; left; reflexivity|].
      rewrite Hcm in Hin. destruct Hin.
    + destruct (cs_returns _ _ Hc c ro) as (tag & wd & it & Hfan & Hfut);
        [rewrite Htr; left; reflexivity|].
      destruct (cs_fans _ _ Hc _ _ Hfan) as (Hwf & _ & _ & Hops).
      pose proof (wf_futures _ Hwf _ _ Hfut) as Hin.
      apply (in_map operation) in Hin. rewrite Hops, Hcm in Hin. destruct Hin.
  - pose proof (Hcm true) as Ht. pose proof (Hcm false) as Hu.
    unfold commands, w_commands, x_commands in Ht, Hu.
    apply map_eq_nil in Ht, Hu.
    unfold to_tag, to_untag, current_keys, prior_keys in Ht, Hu.
    unfold expected_response. simpl. unfold M_begin, M_resume.
    destruct (RequestType r) eqn:Hreq.
    + rewrite Ht. unfold start_tagging, w, fan_out. rewrite z_ten. simpl.
      eexists. split; reflexivity.
    + destruct (OldResourceProperties r) as [old|] eqn:Ho;
        [|destruct (Hold eq_refl eq_refl)].
      rewrite Hu, Ht. simpl.
      unfold start_tagging, w, fan_out. rewrite z_ten. simpl.
      eexists. split; reflexivity.
    + rewrite Hu. unfold start_releasing, x, fan_out. rewrite z_ten. simpl.
      eexists. split; reflexivity.
Qed.

Lemma unchanged_import_set_is_a_no_op_witness :
  no_change sample_reorder
  /\ exists st', hexec sample_reorder (M_begin sample_reorder) [HAwait] = Some st'
       /\ result st' = Some (Fulfilled (Data [("b", "r9"); ("a", "r1")])).
Proof.
  assert (Hno : no_change sample_reorder).
  { exists sample_props. split; [reflexivity|].
    split; intros s0 Hs; simpl in *; tauto. }
  split; [exact Hno|].
  destruct (unchanged_import_set_is_a_no_op sample_reorder Hno) as [_ H].
  exact H.
Defined.

(* ===================================================================== *)
(** ** The reconciler settles *)
(* ===================================================================== *)

Lemma fan_out_live (cmds : list Command) (wd : FanOut) :
  fan_out cmds = inr wd -> sound wd /\ accounted wd.
Proof.
  unfold fan_out. rewrite z_ten. intros H. injection H as <-.
  set (l := mkLimiter (Finite 10) [] 0%Z).
  pose proof (exec_submits cmds (fresh l : FanOut)) as Hex. split.
  - eapply exec_sound; [|exact Hex]. eapply fresh_sound. apply z_ten.
  - eapply exec_accounted; [|exact Hex|].
    + intros it [].
    + intros a Ha. apply in_map_iff in Ha as (n & <- & _). discriminate.
Qed.

Section Liveness.
Variable r : Request.

Lemma live_finish o st : live r st -> live r (finish o st).
Proof.
  intros [H1 H2]. constructor.
  - intros tag wd. rewrite fan_finish. apply H1.
  - simpl. discriminate.
Qed.

Lemma live_start_tagging c s st :
  live r st \/ st = idle -> live r (start_tagging c s st).
Proof.
  intros Hl. unfold start_tagging, w.
  destruct (fan_out (w_commands c s)) as [err|wd] eqn:Hf.
  - destruct Hl as [Hl| ->]; [apply live_finish, Hl|].
    constructor; [intros [|] wd H; discriminate|simpl; discriminate].
  - constructor; [|simpl; discriminate].
    intros [|] wd' H; simpl in H.
    + injection H as <-. apply (fan_out_live _ _ Hf).
    + destruct Hl as [Hl| ->]; [apply (lv_fans _ _ Hl false), H|discriminate].
Qed.

Lemma live_start_releasing c s :
  (RequestType r = Update -> OldResourceProperties r <> None) ->
  live r (start_releasing c s idle).
Proof.
  intros Hold. unfold start_releasing, x.
  destruct (fan_out (x_commands c s)) as [err|wd] eqn:Hf.
  - constructor; [intros [|] wd H; discriminate|simpl; discriminate].
  - constructor; [|intros _; exact Hold].
    intros [|] wd' H; simpl in H; [discriminate|].
    injection H as <-. apply (fan_out_live _ _ Hf).
Qed.

Lemma M_begin_live : live r (M_begin r).
Proof.
  unfold M_begin. destruct (RequestType r) eqn:Hreq.
  - apply live_start_tagging. auto.
  - destruct (OldResourceProperties r) as [old|] eqn:Hold.
    + destruct (0 <? _)%nat.
      * apply live_start_releasing. intros _. rewrite Hold. discriminate.
      * apply live_start_tagging. auto.
    + constructor; [intros [|] wd H; discriminate|simpl; discriminate].
  - apply live_start_releasing. intros H. rewrite Hreq in H. discriminate.
Qed.

Lemma hstep_live st a st' : live r st -> hstep r st a = Some st' -> live r st'.
Proof.
  intros Hl Hstep. destruct (HAction_eq_dec_await a) as [->|Hna].
  - simpl in Hstep. unfold M_resume in Hstep. destruct (phase st).
    + destruct (releasing st) as [wd|]; [|discriminate].
      destruct (first_rejection wd);
        [injection Hstep as <-; apply live_finish, Hl|].
      destruct (all_fulfilled wd); [|discriminate].
      destruct (RequestType r); try discriminate.
      * destruct (OldResourceProperties r); [|discriminate].
        injection Hstep as <-. apply live_start_tagging. auto.
      * injection Hstep as <-. apply live_finish, Hl.
    + destruct (tagging st) as [wd|]; [|discriminate].
      destruct (first_rejection wd);
        [injection Hstep as <-; apply live_finish, Hl|].
      destruct (all_fulfilled wd); [|discriminate].
      injection Hstep as <-. apply live_finish, Hl.
    + discriminate.
  - destruct (hstep_limiter _ _ _ _ Hstep Hna)
      as (wd & la & ro & wd' & evs & Hfan & Hla & Hs & -> & Hns & Hnc).
    destruct (lv_fans _ _ Hl _ _ Hfan) as [Hsound Hacc]. constructor.
    + intros tag wd2. rewrite fan_after.
      destruct (Bool.eqb tag (which a)); [|apply (lv_fans _ _ Hl)].
      intros H. injection H as <-. split.
      * eapply step_sound; eauto.
      * eapply step_accounted; eauto.
    + destruct (phase_set_fan (which a) wd' st (map (remote_event ro) evs)) as [-> _].
      apply (lv_old _ _ Hl).
Qed.

Lemma hexec_live acts : forall st st',
  live r st -> hexec r st acts = Some st' -> live r st'.
Proof.
  induction acts as [|a rest IH]; simpl; intros st st' Hl H.
  - injection H as <-. exact Hl.
  - destruct (hstep r st a) as [st1|] eqn:Hs; [|discriminate].
    eapply IH; [|exact H]. eapply hstep_live; eauto.
Qed.

Lemma hexec_app acts1 : forall st st1 acts2 st2,
  hexec r st acts1 = Some st1 -> hexec r st1 acts2 = Some st2 ->
  hexec r st (acts1 ++ acts2) = Some st2.
Proof.
  induction acts1 as [|a rest IH]; simpl; intros st st1 acts2 st2 H1 H2.
  - injection H1 as <-. exact H2.
  - destruct (hstep r st a) as [st'|]; [|discriminate]. eapply IH; eauto.
Qed.

Lemma hstep_lift st tag wd ha la ro wd' evs :
  fan tag st = Some wd -> which ha = tag -> ha <> HAwait ->
  limiter_action wd ha = Some (la, ro) -> step wd la = Some (wd', evs) ->
  hstep r st ha = Some (set_fan tag wd' st (map (remote_event ro) evs)).
Proof.
  intros Hfan Hw Hna Hla Hs. unfold hstep. rewrite Hw, Hfan, Hla, Hs.
  destruct ha; try reflexivity. destruct (Hna eq_refl).
Qed.

Section HandlerDrain.
Variable remote : Command -> RemoteOutcome.
Variable tag : bool.

(** Running one fan-out of an invocation until it is drained. *)
Lemma hdrain : forall n st wd,
  fan tag st = Some wd -> (backlog wd <= n)%nat -> sound wd ->
  exists hacts st' wd',
    hexec r st hacts = Some st'
    /\ fan tag st' = Some wd'
    /\ phase st' = phase st /\ result st' = result st
    /\ drained wd' /\ submitted wd' = submitted wd
    /\ (forall it, In it (pending wd) -> future_of (ticket it) wd' <> None)
    /\ (forall k, future_of k wd <> None -> future_of k wd' <> None)
    /\ (forall p, In p (futures wd') ->
          In p (futures wd) \/ exists it, p = (it, answer remote it))
    /\ (forall c ro, In (Return c ro) (trace st') ->
          In (Return c ro) (trace st) \/ ro = remote c).
Proof.
  induction n as [|n IH]; intros st wd Hfan Hn Hs.
  - exists [], st, wd. unfold backlog in Hn.
    destruct Hs as (Hwf & (Ht & _) & _).
    destruct wd as [[c q t] tk run res fut sub]. unfold pending. simpl in *.
    destruct q; [|simpl in Hn; lia]. destruct run; [|simpl in Hn; lia].
    destruct res; [|simpl in Hn; lia].
    split; [reflexivity|]. split; [exact Hfan|]. split; [reflexivity|].
    split; [reflexivity|]. split; [unfold drained; simpl; auto|].
    split; [reflexivity|]. split; [intros it []|]. split; [auto|].
    split; auto.
  - assert (Hgo : forall ha la ro w1 ev1,
        which ha = tag -> ha <> HAwait ->
        limiter_action wd ha = Some (la, ro) -> step wd la = Some (w1, ev1) ->
        (backlog w1 < backlog wd)%nat -> submitted w1 = submitted wd ->
        (forall x, In x (pending wd) ->
           In x (pending w1) \/ future_of (ticket x) w1 <> None) ->
        (forall p, In p (futures w1) ->
           In p (futures wd) \/ exists it, p = (it, answer remote it)) ->
        (forall c ro', In (Return c ro') (map (remote_event ro) ev1) ->
           ro' = remote c) ->
        exists hacts st' wd',
          hexec r st hacts = Some st'
          /\ fan tag st' = Some wd'
          /\ phase st' = phase st /\ result st' = result st
          /\ drained wd' /\ submitted wd' = submitted wd
          /\ (forall it, In it (pending wd) -> future_of (ticket it) wd' <> None)
          /\ (forall k, future_of k wd <> None -> future_of k wd' <> None)
          /\ (forall p, In p (futures wd') ->
                In p (futures wd) \/ exists it, p = (it, answer remote it))
          /\ (forall c ro, In (Return c ro) (trace st') ->
                In (Return c ro) (trace st) \/ ro = remote c)).
    { intros ha la ro w1 ev1 Hw Hna Hla Hstep Hlt Hsub Hpend Hfuts Hrets.
      pose proof (hstep_lift _ _ _ _ _ _ _ _ Hfan Hw Hna Hla Hstep) as Hh.
      pose proof (step_sound _ _ _ _ Hs Hstep) as Hs1.
      destruct (IH _ w1 (fan_set_fan_same tag w1 st (map (remote_event ro) ev1))
                  ltac:(lia) Hs1)
        as (hacts & st' & wd' & Hex & Hfan' & Hph & Hres & Hdr & Hsub'
            & Hfut & Hold & Hnew & Htr).
      destruct (phase_set_fan tag w1 st (map (remote_event ro) ev1)) as [Hp1 Hr1].
      assert (Hkeep : forall k, future_of k wd <> None -> future_of k w1 <> None).
      { intros k Hk. destruct Hs as (Hwf & _).
        destruct (exec_retired k [la] wd w1 ([] ++ ev1) Hwf
                    (settled_is_retired _ _ Hwf Hk) (exec_one _ _ _ _ Hstep))
          as [Hk1 _]. congruence. }
      exists (ha :: hacts), st', wd'. simpl. rewrite Hh.
      split; [exact Hex|]. split; [exact Hfan'|].
      split; [congruence|]. split; [congruence|]. split; [exact Hdr|].
      split; [congruence|]. split; [|split; [|split]].
      - intros x Hx. destruct (Hpend x Hx) as [H|H]; auto.
      - intros k Hk. apply Hold, Hkeep, Hk.
      - intros p Hp. destruct (Hnew p Hp) as [H|H]; auto.
      - intros c ro' Hin. destruct (Htr c ro' Hin) as [H|H]; auto.
        rewrite trace_set_fan in H. apply in_app_iff in H as [H|H]; auto. }
    destruct (running wd) as [|it run'] eqn:Hrun.
    + destruct (resuming wd) as [|it res'] eqn:Hres.
      * destruct (queue (limiter wd)) as [|h rest] eqn:Hq.
        -- exists [], st, wd. destruct Hs as (Hwf & (Ht & _) & _).
           rewrite Hrun, Hres in Ht. unfold pending. rewrite Hrun, Hq.
           split; [reflexivity|]. split; [exact Hfan|]. split; [reflexivity|].
           split; [reflexivity|]. split; [unfold drained; auto|].
           split; [reflexivity|]. split; [intros it []|]. split; [auto|].
           split; auto.
        -- destruct (drain_turn _ _ _ Hrun Hres Hq Hs)
             as (w1 & ev1 & Hstep & Hlt & Hsub & Hpend & Hf).
           apply (Hgo (HTurn tag) Turn Responded w1 ev1); auto;
             [discriminate|rewrite Hf; auto|].
           intros c ro' Hin.
           destruct (step_cases _ _ _ _ Hstep ltac:(discriminate) ltac:(discriminate))
             as [_ [(-> & _)|[(h' & rest' & _ & _ & _ & _ & ->)
                             |(it0 & k & r0 & Hc & _)]]];
             [destruct Hin|destruct Hin as [Hc|[]]; discriminate|discriminate].
      * destruct (drain_resume _ _ _ Hrun Hres)
          as (w1 & ev1 & Hstep & Hlt & Hsub & Hpend & Hf).
        apply (Hgo (HResume tag (ticket it)) (Resume (ticket it)) Responded w1 ev1);
          auto; [discriminate|rewrite Hf; auto|].
        intros c ro' Hin.
        destruct (step_cases _ _ _ _ Hstep ltac:(discriminate) ltac:(discriminate))
          as [_ [(-> & _)|[(h' & rest' & _ & _ & _ & _ & ->)
                          |(it0 & k & r0 & Hc & _)]]];
          [destruct Hin|destruct Hin as [Hc|[]]; discriminate|discriminate].
    + destruct Hs as (Hwf & Hrest).
      destruct (drain_settle (answer remote) _ _ _ Hrun Hwf)
        as (w1 & ev1 & Hstep & Hlt & Hsub & Hnew & Hret & Hpend & Hf).
      apply (Hgo (HSettle tag (ticket it) (remote (operation it)))
                 (Settle (ticket it) (answer remote it)) (remote (operation it)) w1 ev1);
        auto.
      * discriminate.
      * simpl. rewrite Hrun. simpl. unfold has_ticket. rewrite Nat.eqb_refl.
        reflexivity.
      * intros x Hx.
        destruct (Nat.eq_dec (ticket x) (ticket it)) as [Heq|Hne].
        -- right. rewrite Heq, Hnew. discriminate.
        -- left. apply Hpend; [exact Hx|congruence].
      * rewrite Hf. intros p [<-|Hp]; eauto.
      * intros c ro' Hin.
        destruct (step_cases _ _ _ _ Hstep ltac:(discriminate) ltac:(discriminate))
          as [_ [(-> & _)|[(h' & rest' & _ & _ & _ & _ & ->)
                          |(it0 & k & r0 & Hc & Hfind & _ & _ & _ & ->)]]].
        -- destruct Hin.
        -- destruct Hin as [Hc|[]]. discriminate.
        -- injection Hc as <- _. rewrite Hrun in Hfind. simpl in Hfind.
           unfold has_ticket in Hfind. rewrite Nat.eqb_refl in Hfind.
           injection Hfind as <-. destruct Hin as [Heq|[]].
           injection Heq as <- <-. reflexivity.
Qed.

End HandlerDrain.

Section Settling.
Variable remote : Command -> RemoteOutcome.

(** A drained fan-out either holds a rejection, which a benign remote
    side cannot have caused, or has every future fulfilled. *)
Lemma drained_verdict tag st wd :
  live r st -> fan tag st = Some wd ->
  exists hacts st1 wd1,
    hexec r st hacts = Some st1
    /\ fan tag st1 = Some wd1
    /\ phase st1 = phase st /\ result st1 = result st
    /\ (forall c ro, In (Return c ro) (trace st1) ->
          In (Return c ro) (trace st) \/ ro = remote c)
    /\ ((exists e, first_rejection wd1 = Some e
                   /\ ((forall it e', ~ In (it, Rejected e') (futures wd)) ->
                       benign remote -> False))
        \/ (first_rejection wd1 = None /\ all_fulfilled wd1 = true)).
Proof.
  intros Hl Hfan. destruct (lv_fans _ _ Hl _ _ Hfan) as [Hs Hacc].
  destruct (hdrain remote tag (backlog wd) st wd Hfan (le_n _) Hs)
    as (hacts & st1 & wd1 & Hex & Hfan1 & Hph & Hres & Hdr & Hsub
        & Hpend & Hold & Hnew & Htr).
  exists hacts, st1, wd1. repeat (split; [assumption|]).
  destruct (first_rejection wd1) as [e|] eqn:Hfr.
  - left. exists e. split; [reflexivity|]. intros Hclean Hb.
    apply first_rejection_some in Hfr as (it & Hin).
    destruct (Hnew _ Hin) as [H|(it' & H)].
    + exact (Hclean _ _ H).
    + injection H as _ H. unfold answer in H.
      destruct (Hb (operation it')) as (v & Hv). congruence.
  - right. split; [reflexivity|]. unfold all_fulfilled.
    apply forallb_forall. intros it Hit. rewrite Hsub in Hit.
    assert (Hne : future_of (ticket it) wd1 <> None).
    { destruct (Hacc it Hit) as [H|[H|H]].
      - apply Hpend. unfold pending. apply in_or_app. right. exact H.
      - apply Hpend. unfold pending. apply in_or_app. left. exact H.
      - apply Hold, H. }
    destruct (future_of (ticket it) wd1) as [[v|e]|] eqn:Hf;
      [reflexivity| |congruence].
    unfold future_of in Hf. apply settlement_some in Hf as (it' & Hin & _).
    destruct (first_rejection_none _ Hfr _ _ Hin).
Qed.

Lemma expected_not_delete :
  RequestType r <> Delete ->
  expected_response r = Data (imports (ResourceProperties r)).
Proof. unfold expected_response. destruct (RequestType r); congruence. Qed.

(** From [await w(...)] the invocation settles. *)
Lemma settle_tagging st :
  consistent r st -> live r st -> phase st = Tagging ->
  exists acts st',
    hexec r st acts = Some st' /\ result st' <> None
    /\ (forall c ro, In (Return c ro) (trace st') ->
          In (Return c ro) (trace st) \/ ro = remote c)
    /\ ((forall wd it e, tagging st = Some wd -> ~ In (it, Rejected e) (futures wd)) ->
        benign remote ->
        result st' = Some (Fulfilled (expected_response r))).
Proof.
  intros Hc Hl Hph. pose proof (cs_phase _ _ Hc) as Hp. rewrite Hph in Hp.
  destruct Hp as ((wd & Hwd) & Hres & Hnd).
  destruct (drained_verdict true st wd Hl Hwd)
    as (hacts & st1 & wd1 & Hex & Hfan1 & Hph1 & Hres1 & Htr & Hv).
  simpl in Hfan1.
  assert (Hres' : forall o, M_resume r st1 = Some (finish o st1) ->
            hexec r st (hacts ++ [HAwait]) = Some (finish o st1)).
  { intros o Ho. eapply hexec_app; [exact Hex|]. simpl. rewrite Ho. reflexivity. }
  destruct Hv as [(e & Hfr & Hno)|[Hfr Hall]].
  - exists (hacts ++ [HAwait]), (finish (Rejected e) st1).
    split; [|split; [discriminate|split]].
    + apply Hres'. unfold M_resume. rewrite Hph1, Hph, Hfan1, Hfr. reflexivity.
    + exact Htr.
    + intros Hclean Hb. destruct Hno; [|exact Hb].
      intros it e'. apply Hclean. exact Hwd.
  - exists (hacts ++ [HAwait]),
           (finish (Fulfilled (Data (imports (ResourceProperties r)))) st1).
    split; [|split; [discriminate|split]].
    + apply Hres'. unfold M_resume. rewrite Hph1, Hph, Hfan1, Hfr, Hall. reflexivity.
    + exact Htr.
    + intros _ _. simpl. rewrite expected_not_delete by exact Hnd. reflexivity.
Qed.

(** From [await x(...)] the invocation settles, through [await w(...)]
    when it is an update. *)
Lemma settle_releasing st :
  consistent r st -> live r st -> phase st = Releasing ->
  exists acts st',
    hexec r st acts = Some st' /\ result st' <> None
    /\ (forall c ro, In (Return c ro) (trace st') ->
          In (Return c ro) (trace st) \/ ro = remote c)
    /\ (spotless st -> benign remote ->
        result st' = Some (Fulfilled (expected_response r))).
Proof.
  intros Hc Hl Hph. pose proof (cs_phase _ _ Hc) as Hp. rewrite Hph in Hp.
  destruct Hp as ((wd & Hwd) & Htag & Hres & Hnc).
  destruct (drained_verdict false st wd Hl Hwd)
    as (hacts & st1 & wd1 & Hex & Hfan1 & Hph1 & Hres1 & Htr & Hv).
  simpl in Hfan1.
  assert (Hgo : forall st2, M_resume r st1 = Some st2 ->
            hexec r st (hacts ++ [HAwait]) = Some st2).
  { intros o Ho. eapply hexec_app; [exact Hex|]. simpl. rewrite Ho. reflexivity. }
  destruct Hv as [(e & Hfr & Hno)|[Hfr Hall]].
  - exists (hacts ++ [HAwait]), (finish (Rejected e) st1).
    split; [|split; [discriminate|split]].
    + apply Hgo. unfold M_resume. rewrite Hph1, Hph, Hfan1, Hfr. reflexivity.
    + exact Htr.
    + intros Hclean Hb. destruct Hno; [|exact Hb].
      intros it e'. apply (Hclean false). exact Hwd.
  - destruct (RequestType r) eqn:Hrt; [congruence| |].
    + (* Update: on to the tag calls *)
      destruct (OldResourceProperties r) as [old|] eqn:Hold.
      2:{ destruct (lv_old _ _ Hl Hph Hrt). exact Hold. }
      set (st2 := start_tagging
                    (P (Object_keys (imports (ResourceProperties r)))
                       (Object_keys (imports old)))
                    (tag_key (ResourceProperties r)) st1).
      assert (Hm : M_resume r st1 = Some st2).
      { unfold M_resume. rewrite Hph1, Hph, Hfan1, Hfr, Hall, Hrt, Hold.
        reflexivity. }
      assert (Hs1 : hstep r st1 HAwait = Some st2) by exact Hm.
      assert (Hc1 : consistent r st1) by (eapply hexec_consistent; eauto).
      assert (Hl1 : live r st1) by (eapply hexec_live; eauto).
      assert (Hc2 : consistent r st2) by (eapply hstep_consistent; eauto).
      assert (Hl2 : live r st2) by (eapply hstep_live; eauto).
      assert (Hshape : phase st2 = Tagging /\ trace st2 = trace st1
                       /\ exists wd2, tagging st2 = Some wd2 /\ futures wd2 = []).
      { unfold st2, start_tagging, w.
        destruct (fan_out_returns
                    (w_commands (P (Object_keys (imports (ResourceProperties r)))
                                   (Object_keys (imports old)))
                                (tag_key (ResourceProperties r))))
          as (wd2 & -> & _ & _ & Hf & _).
        simpl. split; [reflexivity|]. split; [reflexivity|]. eauto. }
      destruct Hshape as (Hph2 & Htr2 & wd2 & Hwd2 & Hf2).
      destruct (settle_tagging st2 Hc2 Hl2 Hph2)
        as (acts2 & st' & Hex2 & Hne & Htr' & Hok).
      exists ((hacts ++ [HAwait]) ++ acts2), st'.
      split; [|split; [exact Hne|split]].
      * eapply hexec_app; [apply Hgo; exact Hm|exact Hex2].
      * intros c ro Hin. destruct (Htr' c ro Hin) as [H|H]; [|auto].
        rewrite Htr2 in H. auto.
      * intros _ Hb. apply Hok; [|exact Hb].
        intros wd' it e Hwd'. rewrite Hwd2 in Hwd'. injection Hwd' as <-.
        rewrite Hf2. intros [].
    + (* Delete *)
      exists (hacts ++ [HAwait]), (finish (Fulfilled Undefined) st1).
      split; [|split; [discriminate|split]].
      * apply Hgo. unfold M_resume. rewrite Hph1, Hph, Hfan1, Hfr, Hall, Hrt.
        destruct (OldResourceProperties r); reflexivity.
      * exact Htr.
      * intros _ _. simpl. unfold expected_response. rewrite Hrt. reflexivity.
Qed.

Lemma reachable_live st : reachable r st -> live r st.
Proof.
  intros (acts & H). eapply hexec_live; [|exact H]. apply M_begin_live.
Qed.

(** An invocation that is not settled can be run to its settlement with
    the remote side answering as [remote] says. *)
Lemma settle st :
  consistent r st -> live r st -> result st = None ->
  exists acts st',
    hexec r st acts = Some st' /\ result st' <> None
    /\ (forall c ro, In (Return c ro) (trace st') ->
          In (Return c ro) (trace st) \/ ro = remote c)
    /\ (spotless st -> benign remote ->
        result st' = Some (Fulfilled (expected_response r))).
Proof.
  intros Hc Hl Hres. destruct (phase st) eqn:Hph.
  - apply settle_releasing; assumption.
  - destruct (settle_tagging st Hc Hl Hph) as (acts & st' & Hex & Hne & Htr & Hok).
    exists acts, st'. repeat (split; [assumption|]).
    intros Hclean Hb. apply Hok; [|exact Hb].
    intros wd it e Hwd. apply (Hclean true). exact Hwd.
  - pose proof (cs_phase _ _ Hc) as Hp. rewrite Hph in Hp. congruence.
Qed.

(** [M] suspends at its first [await] unless the old properties of an
    update are missing; nothing has settled by then. *)
Lemma M_begin_fresh :
  (RequestType r = Update -> OldResourceProperties r <> None) ->
  result (M_begin r) = None /\ spotless (M_begin r).
Proof.
  intros Hold.
  assert (Ht : forall c s, result (start_tagging c s idle) = None
                           /\ spotless (start_tagging c s idle)).
  { intros c s. unfold start_tagging, w.
    destruct (fan_out_returns (w_commands c s)) as (wd & -> & _ & _ & Hf & _).
    split; [reflexivity|]. intros [|] wd' it e H; simpl in H; [|discriminate].
    injection H as <-. rewrite Hf. intros []. }
  assert (Hr : forall c s, result (start_releasing c s idle) = None
                           /\ spotless (start_releasing c s idle)).
  { intros c s. unfold start_releasing, x.
    destruct (fan_out_returns (x_commands c s)) as (wd & -> & _ & _ & Hf & _).
    split; [reflexivity|]. intros [|] wd' it e H; simpl in H; [discriminate|].
    injection H as <-. rewrite Hf. intros []. }
  unfold M_begin. destruct (RequestType r) eqn:Hrt; auto.
  destruct (OldResourceProperties r) as [old|]; [|destruct Hold; reflexivity].
  destruct (0 <? _)%nat; auto.
Qed.

End Settling.

End Liveness.

(** X9: An invocation never hangs: from every state it can be in while
    its promise is unsettled, and whatever the remote side answers to
    each command, the event loop can run it to a state where the promise
    is settled, every remote call that returns on the way returning
    the given answer. When no operation has been rejected so far and
    the answers fail no operation, it is fulfilled with the value the
    request type prescribes. *)
Theorem invocation_settles (r : Request) (remote : Command -> RemoteOutcome)
    (st : Invocation) :
  reachable r st -> result st = None ->
  exists acts st',
    hexec r st acts = Some st' /\ result st' <> None
    /\ (forall c ro, In (Return c ro) (trace st') ->
          In (Return c ro) (trace st) \/ ro = remote c)
    /\ (spotless st -> benign remote ->
        result st' = Some (Fulfilled (expected_response r))).
Proof.
  intros Hr Hres. apply settle; [|apply reachable_live|]; try assumption.
  apply reachable_consistent. exact Hr.
Qed.

Lemma benign_already_absent : benign already_absent.
Proof.
  intros c. unfold already_absent. destruct c; simpl; eauto.
Qed.

Lemma invocation_settles_witness :
  exists acts st',
    hexec sample_shrink (M_begin sample_shrink) acts = Some st'
    /\ result st' = Some (Fulfilled (expected_response sample_shrink)).
Proof.
  assert (Hr : reachable sample_shrink (M_begin sample_shrink))
    by (exists []; reflexivity).
  assert (Hn : result (M_begin sample_shrink) = None)
    by (vm_compute; reflexivity).
  destruct (invocation_settles sample_shrink already_absent
              (M_begin sample_shrink) Hr Hn)
    as (acts & st' & Hex & _ & _ & Hok).
  exists acts, st'. split; [exact Hex|]. apply Hok.
  - apply M_begin_fresh. intros _. discriminate.
  - exact benign_already_absent.
Defined.

(** X10: Against a remote side whose answers fail no operation (each
    call is answered, or an untag call fails with [InvalidResourceId]),
    every request other than an update without old properties has a run
    in which each call gets exactly that answer and the handler's
    promise is fulfilled with the prescribed value: the imports for a
    creation or an update, nothing for a deletion. *)
Theorem benign_remote_fulfils (r : Request) (remote : Command -> RemoteOutcome) :
  (RequestType r = Update -> OldResourceProperties r <> None) ->
  benign remote ->
  exists acts st',
    hexec r (M_begin r) acts = Some st'
    /\ result st' = Some (Fulfilled (expected_response r))
    /\ forall c ro, In (Return c ro) (trace st') -> ro = remote c.
Proof.
  intros Hold Hb. destruct (M_begin_fresh r Hold) as [Hres Hsp].
  destruct (settle r remote (M_begin r) (M_begin_consistent r) (M_begin_live r) Hres)
    as (acts & st' & Hex & _ & Htr & Hok).
  exists acts, st'. split; [exact Hex|]. split; [exact (Hok Hsp Hb)|].
  intros c ro Hin. destruct (Htr c ro Hin) as [H|H]; [|exact H].
  rewrite M_begin_trace in H. destruct H.
Qed.

Lemma benign_remote_fulfils_witness :
  exists acts st',
    hexec sample_delete (M_begin sample_delete) acts = Some st'
    /\ result st' = Some (Fulfilled Undefined)
    /\ forall c ro, In (Return c ro) (trace st') -> ro = already_absent c.
Proof.
  apply (benign_remote_fulfils sample_delete already_absent).
  - intros H. discriminate H.
  - exact benign_already_absent.
Defined.

(* ===================================================================== *)
(** ** The linked queue against the list of its values *)
(* ===================================================================== *)

Section LinkedQueueFacts.
Context {T : Type}.
Implicit Types (h : list (LinkedQueue.Node T)) (s : LinkedQueue.State T) (l : list T).

Lemma set_next_length a t h :
  length (LinkedQueue.set_next a t h) = length h.
Proof.
  revert a. induction h as [|nd rest IH]; intros [|a]; simpl; auto.
Qed.

Lemma set_next_same a t h nd :
  nth_error h a = Some nd ->
  nth_error (LinkedQueue.set_next a t h) a
  = Some (LinkedQueue.mkNode (LinkedQueue.value nd) (Some t)).
Proof.
  revert a. induction h as [|x rest IH]; intros [|a]; simpl; try discriminate.
  - intros H. injection H as <-. reflexivity.
  - apply IH.
Qed.

Lemma set_next_other a b t h :
  a <> b -> nth_error (LinkedQueue.set_next a t h) b = nth_error h b.
Proof.
  revert a b. induction h as [|x rest IH]; intros [|a] [|b] Hne; simpl; auto;
    try congruence.
Qed.

Lemma chain_bounds h a l tl :
  LinkedQueue.chain h a l tl ->
  (a <= tl)%nat /\ (a + length l <= length h)%nat /\ l <> [].
Proof.
  induction 1 as [a nd Hn Hx|a nd b l tl Hn Hx Hlt Hc IH].
  - split; [lia|]. split; [|discriminate].
    assert (a < length h)%nat by (apply nth_error_Some; congruence).
    simpl. lia.
  - destruct IH as (H1 & H2 & _). split; [lia|]. split; [|discriminate].
    simpl. lia.
Qed.

(** Linking a new object behind the last one appends its value. *)
Lemma chain_extend h a l tl e :
  LinkedQueue.chain h a l tl ->
  LinkedQueue.chain
    (LinkedQueue.set_next tl (length h) (h ++ [LinkedQueue.mkNode e None]))
    a (l ++ [e]) (length h).
Proof.
  set (nw := LinkedQueue.mkNode e None).
  induction 1 as [a nd Hn Hx|a nd b l tl Hn Hx Hlt Hc IH].
  - assert (Ha : (a < length h)%nat) by (apply nth_error_Some; congruence).
    simpl.
    change (LinkedQueue.value nd)
      with (LinkedQueue.value (LinkedQueue.mkNode (LinkedQueue.value nd) (Some (length h)))).
    eapply LinkedQueue.chain_cons.
    + apply set_next_same. rewrite nth_error_app1 by exact Ha. exact Hn.
    + reflexivity.
    + exact Ha.
    + change [e] with [LinkedQueue.value nw]. apply LinkedQueue.chain_one.
      * rewrite set_next_other by lia.
        rewrite nth_error_app2 by lia. rewrite Nat.sub_diag. reflexivity.
      * reflexivity.
  - destruct (chain_bounds _ _ _ _ Hc) as (Hb & Hlen & _).
    assert (Ha : (a < length h)%nat) by (apply nth_error_Some; congruence).
    simpl. eapply LinkedQueue.chain_cons.
    + rewrite set_next_other by lia. rewrite nth_error_app1 by exact Ha. exact Hn.
    + exact Hx.
    + exact Hlt.
    + exact IH.
Qed.

Lemma chain_iterate h a l tl :
  LinkedQueue.chain h a l tl ->
  forall fuel, (length l <= fuel)%nat ->
    LinkedQueue.iterate fuel h (Some a) = Some l.
Proof.
  induction 1 as [a nd Hn Hx|a nd b l tl Hn Hx Hlt Hc IH]; intros [|fuel] Hf;
    simpl in Hf; try lia; simpl; rewrite Hn, Hx.
  - destruct fuel; reflexivity.
  - rewrite IH by lia. reflexivity.
Qed.

Lemma repr_to_list s l :
  LinkedQueue.repr s l -> LinkedQueue.to_list s = Some l.
Proof.
  intros [_ H]. unfold LinkedQueue.to_list. destruct l as [|v l].
  - rewrite H. destruct (length (LinkedQueue.heap s)); reflexivity.
  - destruct H as (a & tl & -> & _ & Hc).
    apply (chain_iterate _ _ _ _ Hc).
    destruct (chain_bounds _ _ _ _ Hc) as (_ & H & _). lia.
Qed.

Lemma repr_new : LinkedQueue.repr (LinkedQueue.new : LinkedQueue.State T) [].
Proof. split; reflexivity. Qed.

Lemma repr_clear s l : LinkedQueue.repr (LinkedQueue.clear s) [].
Proof. split; reflexivity. Qed.

Lemma repr_enqueue s l e :
  LinkedQueue.repr s l ->
  exists s', LinkedQueue.enqueue e s = Some s' /\ LinkedQueue.repr s' (enqueue e l).
Proof.
  intros [Hsz H]. unfold LinkedQueue.enqueue, enqueue. destruct l as [|v l].
  - rewrite H. eexists. split; [reflexivity|]. split.
    + simpl. rewrite Hsz. reflexivity.
    + simpl. exists (length (LinkedQueue.heap s)), (length (LinkedQueue.heap s)).
      split; [reflexivity|]. split; [reflexivity|].
      change [e] with [LinkedQueue.value (LinkedQueue.mkNode e None)].
      apply LinkedQueue.chain_one; [|reflexivity].
      rewrite nth_error_app2 by lia. rewrite Nat.sub_diag. reflexivity.
  - destruct H as (a & tl & Hh & Ht & Hc). rewrite Hh, Ht.
    eexists. split; [reflexivity|]. split.
    + simpl. rewrite Hsz, length_app. simpl. lia.
    + simpl. exists a, (length (LinkedQueue.heap s)).
      split; [reflexivity|]. split; [reflexivity|].
      apply (chain_extend _ _ _ _ e Hc).
Qed.

Lemma repr_dequeue s l :
  LinkedQueue.repr s l ->
  exists s', LinkedQueue.dequeue s = (fst (dequeue l), s')
             /\ LinkedQueue.repr s' (snd (dequeue l)).
Proof.
  intros [Hsz H]. unfold LinkedQueue.dequeue. destruct l as [|v l].
  - rewrite H. exists s. split; [reflexivity|]. split; assumption.
  - destruct H as (a & tl & Hh & Ht & Hc). rewrite Hh. simpl.
    inversion Hc as [a' nd Hn Hx Ha Hl Htl|a' nd b l' tl' Hn Hx Hlt Hc' Ha Hl Htl];
      subst; rewrite Hn; eexists; (split; [reflexivity|]); split; simpl.
    + simpl in Hsz. lia.
    + exact Hx.
    + simpl in Hsz. lia.
    + destruct (chain_bounds _ _ _ _ Hc') as (_ & _ & Hne).
      destruct l as [|v' l]; [congruence|]. exists b, tl. auto.
Qed.

Lemma repr_apply s l (op : LinkedQueue.Op T) :
  LinkedQueue.repr s l ->
  exists s', LinkedQueue.apply_linked op s = Some (s', snd (apply_list op l))
             /\ LinkedQueue.repr s' (fst (apply_list op l)).
Proof.
  intros Hr. destruct op as [e| | |]; simpl.
  - destruct (repr_enqueue s l e Hr) as (s' & -> & Hr'). eauto.
  - destruct (repr_dequeue s l Hr) as (s' & Hd & Hr'). rewrite Hd.
    exists s'. destruct (dequeue l). auto.
  - exists (LinkedQueue.clear s). split; [reflexivity|]. apply (repr_clear s l).
  - exists s. split; [|exact Hr]. unfold LinkedQueue.size, size.
    rewrite (proj1 Hr). reflexivity.
Qed.

Lemma repr_run (ops : list (LinkedQueue.Op T)) : forall s l,
  LinkedQueue.repr s l ->
  exists s', LinkedQueue.run_linked ops s = Some (s', snd (run_list ops l))
             /\ LinkedQueue.repr s' (fst (run_list ops l)).
Proof.
  induction ops as [|op rest IH]; intros s l Hr; simpl.
  - eauto.
  - destruct (repr_apply s l op Hr) as (s1 & -> & Hr1).
    destruct (apply_list op l) as [q1 r1]. simpl in *.
    destruct (IH s1 q1 Hr1) as (s2 & -> & Hr2).
    destruct (run_list rest q1) as [q2 rs]. simpl in *. eauto.
Qed.

End LinkedQueueFacts.

(** X11: The class [d] is the first-in, first-out list the limiter is
    modelled with: whatever calls of [enqueue], [dequeue], [clear] and
    [size] are made on a new queue, in whatever order, none throws, each
    returns what the same call returns on the plain list of values, and
    afterwards the iterator yields exactly that list and [size] is its
    length. In particular a [dequeue] that empties the queue, which
    leaves [_tail] pointing at the removed node, does no harm. *)
Theorem linked_queue_is_the_list (T : Type) (ops : list (LinkedQueue.Op T)) :
  exists s,
    LinkedQueue.run_linked ops LinkedQueue.new = Some (s, snd (run_list ops []))
    /\ LinkedQueue.to_list s = Some (fst (run_list ops []))
    /\ LinkedQueue.size s = size (fst (run_list ops [])).
Proof.
  destruct (repr_run ops LinkedQueue.new [] repr_new) as (s & Hrun & Hr).
  exists s. split; [exact Hrun|]. split; [apply repr_to_list; exact Hr|].
  unfold LinkedQueue.size, size. exact (proj1 Hr).
Qed.

(* ===================================================================== *)
(** ** [GlueStartJobRun]: the tasks that get constructed *)
(* ===================================================================== *)

Lemma lt_real (x y : JS.number) (a b : Q) :
  JS.real x = Some a -> JS.real y = Some b ->
  (JS.lt x y = true <-> Qlt a b).
Proof.
  intros Hx Hy. rewrite Qlt_alt. unfold JS.lt, JS.compare.
  destruct x as [sx|sx| |sx mx ex]; try discriminate;
    destruct y as [sy|sy| |sy my ey]; try discriminate;
    rewrite Hx, Hy; destruct (Qcompare a b); split; congruence.
Qed.

Lemma real_one : JS.real Glue.one = Some (inject_Z 1).
Proof. reflexivity. Qed.

(** A number that is no unresolved token passes the [if] exactly when it
    is falsy or a positive integer. *)
Lemma workers_valid_spec (isUnresolved : JS.number -> bool)
    (props : Glue.GlueStartJobRunProps) :
  Glue.workers_invalid isUnresolved props = false <->
  forall n, Glue.numberOfWorkers props = Some n ->
    isUnresolved n = true \/ (exists sg, n = S754_zero sg) \/ n = JS.NaN
    \/ exists k, (1 <= k)%Z /\ denotes n k.
Proof.
  unfold Glue.workers_invalid. destruct (Glue.numberOfWorkers props) as [n|].
  2:{ split; [intros _ n H; discriminate|reflexivity]. }
  split.
  - intros H n' Hn. injection Hn as <-.
    destruct (isUnresolved n); [left; reflexivity|right].
    destruct n as [sg|sg| |sg m e]; [left; eauto| |right; left; reflexivity|].
    + simpl in H. discriminate.
    + right. right. simpl JS.truthy in H. simpl negb in H. simpl andb in H.
      apply orb_false_iff in H as [Hi Hl]. apply negb_false_iff in Hi.
      apply isInteger_denotes in Hi as (k & q & Hq & Hk).
      exists k. split; [|exists q; auto].
      destruct (Z_lt_le_dec k 1) as [Hlt|Hge]; [|exact Hge]. exfalso.
      assert (Htrue : JS.lt (S754_finite sg m e) Glue.one = true).
      { apply (lt_real _ _ q (inject_Z 1) Hq real_one).
        rewrite Hk. rewrite <- Zlt_Qlt. exact Hlt. }
      congruence.
  - intros H. destruct (H n eq_refl) as [Hu|[[sg ->]|[->|(k & Hk & q & Hq & Hd)]]].
    + rewrite Hu. simpl. rewrite andb_false_r. reflexivity.
    + reflexivity.
    + reflexivity.
    + assert (Hi : JS.isInteger n = true)
        by (apply isInteger_denotes; exists k, q; auto).
      assert (Hl : JS.lt n Glue.one = false).
      { destruct (JS.lt n Glue.one) eqn:Hlt; [|reflexivity]. exfalso.
        apply (lt_real _ _ q (inject_Z 1) Hq real_one) in Hlt.
        rewrite Hd in Hlt. rewrite <- Zlt_Qlt in Hlt. lia. }
      rewrite Hi, Hl. simpl. rewrite !andb_false_r. reflexivity.
Qed.

Lemma constructor_returns (isUnresolved : JS.number -> bool)
    (props : Glue.GlueStartJobRunProps) (t : Glue.GlueStartJobRun) :
  Glue.constructor isUnresolved props = inr t <->
  Glue.integrationPattern props <> Some Glue.WAIT_FOR_TASK_TOKEN
  /\ Glue.workers_invalid isUnresolved props = false
  /\ t = Glue.mkTask props
           match Glue.integrationPattern props with
           | Some p => p
           | None => Glue.REQUEST_RESPONSE
           end.
Proof.
  unfold Glue.constructor.
  destruct (Glue.integrationPattern props) as [[| |]|]; simpl;
    try (destruct (Glue.workers_invalid isUnresolved props); split;
         [discriminate
         |intros (_ & H & _); discriminate
         |intros H; injection H as <-; split; [discriminate|split; reflexivity]
         |intros (_ & _ & ->); reflexivity]).
  split; [discriminate|]. intros (H & _). destruct (H eq_refl).
Qed.

(** X12: The constructor returns a task exactly when the integration
    pattern is a supported one and [numberOfWorkers], if given and not
    an unresolved token, is [0], [-0], [NaN] or an integer of at least
    1: the falsy numbers are let through, every other number has to be
    a positive integer. *)
Theorem glue_constructed_tasks (isUnresolved : JS.number -> bool)
    (props : Glue.GlueStartJobRunProps) :
  (exists t, Glue.constructor isUnresolved props = inr t) <->
  Glue.integrationPattern props <> Some Glue.WAIT_FOR_TASK_TOKEN
  /\ forall n, Glue.numberOfWorkers props = Some n ->
       isUnresolved n = true \/ (exists sg, n = S754_zero sg) \/ n = JS.NaN
       \/ exists k, (1 <= k)%Z /\ denotes n k.
Proof.
  rewrite <- workers_valid_spec. split.
  - intros (t & H). apply constructor_returns in H as (H1 & H2 & _). auto.
  - intros (H1 & H2). eexists. apply constructor_returns. eauto.
Qed.

(** X13: Every task the constructor returns carries one policy
    statement, on the ARN of its Glue job, whose actions are defined and
    include [glue:StartJobRun]: the branch of [getPolicies] that would
    leave the actions undefined is never taken. The actions are the four
    job-run actions for [RUN_JOB] and [glue:StartJobRun] alone otherwise. *)
Theorem glue_policy_actions (isUnresolved : JS.number -> bool)
    (formatArn : string -> string -> string -> string)
    (props : Glue.GlueStartJobRunProps) (t : Glue.GlueStartJobRun) :
  Glue.constructor isUnresolved props = inr t ->
  exists acts,
    GluePolicies.getPolicies formatArn t
    = [GluePolicies.mkStatement
         [formatArn "glue" "job" (Glue.glueJobName props)] (Some acts)]
    /\ In "glue:StartJobRun" acts
    /\ (Glue.integrationPattern props = Some Glue.RUN_JOB ->
        acts = ["glue:StartJobRun"; "glue:GetJobRun"; "glue:GetJobRuns";
                "glue:BatchStopJobRun"])
    /\ (Glue.integrationPattern props <> Some Glue.RUN_JOB ->
        acts = ["glue:StartJobRun"]).
Proof.
  intros H. apply constructor_returns in H as (Hp & _ & ->).
  unfold GluePolicies.getPolicies. simpl.
  destruct (Glue.integrationPattern props) as [[| |]|]; simpl.
  - eexists. split; [reflexivity|]. split; [left; reflexivity|].
    split; [discriminate|reflexivity].
  - eexists. split; [reflexivity|]. split; [left; reflexivity|].
    split; [reflexivity|]. intros Hne. destruct (Hne eq_refl).
  - destruct (Hp eq_refl).
  - eexists. split; [reflexivity|]. split; [left; reflexivity|].
    split; [discriminate|reflexivity].
Qed.

Lemma glue_policy_actions_witness :
  exists acts,
    GluePolicies.getPolicies (fun _ _ name => name)
      (Glue.mkTask (Glue.mkProps "job" (Some Glue.RUN_JOB) (Some (JS.of_pos 2)))
                   Glue.RUN_JOB)
    = [GluePolicies.mkStatement ["job"] (Some acts)]
    /\ In "glue:StartJobRun" acts.
Proof.
  assert (Hc : Glue.constructor (fun _ => false)
                 (Glue.mkProps "job" (Some Glue.RUN_JOB) (Some (JS.of_pos 2)))
               = inr (Glue.mkTask
                        (Glue.mkProps "job" (Some Glue.RUN_JOB) (Some (JS.of_pos 2)))
                        Glue.RUN_JOB))
    by (vm_compute; reflexivity).
  destruct (glue_policy_actions (fun _ => false) (fun _ _ name => name)
              (Glue.mkProps "job" (Some Glue.RUN_JOB) (Some (JS.of_pos 2)))
              (Glue.mkTask
                 (Glue.mkProps "job" (Some Glue.RUN_JOB) (Some (JS.of_pos 2)))
                 Glue.RUN_JOB) Hc)
    as (acts & Hp & Hin & _).
  exists acts. split; [exact Hp|exact Hin].
Defined.

(* ===================================================================== *)
(** ** [RecordSet]: what the validations let through *)
(* ===================================================================== *)

Lemma real_max_weight : JS.real Route53.max_weight = Some (inject_Z 255).
Proof. reflexivity. Qed.

Lemma real_zero : JS.real JS.zero = Some (inject_Z 0).
Proof. reflexivity. Qed.

(** The condition of the first [if] of the constructor, on the reals. *)
Lemma weight_out_of_range (wt : JS.number) :
  JS.truthy wt && (JS.lt wt JS.zero || JS.gt wt Route53.max_weight) = false <->
  wt = JS.NaN
  \/ exists q, JS.real wt = Some q /\ Qle (inject_Z 0) q /\ Qle q (inject_Z 255).
Proof.
  destruct wt as [sg|sg| |sg m e].
  - split; [|reflexivity]. intros _. right. exists (inject_Z 0).
    split; [reflexivity|]. split; [apply Qle_refl|]. rewrite <- Zle_Qle. lia.
  - split.
    + destruct sg; discriminate.
    + intros [H|(q & H & _)]; discriminate.
  - split; [|reflexivity]. intros _. left. reflexivity.
  - set (x := S754_finite sg m e).
    destruct (JS.real x) as [q|] eqn:Hq; [|discriminate].
    pose proof (lt_real x JS.zero q (inject_Z 0) Hq real_zero) as Hlo.
    pose proof (lt_real Route53.max_weight x (inject_Z 255) q real_max_weight Hq) as Hhi.
    change (JS.truthy x) with true. rewrite andb_true_l. unfold JS.gt.
    rewrite orb_false_iff. split.
    + intros [H1 H2]. right. exists q. split; [reflexivity|]. split.
      * apply Qnot_lt_le. intros Hc. apply Hlo in Hc. congruence.
      * apply Qnot_lt_le. intros Hc. apply Hhi in Hc. congruence.
    + intros [H|(q' & Heq & H1 & H2)]; [discriminate|]. injection Heq as <-.
      split.
      * apply not_true_is_false. intros Hc.
        apply (proj1 Hlo) in Hc. apply Qlt_not_le in Hc. contradiction.
      * apply not_true_is_false. intros Hc.
        apply (proj1 Hhi) in Hc. apply Qlt_not_le in Hc. contradiction.
Qed.

(** X14: The weight validation lets a record set through exactly when
    [weight] is absent, is [NaN], or is a number from 0 to 255 (either
    zero included); both infinities and every finite number outside the
    range are refused, with the message that quotes the number. *)
Theorem recordset_weight_range (Number_toString : JS.number -> string)
    (props : Route53.RecordSetProps) :
  (Route53.weight_check Number_toString props = None <->
   forall wt, Route53.weight props = Some wt ->
     wt = JS.NaN
     \/ exists q, JS.real wt = Some q /\ Qle (inject_Z 0) q /\ Qle q (inject_Z 255))
  /\ (forall err, Route53.weight_check Number_toString props = Some err ->
        exists wt, Route53.weight props = Some wt
          /\ err = JS.Error ("weight must be between 0 and 255 inclusive, got: "
                             ++ Number_toString wt)%string).
Proof.
  unfold Route53.weight_check. destruct (Route53.weight props) as [wt|].
  - pose proof (weight_out_of_range wt) as Hspec.
    destruct (JS.truthy wt && _) eqn:Hc; split.
    + split; [discriminate|]. intros H.
      apply (proj2 Hspec) in H; [discriminate|]. auto.
    + intros err H. injection H as <-. eauto.
    + split; [|reflexivity]. intros _ wt' Hwt. injection Hwt as <-.
      apply (proj1 Hspec). reflexivity.
    + discriminate.
  - split; [|discriminate]. split; [|reflexivity]. intros _ wt H. discriminate.
Qed.

Lemma checks_pass (ts : JS.number -> string) (props : Route53.RecordSetProps) :
  Route53.constructor_checks ts props = None ->
  Route53.weight_check ts props = None
  /\ Route53.setIdentifier_length_check props = None
  /\ Route53.setIdentifier_policy_check props = None
  /\ Route53.multiValue_alias_check props = None
  /\ (Route53.nonSimpleRoutingPolicies props <= 1)%nat.
Proof.
  unfold Route53.constructor_checks, Route53.earlier_checks.
  destruct (Route53.weight_check ts props); [discriminate|].
  destruct (Route53.setIdentifier_length_check props); [discriminate|].
  destruct (Route53.setIdentifier_policy_check props); [discriminate|].
  destruct (Route53.multiValue_alias_check props); [discriminate|].
  destruct (1 <? Route53.nonSimpleRoutingPolicies props)%nat eqn:Hc; [discriminate|].
  apply Nat.ltb_ge in Hc. auto.
Qed.

Lemma truthy_string_spec (s : string) : JS.truthy_string s = true <-> s <> "".
Proof. destruct s; simpl; split; congruence. Qed.

Lemma length_check_condition (id : string) :
  JS.truthy_string id
  && ((String.length id <? 1)%nat || (128 <? String.length id)%nat)
  = (128 <? String.length id)%nat.
Proof. destruct id; reflexivity. Qed.

Lemma length_check_condition_gen (n : nat) (id : string) :
  JS.truthy_string id
  && ((String.length id <? 1)%nat || (n <? String.length id)%nat)
  = JS.truthy_string id && (n <? String.length id)%nat.
Proof. destruct id; reflexivity. Qed.

(** X15: An empty [setIdentifier] counts as none: the length validation
    only ever fires on more than 128 characters, never on fewer than 1.
    And a record set that passes the validations with a non-empty
    [setIdentifier] has at most 128 characters in it and exactly one of
    the five routing properties defined. *)
Theorem recordset_setIdentifier_accepted (Number_toString : JS.number -> string)
    (props : Route53.RecordSetProps) :
  (forall err, Route53.setIdentifier_length_check props = Some err ->
     exists id, Route53.setIdentifier props = Some id
       /\ (128 < String.length id)%nat
       /\ err = JS.Error ("setIdentifier must be between 1 and 128 characters long, got: "
                          ++ Route53.render_nat (String.length id))%string)
  /\ (Route53.constructor_checks Number_toString props = None ->
      forall id, Route53.setIdentifier props = Some id -> id <> "" ->
        (String.length id <= 128)%nat
        /\ Route53.nonSimpleRoutingPolicies props = 1%nat).
Proof.
  split.
  - unfold Route53.setIdentifier_length_check.
    destruct (Route53.setIdentifier props) as [id|]; [|discriminate].
    intros err H. exists id. split; [reflexivity|].
    rewrite length_check_condition in H.
    destruct (128 <? String.length id)%nat eqn:Hc; [|discriminate].
    injection H as <-. split; [|reflexivity]. apply Nat.ltb_lt. exact Hc.
  - intros Hok id Hid Hne.
    destruct (checks_pass _ _ Hok) as (_ & Hlen & Hpol & _ & Hcount).
    split.
    + unfold Route53.setIdentifier_length_check in Hlen. rewrite Hid in Hlen.
      rewrite length_check_condition in Hlen.
      destruct (128 <? String.length id)%nat eqn:Hc; [discriminate|].
      apply Nat.ltb_ge. exact Hc.
    + unfold Route53.setIdentifier_policy_check in Hpol. rewrite Hid in Hpol.
      apply truthy_string_spec in Hne.
      unfold Route53.nonSimpleRoutingPolicies in *.
      destruct (Route53.geoLocation props), (Route53.region props) as [rg|],
        (Route53.weight props), (Route53.multiValueAnswer props) as [[|]|],
        (Route53.cidrRoutingConfig props);
        simpl in Hcount, Hpol |- *; rewrite ?Hne in Hpol; simpl in Hpol;
        try lia; try reflexivity; try discriminate;
        destruct (JS.truthy_string rg); simpl in Hpol; discriminate.
Qed.

Lemma recordset_setIdentifier_accepted_witness :
  (String.length "blue" <= 128)%nat
  /\ Route53.nonSimpleRoutingPolicies
       (Route53.mkRecordSetProps (Route53.mkTarget (Some ["1.2.3.4"]) None)
          None (Some (JS.of_pos 20)) None None None (Some "blue")) = 1%nat.
Proof.
  apply (proj2 (recordset_setIdentifier_accepted (fun _ => "20")
                  (Route53.mkRecordSetProps (Route53.mkTarget (Some ["1.2.3.4"]) None)
                     None (Some (JS.of_pos 20)) None None None (Some "blue")))
           eq_refl "blue" eq_refl).
  discriminate.
Defined.

(* ===================================================================== *)
(** ** [RecordSet]: the generated identifier *)
(* ===================================================================== *)

Lemma prefix_app (p s : string) : String.prefix p (p ++ s) = true.
Proof.
  induction p as [|c p IH]; simpl.
  - destruct s; reflexivity.
  - destruct (Ascii.ascii_dec c c); [exact IH|congruence].
Qed.




(* ===================================================================== *)
(** ** [RecordTarget] and [multiValueAnswer] *)
(* ===================================================================== *)

(** X22: the targets made by [RecordTarget.fromValues] and
    [RecordTarget.fromIpAddresses], which all the typed records but the
    alias ones use, never trip the alias validation, whatever
    [multiValueAnswer] is; a target made by [RecordTarget.fromAlias]
    together with a true [multiValueAnswer] always makes the constructor
    throw, with the alias error unless an earlier validation throws
    first. *)
Theorem record_targets_and_multiValueAnswer (Number_toString : JS.number -> string)
    (props : Route53.RecordSetProps) :
  (forall vs, Route53.target props = Records.fromValues vs
              \/ Route53.target props = Records.fromIpAddresses vs ->
     Route53.multiValue_alias_check props = None)
  /\ (forall a, Route53.target props = Records.fromAlias a ->
        Route53.multiValueAnswer props = Some true ->
        exists err, Route53.constructor_checks Number_toString props = Some err
          /\ (Route53.weight_check Number_toString props = None ->
              Route53.setIdentifier_length_check props = None ->
              Route53.setIdentifier_policy_check props = None ->
              err = JS.Error "multiValueAnswer cannot be specified for alias record")).
Proof.
  split.
  - intros vs H. unfold Route53.multiValue_alias_check.
    assert (Ht : Route53.aliasTarget (Route53.target props) = None)
      by (destruct H as [->| ->]; reflexivity).
    rewrite Ht. simpl. rewrite andb_false_r. reflexivity.
  - intros a Ht Hm.
    assert (Ha : Route53.multiValue_alias_check props
                 = Some (JS.Error "multiValueAnswer cannot be specified for alias record")).
    { unfold Route53.multiValue_alias_check. rewrite Ht, Hm. reflexivity. }
    unfold Route53.constructor_checks, Route53.earlier_checks. rewrite Ha.
    destruct (Route53.weight_check Number_toString props) as [e1|];
      [exists e1; split; [reflexivity|discriminate]|].
    destruct (Route53.setIdentifier_length_check props) as [e2|];
      [exists e2; split; [reflexivity|intros _; discriminate]|].
    destruct (Route53.setIdentifier_policy_check props) as [e3|];
      [exists e3; split; [reflexivity|intros _ _; discriminate]|].
    eexists. split; reflexivity.
Qed.

Lemma record_targets_and_multiValueAnswer_witness :
  Route53.multiValue_alias_check
    (Route53.mkRecordSetProps (Records.fromValues ["1.2.3.4"])
       None None None None (Some true) None) = None.
Proof.
  apply (proj1 (record_targets_and_multiValueAnswer (fun _ => "0")
                  (Route53.mkRecordSetProps (Records.fromValues ["1.2.3.4"])
                     None None None None (Some true) None))
           ["1.2.3.4"]).
  left. reflexivity.
Defined.

(* ===================================================================== *)
(** ** [formatTxt] *)
(* ===================================================================== *)

Lemma substring_empty (n m : nat) : substring n m "" = "".
Proof. destruct n, m; reflexivity. Qed.

Lemma substring_none (s : string) : forall n, substring n 0 s = "".
Proof.
  induction s as [|c s IH]; intros [|n]; simpl; auto.
Qed.

Lemma substring_length (s : string) : forall n m,
  String.length (substring n m s) = Nat.min m (String.length s - n).
Proof.
  induction s as [|c s IH]; intros n m.
  - rewrite substring_empty. simpl. lia.
  - destruct n as [|n]; simpl.
    + destruct m as [|m]; simpl; [reflexivity|].
      rewrite IH. rewrite Nat.sub_0_r. reflexivity.
    + apply IH.
Qed.

Lemma substring_split (s : string) : forall n a b,
  (substring n a s ++ substring (n + a) b s)%string = substring n (a + b) s.
Proof.
  induction s as [|c s IH]; intros n a b.
  - rewrite !substring_empty. reflexivity.
  - destruct n as [|n].
    + destruct a as [|a]; simpl; [reflexivity|].
      f_equal. apply (IH 0%nat a b).
    + simpl. apply IH.
Qed.

Lemma substring_over (s : string) : forall n m,
  (String.length s <= n + m)%nat ->
  substring n m s = substring n (String.length s - n) s.
Proof.
  induction s as [|c s IH]; intros n m H.
  - rewrite !substring_empty. reflexivity.
  - destruct n as [|n].
    + destruct m as [|m]; simpl in *; [lia|].
      f_equal. rewrite (IH 0%nat m) by lia. rewrite Nat.sub_0_r. reflexivity.
    + simpl in *. apply IH. lia.
Qed.

Lemma substring_all (s : string) : substring 0 (String.length s) s = s.
Proof. induction s as [|c s IH]; simpl; [reflexivity|]. f_equal. exact IH. Qed.

Lemma append_empty (s : string) : (s ++ "")%string = s.
Proof. induction s as [|c s IH]; simpl; [reflexivity|]. f_equal. exact IH. Qed.

Lemma join_cons (x : string) (xs : list string) :
  String.concat "" (x :: xs) = (x ++ String.concat "" xs)%string.
Proof.
  destruct xs as [|y ys]; simpl; [symmetry; apply append_empty|reflexivity].
Qed.

Lemma chunk_count (d : nat) :
  (1 <= d)%nat -> S ((d - 255 + 254) / 255) = ((d + 254) / 255)%nat.
Proof.
  intros Hd. destruct (le_lt_dec 255 d) as [Hge|Hlt].
  - replace (d + 254)%nat with (d - 255 + 254 + 1 * 255)%nat by lia.
    rewrite Nat.div_add by lia. lia.
  - replace (d - 255 + 254)%nat with 254%nat by lia.
    rewrite (Nat.div_small 254 255) by lia.
    apply (Nat.div_unique (d + 254) 255 1 (d - 1)); lia.
Qed.

(** The loop started at [idx] adds the slices of 255 from [idx] on. *)
Lemma formatTxt_loop_spec (s : string) : forall fuel idx result,
  (String.length s - idx <= fuel)%nat ->
  exists chunks,
    Records.formatTxt_loop fuel s idx result = Some (result ++ chunks)
    /\ String.concat "" chunks = substring idx (String.length s - idx) s
    /\ length chunks = ((String.length s - idx + 254) / 255)%nat
    /\ forall i c, nth_error chunks i = Some c ->
         c = substring (idx + 255 * i) 255 s
         /\ (1 <= String.length c <= 255)%nat.
Proof.
  induction fuel as [|fuel IH]; intros idx result Hf;
    cbn [Records.formatTxt_loop];
    destruct (idx <? String.length s)%nat eqn:Hlt;
    try (apply Nat.ltb_lt in Hlt; lia).
  - apply Nat.ltb_ge in Hlt. exists []. rewrite app_nil_r.
    split; [reflexivity|].
    replace (String.length s - idx)%nat with 0%nat by lia.
    rewrite substring_none. split; [reflexivity|]. split; [reflexivity|].
    intros [|i] c H; discriminate.
  - apply Nat.ltb_lt in Hlt.
    destruct (IH (idx + 255)%nat (result ++ [substring idx 255 s]) ltac:(lia))
      as (chunks & Hloop & Hcat & Hlen & Hnth).
    exists (substring idx 255 s :: chunks).
    split; [rewrite Hloop, <- app_assoc; reflexivity|].
    split; [|split].
    + rewrite join_cons, Hcat, substring_split.
      destruct (le_lt_dec 255 (String.length s - idx)) as [Hge|Hsm].
      * f_equal. lia.
      * replace (String.length s - (idx + 255))%nat with 0%nat by lia.
        rewrite Nat.add_0_r. apply substring_over. lia.
    + simpl. rewrite Hlen.
      replace (String.length s - (idx + 255))%nat
        with (String.length s - idx - 255)%nat by lia.
      apply chunk_count. lia.
    + intros [|i] c H; simpl in H.
      * injection H as <-. rewrite Nat.mul_0_r, Nat.add_0_r.
        split; [reflexivity|]. rewrite substring_length. lia.
      * destruct (Hnth i c H) as [Hc Hb]. split; [|exact Hb].
        rewrite Hc. f_equal. lia.
  - apply Nat.ltb_ge in Hlt. exists []. rewrite app_nil_r.
    split; [reflexivity|].
    replace (String.length s - idx)%nat with 0%nat by lia.
    rewrite substring_none. split; [reflexivity|]. split; [reflexivity|].
    intros [|i] c H; discriminate.
Qed.

(** X17: [formatTxt] always returns: its loop ends after
    ceil(length / 255) rounds. The pieces it quotes are, in order, the
    slices of the text at 0, 255, 510, ...; each has from 1 to 255
    characters, and put together again they are the text, so nothing is
    lost, repeated or reordered. The result is the concatenation of the
    quoted pieces; for the empty text it is the empty string, without
    quotes. *)
Theorem formatTxt_chunks_of_255 (JSON_stringify : string -> string) (s : string) :
  exists chunks,
    Records.formatTxt_chunks s = Some chunks
    /\ Records.formatTxt JSON_stringify s
       = Some (String.concat "" (map JSON_stringify chunks))
    /\ String.concat "" chunks = s
    /\ length chunks = ((String.length s + 254) / 255)%nat
    /\ (forall i c, nth_error chunks i = Some c ->
          c = substring (255 * i) 255 s /\ (1 <= String.length c <= 255)%nat)
    /\ (s = "" -> Records.formatTxt JSON_stringify s = Some "").
Proof.
  destruct (formatTxt_loop_spec s (String.length s) 0 [] ltac:(lia))
    as (chunks & Hloop & Hcat & Hlen & Hnth).
  simpl in Hloop. rewrite Nat.sub_0_r in Hcat, Hlen.
  rewrite substring_all in Hcat.
  exists chunks. unfold Records.formatTxt, Records.formatTxt_chunks.
  rewrite Hloop. split; [reflexivity|]. split; [reflexivity|].
  split; [exact Hcat|]. split; [exact Hlen|]. split; [exact Hnth|].
  intros ->. simpl in Hlen. destruct chunks; [reflexivity|discriminate].
Qed.

(* ===================================================================== *)
(** ** [ZoneDelegationRecord]: the name servers *)
(* ===================================================================== *)

Lemma length_append (s t : string) :
  String.length (s ++ t) = (String.length s + String.length t)%nat.
Proof. induction s as [|c s IH]; simpl; [reflexivity|]. rewrite IH. reflexivity. Qed.

Lemma substring_after (s t : string) (n : nat) :
  substring (String.length s) n (s ++ t) = substring 0 n t.
Proof. induction s as [|c s IH]; simpl; [reflexivity|exact IH]. Qed.

Lemma endsWith_dot (s : string) : Records.endsWith (s ++ ".") "." = true.
Proof.
  unfold Records.endsWith. rewrite length_append. simpl String.length.
  replace (String.length s + 1 - 1)%nat with (String.length s) by lia.
  rewrite substring_after. simpl substring.
  replace (1 <=? String.length s + 1)%nat with true
    by (symmetry; apply Nat.leb_le; lia).
  reflexivity.
Qed.

Section ZoneDelegationFacts.
Variable isUnresolved : string -> bool.

Lemma qualify_cases (ns : string) :
  ((isUnresolved ns = true \/ Records.endsWith ns "." = true)
   /\ Records.qualify isUnresolved ns = ns)
  \/ (isUnresolved ns = false /\ Records.endsWith ns "." = false
      /\ Records.qualify isUnresolved ns = (ns ++ ".")%string).
Proof.
  unfold Records.qualify.
  destruct (isUnresolved ns); [left; auto|].
  destruct (Records.endsWith ns "."); [left; auto|right; auto].
Qed.

Lemma qualify_idempotent (ns : string) :
  Records.qualify isUnresolved (Records.qualify isUnresolved ns)
  = Records.qualify isUnresolved ns.
Proof.
  destruct (qualify_cases ns) as [[_ H]|(_ & _ & H)]; rewrite H.
  - exact H.
  - unfold Records.qualify. rewrite endsWith_dot, orb_true_r. reflexivity.
Qed.

End ZoneDelegationFacts.

(** X18: A zone delegation whose list of name servers is no token
    targets as many values as it was given name servers, in their order:
    an unresolved name and a name ending in a dot are kept as they are,
    every other name gets one dot appended. So every resolved name of
    the target ends in a dot, and treating the result again changes
    nothing. The target is never an alias. *)
Theorem zone_delegation_name_servers (isUnresolved : string -> bool)
    (isUnresolvedList : list string -> bool) (nameServers : list string) :
  isUnresolvedList nameServers = false ->
  exists out,
    Records.ZoneDelegationRecord_target isUnresolved isUnresolvedList nameServers
    = Route53.mkTarget (Some out) None
    /\ length out = length nameServers
    /\ (forall i ns, nth_error nameServers i = Some ns ->
          exists o, nth_error out i = Some o
            /\ (((isUnresolved ns = true \/ Records.endsWith ns "." = true) /\ o = ns)
                \/ (isUnresolved ns = false /\ Records.endsWith ns "." = false
                    /\ o = (ns ++ ".")%string))
            /\ (isUnresolved ns = false -> Records.endsWith o "." = true))
    /\ map (Records.qualify isUnresolved) out = out.
Proof.
  intros Hl. exists (map (Records.qualify isUnresolved) nameServers).
  unfold Records.ZoneDelegationRecord_target, Records.fromValues. rewrite Hl.
  split; [reflexivity|]. split; [apply length_map|]. split.
  - intros i ns Hi. exists (Records.qualify isUnresolved ns).
    split; [rewrite nth_error_map, Hi; reflexivity|].
    split; [exact (qualify_cases isUnresolved ns)|].
    intros Hu. destruct (qualify_cases isUnresolved ns) as [[[H|H] ->]|(_ & _ & ->)].
    + congruence.
    + exact H.
    + apply endsWith_dot.
  - rewrite map_map. apply map_ext. intros ns. apply qualify_idempotent.
Qed.

Lemma zone_delegation_name_servers_witness :
  exists out,
    Records.ZoneDelegationRecord_target (fun _ => false) (fun _ => false)
      ["ns-1.awsdns.com"; "ns-2.awsdns.org."]
    = Route53.mkTarget (Some out) None
    /\ length out = 2%nat.
Proof.
  destruct (zone_delegation_name_servers (fun _ => false) (fun _ => false)
              ["ns-1.awsdns.com"; "ns-2.awsdns.org."] eq_refl)
    as (out & H1 & H2 & _).
  exists out. split; [exact H1|exact H2].
Defined.

(* ===================================================================== *)
(** ** [CrossAccountZoneDelegationRecord]: the parent zone *)
(* ===================================================================== *)

Lemma given_spec (v : option string) :
  Route53.truthy_opt JS.truthy_string v = true <-> Records.given v.
Proof.
  unfold Records.given. destruct v as [[|c s]|]; simpl; split.
  - discriminate.
  - intros (s' & H & Hne). injection H as <-. congruence.
  - intros _. exists (String c s). split; [reflexivity|discriminate].
  - reflexivity.
  - discriminate.
  - intros (s' & H & _). discriminate.
Qed.

(** X19: The constructor goes past its two guards exactly when one of
    [parentHostedZoneName] and [parentHostedZoneId] is a non-empty
    string and the other is not; an empty string counts as missing.
    With neither it throws the "At least one" error, with both the
    "Only one" error. *)
Theorem cross_account_parent_zone (parentHostedZoneName parentHostedZoneId : option string) :
  (Records.CrossAccountZoneDelegationRecord_checks parentHostedZoneName parentHostedZoneId
   = None
   <-> (Records.given parentHostedZoneName /\ ~ Records.given parentHostedZoneId)
       \/ (~ Records.given parentHostedZoneName /\ Records.given parentHostedZoneId))
  /\ (Records.CrossAccountZoneDelegationRecord_checks parentHostedZoneName parentHostedZoneId
      = Some (JS.Error Records.at_least_one_message)
      <-> ~ Records.given parentHostedZoneName /\ ~ Records.given parentHostedZoneId)
  /\ (Records.CrossAccountZoneDelegationRecord_checks parentHostedZoneName parentHostedZoneId
      = Some (JS.Error Records.only_one_parent_message)
      <-> Records.given parentHostedZoneName /\ Records.given parentHostedZoneId).
Proof.
  unfold Records.CrossAccountZoneDelegationRecord_checks.
  pose proof (given_spec parentHostedZoneName) as Hn.
  pose proof (given_spec parentHostedZoneId) as Hi.
  destruct (Route53.truthy_opt JS.truthy_string parentHostedZoneName);
    destruct (Route53.truthy_opt JS.truthy_string parentHostedZoneId); simpl.
  - assert (Gn := proj1 Hn eq_refl). assert (Gi := proj1 Hi eq_refl).
    split; [|split].
    + split; [discriminate|]. intros [[_ H]|[H _]]; contradiction.
    + split; [discriminate|]. intros [H _]. contradiction.
    + split; auto.
  - assert (Gn := proj1 Hn eq_refl).
    assert (Gi : ~ Records.given parentHostedZoneId)
      by (intros H; apply Hi in H; discriminate).
    split; [|split].
    + split; auto.
    + split; [discriminate|]. intros [H _]. contradiction.
    + split; [discriminate|]. intros [_ H]. contradiction.
  - assert (Gi := proj1 Hi eq_refl).
    assert (Gn : ~ Records.given parentHostedZoneName)
      by (intros H; apply Hn in H; discriminate).
    split; [|split].
    + split; auto.
    + split; [discriminate|]. intros [_ H]. contradiction.
    + split; [discriminate|]. intros [H _]. contradiction.
  - assert (Gn : ~ Records.given parentHostedZoneName)
      by (intros H; apply Hn in H; discriminate).
    assert (Gi : ~ Records.given parentHostedZoneId)
      by (intros H; apply Hi in H; discriminate).
    split; [|split].
    + split; [discriminate|]. intros [[H _]|[_ H]]; contradiction.
    + split; auto.
    + split; [discriminate|]. intros [H _]. contradiction.
Qed.

(* ===================================================================== *)
(** ** [RecordSet]: the validations of [cidrRoutingConfig] *)
(* ===================================================================== *)

Lemma all_chars_spec (p : ascii -> bool) (s : string) :
  Records.all_chars p s = true <->
  forall i c, String.get i s = Some c -> p c = true.
Proof.
  induction s as [|a s IH]; simpl.
  - split; [intros _ i c H; discriminate|reflexivity].
  - rewrite andb_true_iff, IH. split.
    + intros [Ha Hs] [|i] c H; simpl in H.
      * injection H as <-. exact Ha.
      * exact (Hs i c H).
    + intros H. split.
      * apply (H 0%nat a). reflexivity.
      * intros i c Hi. apply (H (S i) c). exact Hi.
Qed.

Lemma bounded_name_spec (n : nat) (s : string) :
  s <> "" ->
  ((n <? String.length s)%nat = false /\ Records.name_pattern_test s = true
   <-> Records.plain_name n s).
Proof.
  intros Hne. unfold Records.plain_name, Records.name_pattern_test.
  rewrite andb_true_iff, all_chars_spec, Nat.ltb_ge.
  apply truthy_string_spec in Hne.
  assert (1 <= String.length s)%nat by (destruct s; [discriminate|simpl; lia]).
  split.
  - intros (H1 & _ & H2). split; [lia|exact H2].
  - intros ((_ & H1) & H2). auto.
Qed.

Lemma first_error_none (checks : list (option JS.error)) :
  Records.first_error checks = None <-> forall c, In c checks -> c = None.
Proof.
  induction checks as [|[err|] rest IH]; simpl.
  - split; [intros _ c []|reflexivity].
  - split; [discriminate|]. intros H. apply H. left. reflexivity.
  - rewrite IH. split.
    + intros H c [<-|Hc]; auto.
    + intros H c Hc. apply H. right. exact Hc.
Qed.

Lemma star_is_no_name (n : nat) : ~ Records.plain_name n "*".
Proof.
  intros [_ H]. specialize (H 0%nat "*"%char eq_refl). discriminate H.
Qed.

(** X20: The validations of [cidrRoutingConfig] let a configuration
    through exactly when: the location name is empty, or is ["*"] with
    neither a [cidrList] nor an existing collection, or has 1 to 16
    characters, all of them letters, digits, [_] or [-]; a [cidrList],
    if given, has 1 to 1000 elements; and a collection name, if given,
    is empty or has 1 to 64 such characters. A [cidrList] is thus not
    required for a location other than ["*"], and empty names pass. *)
Theorem cidr_config_accepted (cfg : Route53.CidrRoutingConfig)
    (collection : option Records.CfnCidrCollection) :
  Records.cidr_checks cfg collection = None <->
  (Route53.locationName cfg = ""
   \/ (Route53.locationName cfg = "*" /\ Route53.cidrList cfg = None
       /\ collection = None)
   \/ Records.plain_name 16 (Route53.locationName cfg))
  /\ (forall l, Route53.cidrList cfg = Some l -> (1 <= length l <= 1000)%nat)
  /\ (forall n, Route53.collectionName cfg = Some n ->
        n = "" \/ Records.plain_name 64 n).
Proof.
  unfold Records.cidr_checks. rewrite first_error_none.
  unfold Records.locationName_length_check, Records.default_cidrList_check,
    Records.default_collection_check, Records.locationName_pattern_check,
    Records.cidrList_length_check, Records.collectionName_length_check,
    Records.collectionName_pattern_check.
  destruct cfg as [cl loc cn]. simpl Route53.locationName.
  simpl Route53.cidrList. simpl Route53.collectionName.
  assert (Hloc :
    ((if JS.truthy_string loc
          && ((String.length loc <? 1)%nat || (16 <? String.length loc)%nat)
      then Some (JS.Error ("locationName must be between 1 and 16 characters long, got: "
                           ++ Route53.render_nat (String.length loc))%string)
      else None) = None
     /\ (if (loc =? "*")%string && Route53.is_defined cl
         then Some (JS.Error "cidrList can only be specified for non-default locations")
         else None) = None
     /\ (if (loc =? "*")%string && Route53.is_defined collection
         then Some (JS.Error "Default location cannot be specified when using an existing CIDR collection")
         else None) = None
     /\ (if JS.truthy_string loc && negb (Records.name_pattern_test loc)
            && negb (loc =? "*")%string
         then Some (JS.Error ("locationName must only contain alphanumeric characters, underscores, and hyphens, or only '*', got: "
                              ++ loc)%string)
         else None) = None)
    <-> (loc = "" \/ (loc = "*" /\ cl = None /\ collection = None)
         \/ Records.plain_name 16 loc)).
  { rewrite length_check_condition_gen.
    destruct (String.eqb_spec loc "*") as [->|Hstar].
    - simpl. destruct cl, collection; simpl; split;
        try (intros (_ & H1 & H2 & _); discriminate);
        try (intros [H|[(_ & H1 & H2)|H]];
             [discriminate|discriminate|destruct (star_is_no_name _ H)]).
      + intros _. right. left. repeat split.
      + intros _. repeat split.
    - simpl. rewrite andb_true_r.
      destruct loc as [|a loc]; [simpl; split; auto|].
      pose proof (bounded_name_spec 16 (String a loc) ltac:(discriminate)) as Hb.
      change (JS.truthy_string (String a loc)) with true. rewrite andb_true_l.
      destruct (16 <? String.length (String a loc))%nat;
        destruct (Records.name_pattern_test (String a loc)); simpl; split;
        try (intros (H & _); discriminate);
        try (intros (_ & _ & _ & H); discriminate);
        try (intros [H|[(H & _)|H]];
             [discriminate|congruence|apply Hb in H; destruct H; discriminate]).
      + intros _. right. right. apply Hb. auto.
      + intros _. repeat split. }
  assert (Hcl :
    match cl with
    | Some cidrList =>
        if (length cidrList <? 1)%nat || (1000 <? length cidrList)%nat
        then Some (JS.Error ("cidrList must contain between 1 and 1000 elements, got: "
                             ++ Route53.render_nat (length cidrList))%string)
        else None
    | None => None
    end = None
    <-> forall l, cl = Some l -> (1 <= length l <= 1000)%nat).
  { destruct cl as [l|]; [|split; [intros _ l H; discriminate|reflexivity]].
    destruct (Nat.ltb_spec (length l) 1) as [H1|H1];
      destruct (Nat.ltb_spec 1000 (length l)) as [H2|H2];
      simpl; split; try discriminate; try reflexivity;
      try (intros H; specialize (H l eq_refl); lia).
    intros _ l' Hl. injection Hl as <-. lia. }
  assert (Hcn :
    (match cn with
     | Some collectionName =>
         if JS.truthy_string collectionName
            && ((String.length collectionName <? 1)%nat
                || (64 <? String.length collectionName)%nat)
         then Some (JS.Error ("collectionName must be between 1 and 64 characters long, got: "
                              ++ Route53.render_nat (String.length collectionName))%string)
         else None
     | None => None
     end = None
     /\ match cn with
        | Some collectionName =>
            if JS.truthy_string collectionName
               && negb (Records.name_pattern_test collectionName)
            then Some (JS.Error ("collectionName must only contain alphanumeric characters, underscores, and hyphens, got: "
                                 ++ collectionName)%string)
            else None
        | None => None
        end = None)
    <-> forall n, cn = Some n -> n = "" \/ Records.plain_name 64 n).
  { destruct cn as [n|]; [|split; [intros _ n H; discriminate|auto]].
    rewrite length_check_condition_gen.
    destruct n as [|a n].
    - simpl. split; [|auto]. intros _ n Hn. injection Hn as <-. auto.
    - pose proof (bounded_name_spec 64 (String a n) ltac:(discriminate)) as Hb.
      change (JS.truthy_string (String a n)) with true. rewrite andb_true_l.
      destruct (64 <? String.length (String a n))%nat;
        destruct (Records.name_pattern_test (String a n)); simpl; split;
        try (intros (H & _); discriminate);
        try (intros (_ & H); discriminate);
        try (intros H; destruct (H _ eq_refl) as [H'|H'];
             [discriminate|apply Hb in H'; destruct H'; discriminate]).
      + intros _ n' Hn. injection Hn as <-. right. apply Hb. auto.
      + intros _. auto. }
  rewrite <- Hloc, <- Hcl, <- Hcn. simpl In. split.
  - intros H. repeat split; apply H; auto 10.
  - intros ((H1 & H2 & H3 & H4) & H5 & H6 & H7) c Hc.
    destruct Hc as [<-|[<-|[<-|[<-|[<-|[<-|[<-|[]]]]]]]]; assumption.
Qed.

(** X21: Without an existing collection, a configuration that passed
    the validations gets a collection of its own: with no locations for
    the location ["*"], and otherwise with exactly one location, under
    the configured name, whose CIDR list is the given one (of at most
    1000 blocks) or is empty when none was given. The collection is
    named as configured, with at most 64 characters, when a name was
    given. *)
Theorem cidr_new_collection (uniqueResourceName : Z -> string)
    (cfg : Route53.CidrRoutingConfig) :
  Records.cidr_checks cfg None = None ->
  (Route53.locationName cfg = "*" ->
     Records.locations (Records.new_CidrCollection uniqueResourceName cfg) = None)
  /\ (Route53.locationName cfg <> "*" ->
      exists l,
        Records.locations (Records.new_CidrCollection uniqueResourceName cfg)
        = Some [(Some l, Route53.locationName cfg)]
        /\ (length l <= 1000)%nat
        /\ (Route53.cidrList cfg = Some l
            \/ (Route53.cidrList cfg = None /\ l = [])))
  /\ (forall n, Route53.collectionName cfg = Some n ->
        Records.name (Records.new_CidrCollection uniqueResourceName cfg) = n
        /\ (String.length n <= 64)%nat).
Proof.
  intros Hok.
  assert (Hacc : Records.cidr_checks cfg None = None) by exact Hok.
  unfold Records.cidr_checks in Hok. rewrite first_error_none in Hok.
  unfold Records.new_CidrCollection. split; [|split].
  - intros ->. reflexivity.
  - intros Hne. apply String.eqb_neq in Hne. rewrite Hne. simpl.
    assert (Hcl : Records.cidrList_length_check cfg = None)
      by (apply Hok; simpl; auto 10).
    unfold Records.cidrList_length_check in Hcl.
    destruct (Route53.cidrList cfg) as [l|].
    + exists l. split; [reflexivity|]. split; [|left; reflexivity].
      destruct (1000 <? length l)%nat eqn:H2.
      * rewrite orb_true_r in Hcl. discriminate.
      * apply Nat.ltb_ge. exact H2.
    + exists []. split; [reflexivity|]. split; [simpl; lia|right; auto].
  - intros n Hn. rewrite Hn. split; [reflexivity|].
    assert (Hcn : Records.collectionName_length_check cfg = None)
      by (apply Hok; simpl; auto 10).
    unfold Records.collectionName_length_check in Hcn. rewrite Hn in Hcn.
    rewrite length_check_condition_gen in Hcn.
    destruct n as [|a n]; [simpl; lia|].
    change (JS.truthy_string (String a n)) with true in Hcn.
    rewrite andb_true_l in Hcn.
    destruct (64 <? String.length (String a n))%nat eqn:H2; [discriminate|].
    apply Nat.ltb_ge. exact H2.
Qed.

Lemma cidr_new_collection_witness :
  exists l,
    Records.locations
      (Records.new_CidrCollection (fun _ => "Unique")
         (Route53.mkCidrRoutingConfig (Some ["192.168.1.0/24"]) "office" None))
    = Some [(Some l, "office")]
    /\ (length l <= 1000)%nat.
Proof.
  destruct (proj1 (proj2 (cidr_new_collection (fun _ => "Unique")
              (Route53.mkCidrRoutingConfig (Some ["192.168.1.0/24"]) "office" None)
              eq_refl)))
    as (l & H1 & H2 & _).
  - discriminate.
  - exists l. split; [exact H1|exact H2].
Defined.
